(** * Forecaster: price forecasts from locality / city growth rates

    A shallow embedding of [forecast.py].  The script loads a table with
    pandas, picks a growth rate (CAGR) per row, derives three forecast
    columns with vectorised float64 arithmetic and writes the table back.

    - Cells of numeric columns are IEEE-754 binary64 values, Rocq's primitive
      [float]; a missing value is NaN, exactly as pandas stores it.
    - Columns are lists, a data frame is an ordered list of named columns,
      [df[name]] is a lookup that can raise [KeyError] and [df[name] = v]
      replaces the column of that name or appends a new last column.
    - The run is a function on a file system that maps a path to the table
      stored there; the CSV text itself, its parsing and its printing are not
      part of the model.
    - pandas evaluates the arithmetic with numpy on float64 arrays: [+], [*]
      and [/] are the IEEE-754 operations, which are Rocq's primitive ones;
      [** k] and [.round(2)] are [F64.power] and [F64.np_round] below.
    - [** 3] is the [pow] of the platform (the C library's, or a SIMD
      replacement), which is not correctly rounded and not the same on every
      platform: it is a parameter of the model, [F64.Libm], and every
      theorem holds for every platform.  Where a theorem needs the accuracy
      of [pow] it says so ([pow_faithful]).
    - A column that is not float64 is a column of strings (object dtype).
      The arithmetic of the script needs its three inputs as float64 columns;
      integer columns, which pandas converts to float64 in this arithmetic,
      are taken as float64. *)

From Stdlib Require Import ZArith Floats.
From stdpp Require Import gmap strings list.

Set Warnings "-inexact-float".

(** ** Binary64 operations used by the script *)

Module F64.

(** [Series.notna()] on a float64 column: a value is missing iff it is NaN. *)
Definition notna (x : float) : bool := negb (is_nan x).

(** The exact power [x ^ k] rounded once to binary64: what a correctly
    rounded [pow] returns.  The platform of the script need not compute
    this; it is the reference against which the accuracy of the platform's
    [pow] is stated, and the instance on which the theorems are evaluated. *)
Definition SFpown (x : spec_float) (k : positive) : spec_float :=
  match x with
  | S754_nan => S754_nan
  | S754_zero s => S754_zero (s && Z.odd (Z.pos k))
  | S754_infinity s => S754_infinity (s && Z.odd (Z.pos k))
  | S754_finite s m e =>
      binary_round prec emax (s && Z.odd (Z.pos k)) (m ^ k) (e * Z.pos k)
  end.

Definition pow_cr (x : float) (k : positive) : float :=
  SF2Prim (SFpown (Prim2SF x) k).

(** The platform's [pow].  numpy evaluates [x ** k] on a float64 array with
    the C library's [pow(x, (double) k)], or a SIMD replacement of it.  No
    standard fixes the results of [pow] bit for bit, and they differ from the
    correctly rounded power in the last place, so [pow] is a parameter of the
    model: [pow x k] is what the platform returns for [pow(x, (double) k)].
    What C (Annex F) does fix for a positive integer exponent is part of the
    interface: the result is NaN exactly for a NaN base, [pow(1, y)] is 1 and
    [pow(+inf, y)] is +inf. *)
Class Libm : Type := {
  pow : float → positive → float;
  pow_nan : ∀ x k, is_nan (pow x k) = is_nan x;
  pow_one : ∀ k, pow 1 k = 1%float;
  pow_inf : ∀ k, pow infinity k = infinity;
}.

(** [x ** k] for a positive integer [k], as numpy evaluates it on a float64
    array: [x] itself for [k = 1] (numpy's [positive]), the product [x * x]
    for [k = 2] (numpy's [square]), and the platform's [pow] otherwise. *)
Definition power `{Libm} (x : float) (k : positive) : float :=
  match k with
  | 1%positive => x
  | 2%positive => (x * x)%float
  | _ => pow x k
  end.

(** C's [rint] in the default rounding mode: the nearest integer, ties to
    even, the sign kept; values of magnitude 2^52 and above, infinities and
    NaN are returned as they are. *)
Definition two52 : float := 4503599627370496%float.

Definition rint (x : float) : float :=
  if (abs x <? two52)%float then
    let r := (abs x + two52 - two52)%float in
    if get_sign x then (- r)%float else r
  else x.

(** numpy's table of powers of ten and its [round]: scale, [rint], unscale. *)
Fixpoint power_of_ten (n : nat) : float :=
  match n with
  | O => 1%float
  | S n' => (power_of_ten n' * 10)%float
  end.

Definition np_round (decimals : nat) (x : float) : float :=
  let f := power_of_ten decimals in
  (rint (x * f) / f)%float.

(** One cell of [(price * (1 + cagr) ** k).round(2)]. *)
Definition forecast `{Libm} (price cagr : float) (k : positive) : float :=
  np_round 2 (price * power (1 + cagr) k)%float.

(** The product [x * y] is the invalid operation zero times infinity. *)
Definition zero_times_inf (x y : float) : bool :=
  (is_zero x && is_infinity y) || (is_infinity x && is_zero y).

End F64.

(** ** Columns and data frames *)

Inductive column : Type :=
  | FloatCol (xs : list float)
  | ObjCol (xs : list string).

Definition col_length (c : column) : nat :=
  match c with
  | FloatCol xs => length xs
  | ObjCol xs => length xs
  end.

Abbreviation dataframe := (list (string * column)).

(** [df[name]]: the first column of that name. *)
Fixpoint getitem (df : dataframe) (name : string) : option column :=
  match df with
  | [] => None
  | (n, c) :: df' => if decide (n = name) then Some c else getitem df' name
  end.

(** [df[name] = c]: replace in place, or append as the last column. *)
Fixpoint setitem (df : dataframe) (name : string) (c : column) : dataframe :=
  match df with
  | [] => [(name, c)]
  | (n, c') :: df' =>
      if decide (n = name) then (n, c) :: df' else (n, c') :: setitem df' name c
  end.

Definition columns (df : dataframe) : list string := df.*1.

(** All columns of a frame have [n] rows. *)
Definition nrows (df : dataframe) (n : nat) : Prop :=
  Forall (λ nc, col_length nc.2 = n) df.

(** [df[cols]]: the frame restricted to the listed columns. *)
Definition restrict (df : dataframe) (cols : list string) : dataframe :=
  filter (λ nc, nc.1 ∈ cols) df.

(** The value of a row in a float64 column, and in an object column. *)
Definition float_at (df : dataframe) (name : string) (i : nat) : option float :=
  match getitem df name with
  | Some (FloatCol xs) => xs !! i
  | _ => None
  end.

Definition str_at (df : dataframe) (name : string) (i : nat) : option string :=
  match getitem df name with
  | Some (ObjCol xs) => xs !! i
  | _ => None
  end.

(** ** Errors *)

Inductive error : Type :=
  | KeyError (name : string)
  | TypeError (name : string)
  | FileNotFoundError (path : string).

Definition result (A : Type) : Type := error + A.

#[global] Instance result_ret : MRet result := λ A x, inr x.
#[global] Instance result_bind : MBind result := λ A B f m,
  match m with
  | inl e => inl e
  | inr x => f x
  end.
#[global] Instance result_fmap : FMap result := λ A B f m,
  match m with
  | inl e => inl e
  | inr x => inr (f x)
  end.

(** A required column read for arithmetic: [KeyError] when it is absent; a
    column of object dtype cannot be used in the arithmetic below and aborts
    the run as well. *)
Definition float_col (df : dataframe) (name : string) : result (list float) :=
  match getitem df name with
  | None => inl (KeyError name)
  | Some (FloatCol xs) => inr xs
  | Some (ObjCol _) => inl (TypeError name)
  end.

(** ** Vectorised operations *)

Definition series_notna (s : list float) : list bool := F64.notna <$> s.

(** [np.where(cond, x, y)] on arrays of one length. *)
Fixpoint np_where {A : Type} (cond : list bool) (x y : list A) : list A :=
  match cond, x, y with
  | b :: cond', a :: x', d :: y' => (if b then a else d) :: np_where cond' x' y'
  | _, _, _ => []
  end.

(** A scalar broadcast against a condition array. *)
Definition broadcast {A B : Type} (like : list B) (v : A) : list A :=
  replicate (length like) v.

Definition scalar_add (c : float) (s : list float) : list float :=
  (λ x, (c + x)%float) <$> s.

Definition series_pow `{!F64.Libm} (s : list float) (k : positive) : list float :=
  (λ x, F64.power x k) <$> s.

Definition series_mul (a b : list float) : list float :=
  zip_with PrimFloat.mul a b.

Definition series_round (decimals : nat) (s : list float) : list float :=
  F64.np_round decimals <$> s.

(** ** The script *)

Definition input_file : string :=
  "C:/Users/cw/Downloads/Real Estate/clean_real_estate_with_cagr.csv".
Definition output_file : string :=
  "C:/Users/cw/Downloads/Real Estate/clean_real_estate_forecast.csv".

Definition price_col : string := "Price_per_SQFT".
Definition city_cagr_col : string := "City_Level_Annual_CAGR".
Definition loc_cagr_col : string := "Locality_Level_Annual_CAGR".

(** [np.where(df[loc].notna(), df[loc], df[city])] *)
Definition chosen_cagr (df : dataframe) : result (list float) :=
  cond ← series_notna <$> float_col df loc_cagr_col;
  loc ← float_col df loc_cagr_col;
  city ← float_col df city_cagr_col;
  mret (np_where cond loc city).

(** [np.where(df[loc].notna(), "locality",
              np.where(df[city].notna(), "city", "none"))] *)
Definition cagr_source (df : dataframe) : result (list string) :=
  cond ← series_notna <$> float_col df loc_cagr_col;
  cond' ← series_notna <$> float_col df city_cagr_col;
  mret (np_where cond (broadcast cond "locality")
          (np_where cond' (broadcast cond' "city") (broadcast cond' "none"))).

(** [(df[price_col] * (1 + df["chosen_cagr"])**k).round(2)] *)
Definition forecast_column `{!F64.Libm} (df : dataframe) (k : positive) : result (list float) :=
  price ← float_col df price_col;
  cagr ← float_col df "chosen_cagr";
  mret (series_round 2 (series_mul price (series_pow (scalar_add 1 cagr) k))).

(** The five assignments of the script, in order, on the loaded frame. *)
Definition forecaster `{!F64.Libm} (df : dataframe) : result dataframe :=
  c ← chosen_cagr df;
  let df := setitem df "chosen_cagr" (FloatCol c) in
  s ← cagr_source df;
  let df := setitem df "cagr_source" (ObjCol s) in
  y1 ← forecast_column df 1;
  let df := setitem df "Price_per_SQFT_plus_1yr" (FloatCol y1) in
  y2 ← forecast_column df 2;
  let df := setitem df "Price_per_SQFT_plus_2yr" (FloatCol y2) in
  y3 ← forecast_column df 3;
  let df := setitem df "Price_per_SQFT_plus_3yr" (FloatCol y3) in
  mret df.

(** The columns the script adds, in order. *)
Definition derived_cols : list string :=
  ["chosen_cagr"; "cagr_source"; "Price_per_SQFT_plus_1yr";
   "Price_per_SQFT_plus_2yr"; "Price_per_SQFT_plus_3yr"].

Definition forecast_col (k : positive) : string :=
  match k with
  | 1%positive => "Price_per_SQFT_plus_1yr"
  | 2%positive => "Price_per_SQFT_plus_2yr"
  | _ => "Price_per_SQFT_plus_3yr"
  end.

(** ** The run: read, transform, write *)

Definition read_csv (fs : gmap string (list (string * column))) (path : string)
  : result dataframe :=
  match fs !! path with
  | Some df => inr df
  | None => inl (FileNotFoundError path)
  end.

(** [df.to_csv(path, index=False)] where the path can be written: the file
    holds the table afterwards.  A write that the operating system refuses
    is not modelled, so nothing below speaks of such a run. *)
Definition to_csv (df : dataframe) (path : string)
    (fs : gmap string (list (string * column)))
  : gmap string (list (string * column)) :=
  <[path := df]> fs.

(** The whole script: the error that aborted the run, if any, and the file
    system it leaves. *)
Definition main `{!F64.Libm} (fs : gmap string (list (string * column)))
  : option error * gmap string (list (string * column)) :=
  match read_csv fs input_file ≫= forecaster with
  | inl e => (Some e, fs)
  | inr df => (None, to_csv df output_file fs)
  end.

(** ** Classes of binary64 values *)

Definition SFis_nan (x : spec_float) : bool :=
  match x with S754_nan => true | _ => false end.
Definition SFis_zero (x : spec_float) : bool :=
  match x with S754_zero _ => true | _ => false end.
Definition SFis_inf (x : spec_float) : bool :=
  match x with S754_infinity _ => true | _ => false end.
Definition SFis_finite (x : spec_float) : bool :=
  match x with S754_finite _ _ _ => true | _ => false end.

(** ** The columns the script computes, as functions of the three inputs *)

Definition chosen_of (loc city : list float) : list float :=
  np_where (series_notna loc) loc city.

Definition source_of (loc city : list float) : list string :=
  np_where (series_notna loc) (broadcast (series_notna loc) "locality")
    (np_where (series_notna city) (broadcast (series_notna city) "city")
       (broadcast (series_notna city) "none")).

Definition forecast_of `{!F64.Libm} (price cagr : list float) (k : positive) : list float :=
  series_round 2 (series_mul price (series_pow (scalar_add 1 cagr) k)).

Definition assign_all `{!F64.Libm} (df : dataframe) (loc city price : list float) : dataframe :=
  let c := chosen_of loc city in
  let df := setitem df "chosen_cagr" (FloatCol c) in
  let df := setitem df "cagr_source" (ObjCol (source_of loc city)) in
  let df := setitem df "Price_per_SQFT_plus_1yr" (FloatCol (forecast_of price c 1)) in
  let df := setitem df "Price_per_SQFT_plus_2yr" (FloatCol (forecast_of price c 2)) in
  setitem df "Price_per_SQFT_plus_3yr" (FloatCol (forecast_of price c 3)).

(** ** Sample tables *)

(** Three rows: both rates present, only the city rate, no rate at all. *)
Definition sample_df : dataframe :=
  [("Locality", ObjCol ["Baner"; "Wakad"; "Kharadi"]);
   (price_col, FloatCol [100; 200; 300]%float);
   (city_cagr_col, FloatCol [0.05; 0.04; nan]%float);
   (loc_cagr_col, FloatCol [0.10; nan; nan]%float)].

Definition sample_out : dataframe :=
  sample_df ++
  [("chosen_cagr", FloatCol [0.10; 0.04; nan]%float);
   ("cagr_source", ObjCol ["locality"; "city"; "none"]);
   ("Price_per_SQFT_plus_1yr", FloatCol [110; 208; nan]%float);
   ("Price_per_SQFT_plus_2yr", FloatCol [121; 216.32; nan]%float);
   ("Price_per_SQFT_plus_3yr", FloatCol [133.1; 224.97; nan]%float)].

(** The one-row table of the numeric example. *)
Definition numeric_example_df : dataframe :=
  [(price_col, FloatCol [100]%float);
   (loc_cagr_col, FloatCol [0.10]%float);
   (city_cagr_col, FloatCol [0.05]%float)].

Definition numeric_example_out : dataframe :=
  numeric_example_df ++
  [("chosen_cagr", FloatCol [0.10]%float);
   ("cagr_source", ObjCol ["locality"]);
   ("Price_per_SQFT_plus_1yr", FloatCol [110]%float);
   ("Price_per_SQFT_plus_2yr", FloatCol [121]%float);
   ("Price_per_SQFT_plus_3yr", FloatCol [133.1]%float)].

(** A zero price with a growth rate so large that its square overflows. *)
Definition overflow_df : dataframe :=
  [(price_col, FloatCol [0]%float);
   (city_cagr_col, FloatCol [0.05]%float);
   (loc_cagr_col, FloatCol [1e200]%float)].

Definition overflow_out : dataframe :=
  overflow_df ++
  [("chosen_cagr", FloatCol [1e200]%float);
   ("cagr_source", ObjCol ["locality"]);
   ("Price_per_SQFT_plus_1yr", FloatCol [0]%float);
   ("Price_per_SQFT_plus_2yr", FloatCol [nan]%float);
   ("Price_per_SQFT_plus_3yr", FloatCol [nan]%float)].

(** A row whose locality rate is zero. *)
Definition flat_df : dataframe :=
  [(price_col, FloatCol [123.456]%float);
   (city_cagr_col, FloatCol [0.05]%float);
   (loc_cagr_col, FloatCol [0]%float)].

Definition flat_out : dataframe :=
  flat_df ++
  [("chosen_cagr", FloatCol [0]%float);
   ("cagr_source", ObjCol ["locality"]);
   ("Price_per_SQFT_plus_1yr", FloatCol [123.46]%float);
   ("Price_per_SQFT_plus_2yr", FloatCol [123.46]%float);
   ("Price_per_SQFT_plus_3yr", FloatCol [123.46]%float)].

(** A table that already has a column named like a derived one. *)
Definition clash_df : dataframe :=
  [(price_col, FloatCol [100]%float);
   (city_cagr_col, FloatCol [0.05]%float);
   (loc_cagr_col, FloatCol [0.10]%float);
   ("chosen_cagr", FloatCol [7]%float)].

Definition clash_out : dataframe :=
  [(price_col, FloatCol [100]%float);
   (city_cagr_col, FloatCol [0.05]%float);
   (loc_cagr_col, FloatCol [0.10]%float);
   ("chosen_cagr", FloatCol [0.10]%float);
   ("cagr_source", ObjCol ["locality"]);
   ("Price_per_SQFT_plus_1yr", FloatCol [110]%float);
   ("Price_per_SQFT_plus_2yr", FloatCol [121]%float);
   ("Price_per_SQFT_plus_3yr", FloatCol [133.1]%float)].

(** A table without the price column, stored at the input path. *)
Definition no_price_df : dataframe :=
  [(city_cagr_col, FloatCol [0.05]%float);
   (loc_cagr_col, FloatCol [0.10]%float)].

Definition no_price_fs : gmap string (list (string * column)) :=
  {[ input_file := no_price_df ]}.

(** A row whose locality rate is negative: the price falls by five percent
    a year. *)
Definition decline_df : dataframe :=
  [(price_col, FloatCol [100]%float);
   (city_cagr_col, FloatCol [0.05]%float);
   (loc_cagr_col, FloatCol [-0.05]%float)].

Definition decline_out : dataframe :=
  decline_df ++
  [("chosen_cagr", FloatCol [-0.05]%float);
   ("cagr_source", ObjCol ["locality"]);
   ("Price_per_SQFT_plus_1yr", FloatCol [95]%float);
   ("Price_per_SQFT_plus_2yr", FloatCol [90.25]%float);
   ("Price_per_SQFT_plus_3yr", FloatCol [85.74]%float)].

(** A file system without the input file. *)
Definition no_input_fs : gmap string (list (string * column)) :=
  {[ output_file := sample_df ]}.

(** ** Proof automation *)

(** The names the script reads and the names it writes are distinct. *)
Ltac names_ne :=
  unfold price_col, city_cagr_col, loc_cagr_col; discriminate.

(** Membership in a list that is written out. *)
Ltac in_list :=
  repeat first [apply list_elem_of_here | apply list_elem_of_further].

(** * Properties and proofs

    From here on the platform is fixed, and with it its [pow]. *)
Section script.
Context {libm : F64.Libm}.

(** ** Properties of a run, as the specification words them *)

(** Every forecast of every row is present exactly when the price and the
    chosen rate of the row are. *)
Definition present_iff_operands_present (df out : dataframe) : Prop :=
  ∀ (i : nat) (p g f : float) (k : positive),
    float_at df price_col i = Some p →
    float_at out "chosen_cagr" i = Some g →
    (k ≤ 3)%positive →
    float_at out (forecast_col k) i = Some f →
    F64.notna f = true ↔ F64.notna p = true ∧ F64.notna g = true.

(** The table has the three required columns, as float64 columns. *)
Definition has_required_columns (df : dataframe) : Prop :=
  ∃ loc city price,
    getitem df loc_cagr_col = Some (FloatCol loc) ∧
    getitem df city_cagr_col = Some (FloatCol city) ∧
    getitem df price_col = Some (FloatCol price).

(** The output is the input, every column in place and unchanged, followed
    by exactly the five derived columns, and it has the rows of the input. *)
Definition appends_five_columns (df out : dataframe) : Prop :=
  (∃ c s y1 y2 y3,
     out = df ++ [("chosen_cagr", FloatCol c); ("cagr_source", ObjCol s);
                  ("Price_per_SQFT_plus_1yr", FloatCol y1);
                  ("Price_per_SQFT_plus_2yr", FloatCol y2);
                  ("Price_per_SQFT_plus_3yr", FloatCol y3)]) ∧
  ∀ n, nrows df n → nrows out n.

(** On every row with a present non-negative price and a present
    non-negative chosen rate the forecasts do not decrease with the horizon. *)
Definition forecasts_nondecreasing (df out : dataframe) : Prop :=
  ∀ (i : nat) (p g f1 f2 f3 : float),
    float_at df price_col i = Some p →
    float_at out "chosen_cagr" i = Some g →
    (0 <=? p)%float = true →
    (0 <=? g)%float = true →
    float_at out (forecast_col 1) i = Some f1 →
    float_at out (forecast_col 2) i = Some f2 →
    float_at out (forecast_col 3) i = Some f3 →
    (f1 <=? f2)%float = true ∧ (f2 <=? f3)%float = true.

(** ** Rounding, on encoded mantissas *)

Section rounding_defs.
Local Open Scope Z_scope.

(** A truncated mantissa together with its round and sticky bits, as one
    number: four times the mantissa plus the two bits. *)
Definition enc (mrs : shr_record) : Z :=
  (4 * shr_m mrs + (if shr_r mrs then 2 else 0) + (if shr_s mrs then 1 else 0))%Z.

(** The position of a location inside its unit interval. *)
Definition loc_code (l : location) : Z :=
  match l with
  | loc_Exact => 0
  | loc_Inexact Lt => 1
  | loc_Inexact Eq => 2
  | loc_Inexact Gt => 3
  end.

(** Shifting an encoded mantissa right by [n] bits, the lost bits kept as
    sticky. *)
Definition sticky_shift (n c : Z) : Z :=
  (2 * (c / 2 ^ (n + 1)) + (if (c mod 2 ^ (n + 1) =? 0) then 0 else 1))%Z.

(** Round to nearest, ties to even, on an encoded mantissa. *)
Definition rne (c : Z) : Z :=
  let m := (c / 4)%Z in
  if (c mod 4 <=? 1)%Z then m
  else if (c mod 4 =? 2)%Z then (if Z.even m then m else m + 1)%Z
  else (m + 1)%Z.

(** The result of rounding for a mantissa [m] at exponent [e]: zero, a
    finite value, or infinity when the exponent is out of range. *)
Definition finite_or_inf (s : bool) (m e : Z) : spec_float :=
  match m with
  | Z0 => S754_zero s
  | Zpos p => if e <=? emax - prec then S754_finite s p e else S754_infinity s
  | Zneg _ => S754_nan
  end.

(** Binary64 rounding of an encoded mantissa [c] at exponent [e]: shift to
    the exponent of the format, round to nearest even, and renormalise when
    the mantissa has grown to 2^53. *)
Definition round_enc (s : bool) (c e : Z) : spec_float :=
  let n := fexp prec emax (Zdigits2 (c / 4) + e) - e in
  let r := rne (sticky_shift n c) in
  if r =? 2 ^ 53 then finite_or_inf s (2 ^ 52) (e + n + 1)
  else finite_or_inf s r (e + n).

(** The mantissa and exponent [round_enc] ends with. *)
Definition renorm (r e : Z) : Z * Z :=
  if r =? 2 ^ 53 then (2 ^ 52, e + 1) else (r, e).

(** The order of the dyadic numbers [m1 * 2^e1] and [m2 * 2^e2]. *)
Definition dyadic_le (m1 e1 m2 e2 : Z) : Prop :=
  m1 * 2 ^ (e1 - Z.min e1 e2) ≤ m2 * 2 ^ (e2 - Z.min e1 e2).

(** Zero of either sign, a positive finite value or plus infinity. *)
Definition SFnonneg (x : spec_float) : bool :=
  match x with
  | S754_zero _ | S754_finite false _ _ | S754_infinity false => true
  | _ => false
  end.

(** An integer that orders the non-negative binary64 values as the
    comparison does: the exponent first, then the mantissa. *)
Definition order_key (x : spec_float) : Z :=
  match x with
  | S754_finite _ m e => (e + 1075) * 2 ^ 53 + Z.pos m
  | S754_infinity _ => 2 ^ 70
  | _ => 0
  end.

(** The quotient [N / D] as an encoded mantissa: four times the integer
    quotient plus the position of the remainder against half the divisor. *)
Definition encdiv (N D : Z) : Z :=
  4 * (N / D) +
  (if N mod D =? 0 then 0
   else match 2 * (N mod D) ?= D with Lt => 1 | Eq => 2 | Gt => 3 end).

(** The binary64 value one. *)
Definition SFone : spec_float := S754_finite false 4503599627370496 (-52).

(** The exponent at which [SFdiv] computes the quotient of the mantissas. *)
Definition div_exp (m1 e1 m2 e2 : Z) : Z :=
  Z.min (fexp prec emax (Zdigits2 m1 + e1 - (Zdigits2 m2 + e2))) (e1 - e2).

(** The platform's [pow] is faithful at the exponent [k]: for a positive
    finite base [x = m * 2^e] its result lies between the binary64 values
    that enclose the exact power [m^k * 2^(e*k)], that is, every binary64
    value not above the exact power is not above the result and every one
    not below it is not below the result (an error of less than one unit in
    the last place); and the result is +inf when the exact power is 2^1024
    or more (overflow). *)
Definition pow_faithful (k : positive) : Prop :=
  ∀ (x : float) (m : positive) (e : Z),
    Prim2SF x = S754_finite false m e →
    (∀ (b : float) (mb : positive) (eb : Z),
       Prim2SF b = S754_finite false mb eb →
       (dyadic_le (Z.pos mb) eb (Z.pos m ^ Z.pos k) (e * Z.pos k) →
        (b <=? F64.pow x k)%float = true) ∧
       (dyadic_le (Z.pos m ^ Z.pos k) (e * Z.pos k) (Z.pos mb) eb →
        (F64.pow x k <=? b)%float = true)) ∧
    (dyadic_le 1 1024 (Z.pos m ^ Z.pos k) (e * Z.pos k) →
     F64.pow x k = infinity).

End rounding_defs.

(** ** Facts about binary64 rounding *)

Section rounding.
Variables prec emax : Z.

Lemma iter_pos_invariant {A : Type} (P : A → Prop) (f : A → A) (n : positive) (x : A) :
  (∀ y, P y → P (f y)) → P x → P (SpecFloat.iter_pos f n x).
Proof.
  intros Hf. revert x.
  induction n as [n IH|n IH|]; intros x Hx; simpl; auto.
Qed.

Lemma shr_1_nonneg (mrs : shr_record) :
  (0 ≤ shr_m mrs)%Z → (0 ≤ shr_m (shr_1 mrs))%Z.
Proof.
  destruct mrs as [[|[p|p|]|p] r s]; simpl; lia.
Qed.

Lemma shr_nonneg (mrs : shr_record) (e n : Z) :
  (0 ≤ shr_m mrs)%Z → (0 ≤ shr_m (shr mrs e n).1)%Z.
Proof.
  intros Hm. destruct n as [|p|p]; simpl; auto.
  apply (iter_pos_invariant (λ r, (0 ≤ shr_m r)%Z)); auto using shr_1_nonneg.
Qed.

Lemma shr_record_of_loc_m (m : Z) (l : location) :
  shr_m (shr_record_of_loc m l) = m.
Proof. by destruct l as [|[]]. Qed.

Lemma shr_fexp_nonneg (m e : Z) (l : location) :
  (0 ≤ m)%Z → (0 ≤ shr_m (shr_fexp prec emax m e l).1)%Z.
Proof.
  intros Hm. unfold shr_fexp. apply shr_nonneg.
  by rewrite shr_record_of_loc_m.
Qed.

Lemma round_nearest_even_nonneg (m : Z) (l : location) :
  (0 ≤ m)%Z → (0 ≤ round_nearest_even m l)%Z.
Proof.
  intros Hm. destruct l as [|[]]; simpl; try lia.
  destruct (Z.even m); lia.
Qed.

(** Rounding a non-negative mantissa never produces NaN. *)
Lemma binary_round_aux_not_nan (s : bool) (m e : Z) (l : location) :
  (0 ≤ m)%Z → binary_round_aux prec emax s m e l ≠ S754_nan.
Proof.
  intros Hm. unfold binary_round_aux.
  pose proof (shr_fexp_nonneg m e l Hm) as H1.
  destruct (shr_fexp prec emax m e l) as [mrs' e'] eqn:E1; simpl in H1.
  pose proof (shr_fexp_nonneg _ e' loc_Exact
    (round_nearest_even_nonneg _ (loc_of_shr_record mrs') H1)) as H2.
  destruct (shr_fexp prec emax _ e' loc_Exact) as [mrs'' e''] eqn:E2.
  simpl in H2.
  destruct (shr_m mrs'') as [|p|p]; try done; try lia.
  by destruct (e'' <=? emax - prec)%Z.
Qed.

Lemma binary_round_not_nan (s : bool) (m : positive) (e : Z) :
  binary_round prec emax s m e ≠ S754_nan.
Proof.
  unfold binary_round.
  destruct (shl_align m e _) as [mz ez].
  by apply binary_round_aux_not_nan.
Qed.

Lemma binary_normalize_not_nan (m e : Z) (s : bool) :
  binary_normalize prec emax m e s ≠ S754_nan.
Proof.
  destruct m; simpl; auto using binary_round_not_nan.
Qed.
End rounding.

(** ** Multiplying by one is exact *)

Lemma digits2_pos_shift52 (m : positive) :
  Z.pos (digits2_pos (4503599627370496 * m)) = (Z.pos (digits2_pos m) + 52)%Z.
Proof.
  cbv [Pos.mul]. cbn [digits2_pos]. rewrite !Pos2Z.inj_succ. lia.
Qed.

Lemma shr_shift52 (m : positive) (e : Z) :
  shr (Build_shr_record (Z.pos (4503599627370496 * m)) false false) e 52 =
  (Build_shr_record (Z.pos m) false false, (e + 52)%Z).
Proof. reflexivity. Qed.

(** The product of a binary64 value [m * 2^e] with [2^52 * 2^-52] has the
    mantissa [m] shifted left by 52 bits at the exponent [e - 52]; rounding
    shifts it back without loss. *)
Lemma SFmul_one_r (x : spec_float) :
  valid_binary x = true →
  SF64mul x (S754_finite false 4503599627370496 (-52)) = x.
Proof.
  unfold SF64mul. destruct x as [s|s| |s m e]; simpl; intros Hv;
    try done; try by rewrite xorb_false_r.
  apply andb_prop in Hv as [Hc He].
  unfold canonical_mantissa in Hc. apply Z.eqb_eq in Hc. apply Z.leb_le in He.
  rewrite xorb_false_r, (Pos.mul_comm m).
  unfold binary_round_aux, shr_fexp.
  unfold Zdigits2 at 1. rewrite digits2_pos_shift52.
  replace (Z.pos (digits2_pos m) + 52 + (e + -52))%Z
    with (Z.pos (digits2_pos m) + e)%Z by lia.
  rewrite Hc.
  replace (e - (e + -52))%Z with 52%Z by lia.
  unfold shr_record_of_loc at 1. rewrite shr_shift52.
  replace (e + -52 + 52)%Z with e by lia.
  cbn [shr_m loc_of_shr_record round_nearest_even Zdigits2 shr_record_of_loc].
  rewrite Hc, Z.sub_diag. cbn [shr shr_m].
  by apply Z.leb_le in He as ->.
Qed.

(** ** Comparison *)

Lemma SFcompare_refl (x : spec_float) :
  SFis_nan x = false → SFcompare x x = Some Eq.
Proof.
  destruct x as [s|s| |s m e]; try done; intros _; simpl.
  - by destruct s.
  - rewrite Z.compare_refl, Pos.compare_cont_refl. by destruct s.
Qed.

(** ** Binary64 rounding is monotone

    [binary_round_aux] truncates a mantissa with [shr], which keeps a round
    bit and a sticky bit, and then rounds to nearest even.  Reading the
    truncated mantissa and its two bits as one integer ([enc]) turns the
    truncation into [sticky_shift] and the rounding into [rne], two monotone
    functions on the integers.  Rounding is therefore monotone for inputs
    given at one exponent ([round_enc_mono]); it does not depend on the
    number of bits an input is written with ([round_enc_refine]); so it is
    monotone in the number that is rounded ([round_exact_mono]).  Sums,
    differences, products, powers and quotients of non-negative binary64
    values follow. *)

Section rounding_order.
Local Open Scope Z_scope.


Lemma fexp_eq (e : Z) : fexp prec emax e = Z.max (e - 53) (-1074).
Proof. reflexivity. Qed.

Lemma digits2_pos_bounds (m : positive) :
  (2 ^ (Z.pos (digits2_pos m) - 1) ≤ Z.pos m < 2 ^ Z.pos (digits2_pos m))%Z.
Proof.
  induction m as [m IH|m IH|]; simpl digits2_pos.
  - rewrite Pos2Z.inj_succ, (Pos2Z.inj_xI m).
    replace (Z.succ (Z.pos (digits2_pos m)) - 1)%Z
      with (Z.succ (Z.pos (digits2_pos m) - 1)) by lia.
    rewrite !Z.pow_succ_r by lia.
    revert IH. generalize (2 ^ (Z.pos (digits2_pos m) - 1))%Z (2 ^ Z.pos (digits2_pos m))%Z. lia.
  - rewrite Pos2Z.inj_succ, (Pos2Z.inj_xO m).
    replace (Z.succ (Z.pos (digits2_pos m)) - 1)%Z
      with (Z.succ (Z.pos (digits2_pos m) - 1)) by lia.
    rewrite !Z.pow_succ_r by lia.
    revert IH. generalize (2 ^ (Z.pos (digits2_pos m) - 1))%Z (2 ^ Z.pos (digits2_pos m))%Z. lia.
  - simpl. lia.
Qed.

Lemma Zdigits2_nonneg (m : Z) : (0 ≤ Zdigits2 m)%Z.
Proof. destruct m; simpl; lia. Qed.

Lemma Zdigits2_bounds (m : Z) :
  (0 < m)%Z → (2 ^ (Zdigits2 m - 1) ≤ m < 2 ^ Zdigits2 m)%Z.
Proof. destruct m; try lia. intros _. apply digits2_pos_bounds. Qed.

(** The number of digits is determined by the enclosing powers of two. *)
Lemma Zdigits2_unique (m d : Z) :
  (2 ^ (d - 1) ≤ m < 2 ^ d)%Z → (0 < m)%Z → Zdigits2 m = d.
Proof.
  intros [Hlo Hhi] Hm.
  pose proof (Zdigits2_bounds m Hm) as [Hlo' Hhi'].
  pose proof (Zdigits2_nonneg m) as Hd.
  assert (0 ≤ d)%Z as Hd0.
  { destruct (decide (0 ≤ d)%Z); [done|]. rewrite Z.pow_neg_r in Hhi; lia. }
  destruct (Z.lt_trichotomy (Zdigits2 m) d) as [Hlt|[Heq|Hgt]]; [|done|].
  - assert (2 ^ Zdigits2 m ≤ 2 ^ (d - 1))%Z by (apply Z.pow_le_mono_r; lia). lia.
  - assert (2 ^ d ≤ 2 ^ (Zdigits2 m - 1))%Z by (apply Z.pow_le_mono_r; lia). lia.
Qed.

Lemma Zdigits2_le_mono (m1 m2 : Z) :
  (0 ≤ m1 ≤ m2)%Z → (Zdigits2 m1 ≤ Zdigits2 m2)%Z.
Proof.
  intros [H1 H12].
  destruct (decide (m1 = 0)) as [->|Hne]; [apply Zdigits2_nonneg|].
  pose proof (Zdigits2_bounds m1 ltac:(lia)) as [Hlo1 _].
  pose proof (Zdigits2_bounds m2 ltac:(lia)) as [_ Hhi2].
  destruct (decide (Zdigits2 m1 ≤ Zdigits2 m2)%Z); [done|].
  assert (2 ^ Zdigits2 m2 ≤ 2 ^ (Zdigits2 m1 - 1))%Z
    by (apply Z.pow_le_mono_r; lia).
  lia.
Qed.

(** *** Encoded records *)

Lemma enc_shr_record_of_loc (m : Z) (l : location) :
  enc (shr_record_of_loc m l) = 4 * m + loc_code l.
Proof. destruct l as [|[]]; unfold enc; simpl; lia. Qed.

Lemma loc_code_range (l : location) : 0 ≤ loc_code l ≤ 3.
Proof. destruct l as [|[]]; simpl; lia. Qed.

Lemma enc_range (mrs : shr_record) :
  4 * shr_m mrs ≤ enc mrs ≤ 4 * shr_m mrs + 3.
Proof. unfold enc. destruct (shr_r mrs), (shr_s mrs); lia. Qed.

Lemma enc_shr_m (mrs : shr_record) : shr_m mrs = enc mrs / 4.
Proof. pose proof (enc_range mrs). Z.div_mod_to_equations. lia. Qed.

Lemma sticky_shift_0 (c : Z) : sticky_shift 0 c = c.
Proof.
  unfold sticky_shift. change (2 ^ (0 + 1)) with 2.
  destruct (Z.eqb_spec (c mod 2) 0); Z.div_mod_to_equations; lia.
Qed.

Lemma sticky_shift_1 (c : Z) :
  sticky_shift 1 c = 2 * (c / 4) + (if c mod 4 =? 0 then 0 else 1).
Proof. reflexivity. Qed.

Lemma enc_shr_1 (mrs : shr_record) :
  0 ≤ shr_m mrs → enc (shr_1 mrs) = sticky_shift 1 (enc mrs).
Proof.
  rewrite sticky_shift_1.
  destruct mrs as [[|[p|p|]|p] [] []]; unfold enc; simpl shr_1; simpl shr_m;
    simpl shr_r; simpl shr_s; intros Hm; try lia; try reflexivity;
    rewrite ?(Pos2Z.inj_xI p), ?(Pos2Z.inj_xO p);
    match goal with |- context [(?c mod 4 =? 0)] =>
      destruct (Z.eqb_spec (c mod 4) 0) end; Z.div_mod_to_equations; lia.
Qed.

Lemma sticky_shift_nonneg (n c : Z) : 0 ≤ n → 0 ≤ c → 0 ≤ sticky_shift n c.
Proof.
  intros Hn Hc. unfold sticky_shift.
  assert (0 ≤ c / 2 ^ (n + 1)) by (apply Z.div_pos; lia).
  destruct (_ =? 0); lia.
Qed.

(** Shifting by [n] and then by [k] is shifting by [n + k]. *)
Lemma sticky_shift_add (n k c : Z) :
  0 ≤ n → 0 ≤ k → 0 ≤ c →
  sticky_shift k (sticky_shift n c) = sticky_shift (n + k) c.
Proof.
  intros Hn Hk Hc. unfold sticky_shift.
  replace (n + k + 1) with ((n + 1) + k) by lia.
  rewrite (Z.pow_add_r 2 (n + 1) k) by lia.
  assert (0 < 2 ^ (n + 1)) as Hp1 by (apply Z.pow_pos_nonneg; lia).
  assert (0 < 2 ^ k) as Hp2 by (apply Z.pow_pos_nonneg; lia).
  rewrite (Z.pow_add_r 2 k 1), Z.pow_1_r by lia.
  set (a := 2 ^ (n + 1)) in *. set (b := 2 ^ k) in *.
  set (t := if c mod a =? 0 then 0 else 1).
  assert (0 ≤ t ≤ 1) as Ht by (subst t; destruct (_ =? 0); lia).
  assert (t = 0 ↔ c mod a = 0) as Ht0
    by (subst t; destruct (Z.eqb_spec (c mod a) 0); lia).
  pose proof (Z.div_mod c a ltac:(lia)) as Hc1.
  pose proof (Z.mod_pos_bound c a Hp1) as Hc2.
  set (q := c / a) in *. set (r := c mod a) in *.
  assert (0 ≤ q) as Hq by (subst q; apply Z.div_pos; lia).
  pose proof (Z.div_mod q b ltac:(lia)) as Hq1.
  pose proof (Z.mod_pos_bound q b Hp2) as Hq2.
  set (q' := q / b) in *. set (r' := q mod b) in *.
  assert ((2 * q + t) / (b * 2) = q') as ->.
  { symmetry. apply (Z.div_unique _ _ _ (2 * r' + t)); nia. }
  assert ((2 * q + t) mod (b * 2) = 2 * r' + t) as ->.
  { symmetry. apply (Z.mod_unique _ _ q'); nia. }
  assert (c / (a * b) = q') as ->.
  { symmetry. apply (Z.div_unique _ _ _ (a * r' + r)); nia. }
  assert (c mod (a * b) = a * r' + r) as ->.
  { symmetry. apply (Z.mod_unique _ _ q'); nia. }
  destruct (Z.eqb_spec (2 * r' + t) 0), (Z.eqb_spec (a * r' + r) 0); nia.
Qed.

Lemma enc_iter_shr_1 (p : positive) (mrs : shr_record) :
  0 ≤ shr_m mrs →
  0 ≤ shr_m (SpecFloat.iter_pos shr_1 p mrs) ∧
  enc (SpecFloat.iter_pos shr_1 p mrs) = sticky_shift (Z.pos p) (enc mrs).
Proof.
  revert mrs.
  assert (∀ mrs, 0 ≤ shr_m mrs → 0 ≤ enc mrs) as Henc.
  { intros mrs H. pose proof (enc_range mrs). lia. }
  induction p as [p IH|p IH|]; intros mrs Hm; simpl.
  - destruct (IH (shr_1 mrs) (shr_1_nonneg _ Hm)) as [H1 E1].
    destruct (IH _ H1) as [H2 E2]. split; [done|].
    rewrite E2, E1, enc_shr_1 by done.
    pose proof (Henc _ Hm) as Hc.
    pose proof (sticky_shift_nonneg 1 _ ltac:(lia) Hc) as Hc1.
    rewrite !sticky_shift_add by lia.
    f_equal. lia.
  - destruct (IH mrs Hm) as [H1 E1].
    destruct (IH _ H1) as [H2 E2]. split; [done|].
    rewrite E2, E1.
    pose proof (Henc _ Hm) as Hc.
    rewrite !sticky_shift_add by lia.
    f_equal. lia.
  - split; [by apply shr_1_nonneg|by apply enc_shr_1].
Qed.

(** The first component of [shr] on encodings, for a shift that is not
    negative. *)
Lemma enc_shr (mrs : shr_record) (e n : Z) :
  0 ≤ shr_m mrs → 0 ≤ n →
  enc (shr mrs e n).1 = sticky_shift n (enc mrs) ∧ (shr mrs e n).2 = e + n.
Proof.
  intros Hm Hn. destruct n as [|p|p]; simpl.
  - rewrite sticky_shift_0. split; try done; lia.
  - by destruct (enc_iter_shr_1 p mrs).
  - lia.
Qed.

Lemma shr_no_shift (mrs : shr_record) (e n : Z) :
  n ≤ 0 → shr mrs e n = (mrs, e).
Proof. by destruct n. Qed.

Lemma rne_round_nearest_even (mrs : shr_record) :
  round_nearest_even (shr_m mrs) (loc_of_shr_record mrs) = rne (enc mrs).
Proof.
  unfold rne. rewrite <- enc_shr_m.
  destruct mrs as [m [] []]; unfold enc; simpl;
    match goal with |- context [(?c mod 4 <=? 1)] =>
      destruct (Z.leb_spec (c mod 4) 1) end;
    try match goal with |- context [(?c mod 4 =? 2)] =>
      destruct (Z.eqb_spec (c mod 4) 2) end;
    try done; Z.div_mod_to_equations; lia.
Qed.

Lemma sticky_shift_mono (n c1 c2 : Z) :
  0 ≤ n → c1 ≤ c2 → sticky_shift n c1 ≤ sticky_shift n c2.
Proof.
  intros Hn Hc. unfold sticky_shift.
  assert (0 < 2 ^ (n + 1)) as Hp by (apply Z.pow_pos_nonneg; lia).
  set (a := 2 ^ (n + 1)) in *.
  pose proof (Z.div_mod c1 a ltac:(lia)). pose proof (Z.mod_pos_bound c1 a Hp).
  pose proof (Z.div_mod c2 a ltac:(lia)). pose proof (Z.mod_pos_bound c2 a Hp).
  destruct (Z.eqb_spec (c1 mod a) 0), (Z.eqb_spec (c2 mod a) 0); nia.
Qed.

Lemma rne_mono (c1 c2 : Z) : c1 ≤ c2 → rne c1 ≤ rne c2.
Proof.
  intros Hc. unfold rne. rewrite !Zeven_mod.
  destruct (Z.leb_spec (c1 mod 4) 1), (Z.leb_spec (c2 mod 4) 1),
    (Z.eqb_spec (c1 mod 4) 2), (Z.eqb_spec (c2 mod 4) 2),
    (Z.eqb_spec ((c1 / 4) mod 2) 0), (Z.eqb_spec ((c2 / 4) mod 2) 0);
    Z.div_mod_to_equations; lia.
Qed.

Lemma pow2_pos (n : Z) : 0 ≤ n → 0 < 2 ^ n.
Proof. intros. apply Z.pow_pos_nonneg; lia. Qed.

(** A mantissa with at most [53 + n] bits shifts and rounds to at most
    2^53. *)
Lemma rne_sticky_shift_bound (n c : Z) :
  0 ≤ n → 0 ≤ c → c / 4 < 2 ^ (53 + n) →
  0 ≤ rne (sticky_shift n c) ≤ 2 ^ 53.
Proof.
  intros Hn Hc Hm.
  assert (0 ≤ sticky_shift n c < 2 ^ 55) as [Hlo Hhi].
  { split; [by apply sticky_shift_nonneg|].
    unfold sticky_shift.
    assert (c / 2 ^ (n + 1) < 2 ^ 54).
    { apply Z.div_lt_upper_bound; [by apply pow2_pos; lia|].
      rewrite <- Z.pow_add_r by lia.
      replace (n + 1 + 54) with (2 + (53 + n)) by lia.
      rewrite Z.pow_add_r by lia. change (2 ^ 2) with 4.
      Z.div_mod_to_equations. lia. }
    destruct (_ =? 0); lia. }
  unfold rne. generalize dependent (sticky_shift n c). intros x Hx0 Hx.
  change (2 ^ 55) with 36028797018963968.
  change (2 ^ 53) with 9007199254740992.
  destruct (Z.leb_spec (x mod 4) 1), (Z.eqb_spec (x mod 4) 2), (Z.even (x / 4));
    Z.div_mod_to_equations; lia.
Qed.

Lemma Zdigits2_le (r k : Z) : 0 ≤ r < 2 ^ k → 0 ≤ k → Zdigits2 r ≤ k.
Proof.
  intros [Hr0 Hr] Hk.
  destruct (decide (r = 0)) as [->|Hne]; [done|].
  pose proof (Zdigits2_bounds r ltac:(lia)) as [Hlo _].
  destruct (decide (Zdigits2 r ≤ k)); [done|].
  assert (2 ^ k ≤ 2 ^ (Zdigits2 r - 1)) by (apply Z.pow_le_mono_r; lia). lia.
Qed.

Lemma fexp_ge_emin (d : Z) : -1074 ≤ fexp prec emax d.
Proof. rewrite fexp_eq. lia. Qed.

(** [binary_round_aux] on an input whose exponent is not above the exponent
    of the format is [round_enc] of the encoded input. *)
Lemma binary_round_aux_enc (s : bool) (m e : Z) (l : location) :
  0 ≤ m → e ≤ fexp prec emax (Zdigits2 m + e) →
  binary_round_aux prec emax s m e l = round_enc s (4 * m + loc_code l) e.
Proof.
  intros Hm Hal.
  pose proof (loc_code_range l) as Hl.
  assert ((4 * m + loc_code l) / 4 = m) as Hdiv by (Z.div_mod_to_equations; lia).
  unfold round_enc. rewrite Hdiv.
  set (n := fexp prec emax (Zdigits2 m + e) - e).
  assert (0 ≤ n) as Hn by (subst n; lia).
  unfold binary_round_aux, shr_fexp. fold n.
  assert (0 ≤ shr_m (shr_record_of_loc m l)) as Hm0
    by by rewrite shr_record_of_loc_m.
  destruct (enc_shr (shr_record_of_loc m l) e n Hm0 Hn) as [E1 E2].
  pose proof (shr_nonneg (shr_record_of_loc m l) e n Hm0) as Hm1.
  destruct (shr (shr_record_of_loc m l) e n) as [mrs' e']. simpl in E1, E2, Hm1.
  rewrite enc_shr_record_of_loc in E1.
  rewrite rne_round_nearest_even, E1. subst e'.
  set (r := rne (sticky_shift n (4 * m + loc_code l))).
  assert (0 ≤ r ≤ 2 ^ 53) as Hr.
  { apply rne_sticky_shift_bound; [done|lia|]. rewrite Hdiv.
    destruct (decide (m = 0)) as [->|Hne]; [by apply pow2_pos; lia|].
    pose proof (Zdigits2_bounds m ltac:(lia)) as [_ Hhi].
    eapply Z.lt_le_trans; [exact Hhi|].
    apply Z.pow_le_mono_r; [lia|]. subst n. rewrite fexp_eq. lia. }
  assert (-1074 ≤ e + n) as He' by (subst n; pose proof (fexp_ge_emin (Zdigits2 m + e)); lia).
  destruct (Z.eqb_spec r (2 ^ 53)) as [Heq|Hne].
  - rewrite Heq. change (Zdigits2 (2 ^ 53)) with 54.
    rewrite fexp_eq.
    replace (Z.max (54 + (e + n) - 53) (-1074) - (e + n)) with 1 by lia.
    reflexivity.
  - assert (Zdigits2 r ≤ 53) as Hd by (apply Zdigits2_le; lia).
    rewrite shr_no_shift by (rewrite fexp_eq; lia).
    by rewrite shr_record_of_loc_m.
Qed.

Lemma sticky_shift_div4 (n c : Z) :
  0 ≤ n → 0 ≤ c → sticky_shift n c / 4 = c / 4 / 2 ^ n.
Proof.
  intros Hn Hc. unfold sticky_shift.
  rewrite Z.div_div by (try apply pow2_pos; lia).
  replace (4 * 2 ^ n) with (2 ^ (n + 1) * 2)
    by (rewrite Z.pow_add_r by lia; lia).
  rewrite <- Z.div_div by (try apply pow2_pos; lia).
  generalize (c / 2 ^ (n + 1)). intros q.
  destruct (_ =? 0); Z.div_mod_to_equations; lia.
Qed.

Lemma rne_lower (c : Z) : c / 4 ≤ rne c.
Proof.
  unfold rne.
  destruct (Z.leb_spec (c mod 4) 1), (Z.eqb_spec (c mod 4) 2), (Z.even (c / 4)); lia.
Qed.

Lemma SFleb_finite_or_inf (m1 e1 m2 e2 : Z) :
  0 ≤ m1 → 0 ≤ m2 →
  m1 = 0 ∨ (0 < m2 ∧ (e1 < e2 ∨ (e1 = e2 ∧ m1 ≤ m2))) →
  SFleb (finite_or_inf false m1 e1) (finite_or_inf false m2 e2) = true.
Proof.
  intros H1 H2 H.
  destruct m1 as [|p1|p1]; [|clear H1|lia].
  { destruct m2 as [|p2|p2]; [done| |lia]. simpl.
    by destruct (e2 <=? emax - prec). }
  destruct H as [H|(Hm2 & H)]; [lia|].
  destruct m2 as [|p2|p2]; try lia. simpl.
  destruct (Z.leb_spec e1 (emax - prec)), (Z.leb_spec e2 (emax - prec));
    try done; [|lia].
  unfold SFleb. simpl.
  destruct H as [Hlt|[-> Hle]].
  - by apply Z.compare_lt_iff in Hlt as ->.
  - rewrite Z.compare_refl.
    change (PosDef.Pos.compare_cont Eq p1 p2) with (p1 ?= p2)%positive.
    destruct (Pos.compare_spec p1 p2); try done; lia.
Qed.

Lemma round_enc_renorm (s : bool) (c e : Z) :
  round_enc s c e =
  let n := fexp prec emax (Zdigits2 (c / 4) + e) - e in
  let '(m', e') := renorm (rne (sticky_shift n c)) (e + n) in
  finite_or_inf s m' e'.
Proof. unfold round_enc, renorm. simpl. by destruct (_ =? 2 ^ 53). Qed.

(** Rounding is monotone in the encoded mantissa at one input exponent. *)
Lemma round_enc_mono (c1 c2 e : Z) :
  0 ≤ c1 ≤ c2 →
  e ≤ fexp prec emax (Zdigits2 (c1 / 4) + e) →
  SFleb (round_enc false c1 e) (round_enc false c2 e) = true.
Proof.
  intros [Hc1 Hc12] Hal1.
  assert (0 ≤ c1 / 4 ≤ c2 / 4) as Hm by (Z.div_mod_to_equations; lia).
  pose proof (Zdigits2_le_mono _ _ Hm) as Hd.
  pose proof (Zdigits2_nonneg (c1 / 4)) as Hd1.
  rewrite !round_enc_renorm. simpl.
  set (n1 := fexp prec emax (Zdigits2 (c1 / 4) + e) - e).
  set (n2 := fexp prec emax (Zdigits2 (c2 / 4) + e) - e).
  assert (0 ≤ n1 ≤ n2) as [Hn1 Hn12].
  { subst n1 n2. rewrite !fexp_eq in *. lia. }
  assert (∀ c n, 0 ≤ c → Zdigits2 (c / 4) - 53 ≤ n → 0 ≤ n →
            0 ≤ rne (sticky_shift n c) ≤ 2 ^ 53) as Hbound.
  { intros c n Hc Hdn Hn. apply rne_sticky_shift_bound; [done..|].
    assert (0 ≤ c / 4) as Hc4 by (apply Z.div_pos; lia).
    destruct (decide (c / 4 = 0)) as [E|Hne]; [rewrite E; apply pow2_pos; lia|].
    pose proof (Zdigits2_bounds (c / 4) ltac:(lia)) as [_ Hhi].
    eapply Z.lt_le_trans; [exact Hhi|].
    apply Z.pow_le_mono_r; lia. }
  assert (Zdigits2 (c1 / 4) - 53 ≤ n1 ∧ Zdigits2 (c2 / 4) - 53 ≤ n2) as [Hdn1 Hdn2]
    by (subst n1 n2; rewrite !fexp_eq; lia).
  pose proof (Hbound c1 n1 Hc1 Hdn1 Hn1) as Hr1.
  pose proof (Hbound c2 n2 ltac:(lia) Hdn2 ltac:(lia)) as Hr2.
  set (r1 := rne (sticky_shift n1 c1)) in *.
  set (r2 := rne (sticky_shift n2 c2)) in *.
  change (2 ^ 53) with 9007199254740992 in Hr1, Hr2.
  destruct (decide (n1 = n2)) as [Heq|Hne].
  - assert (r1 ≤ r2) as Hr12.
    { subst r1 r2. rewrite <- Heq. by apply rne_mono, sticky_shift_mono. }
    rewrite <- Heq. unfold renorm. change (2 ^ 53) with 9007199254740992.
    change (2 ^ 52) with 4503599627370496.
    destruct (Z.eqb_spec r1 9007199254740992), (Z.eqb_spec r2 9007199254740992);
      apply SFleb_finite_or_inf; lia.
  - assert (2 ^ 52 ≤ r2) as Hr2lo.
    { assert (n2 = Zdigits2 (c2 / 4) - 53) as Hn2
        by (subst n1 n2; rewrite !fexp_eq in *; lia).
      assert (0 < c2 / 4) as Hm2.
      { destruct (decide (c2 / 4 = 0)) as [E|]; [|lia].
        rewrite E in Hn2. simpl in Hn2. lia. }
      pose proof (Zdigits2_bounds _ Hm2) as [Hlo _].
      subst r2. etrans; [|apply rne_lower].
      rewrite sticky_shift_div4 by lia.
      apply Z.div_le_lower_bound; [by apply pow2_pos; lia|].
      rewrite <- Z.pow_add_r by lia.
      replace (n2 + 52) with (Zdigits2 (c2 / 4) - 1) by lia. done. }
    change (2 ^ 52) with 4503599627370496 in Hr2lo.
    unfold renorm. change (2 ^ 53) with 9007199254740992.
    change (2 ^ 52) with 4503599627370496.
    destruct (Z.eqb_spec r1 9007199254740992), (Z.eqb_spec r2 9007199254740992);
      apply SFleb_finite_or_inf; lia.
Qed.

Lemma Zdigits2_shift (m' m k : Z) :
  0 ≤ k → 0 < m → m = m' / 2 ^ k → Zdigits2 m' = Zdigits2 m + k.
Proof.
  intros Hk Hm Hdiv.
  pose proof (pow2_pos k Hk) as Hp.
  pose proof (Zdigits2_bounds m Hm) as [Hlo Hhi].
  pose proof (Zdigits2_nonneg m) as Hd.
  assert (1 ≤ Zdigits2 m) as Hd1.
  { destruct (decide (1 ≤ Zdigits2 m)); [done|].
    replace (Zdigits2 m) with 0 in Hhi by lia. simpl in Hhi. lia. }
  pose proof (Z.div_mod m' (2 ^ k) ltac:(lia)) as Hdm.
  pose proof (Z.mod_pos_bound m' (2 ^ k) Hp) as Hmod.
  rewrite <- Hdiv in Hdm.
  apply Zdigits2_unique; [|nia].
  replace (Zdigits2 m + k - 1) with (Zdigits2 m - 1 + k) by lia.
  rewrite !Z.pow_add_r by lia. nia.
Qed.

(** An input given with [k] more bits at an exponent lower by [k] rounds to
    the same value. *)
Lemma round_enc_refine (s : bool) (c c' e k : Z) :
  0 ≤ k → 0 ≤ c' → sticky_shift k c' = c →
  e ≤ fexp prec emax (Zdigits2 (c / 4) + e) →
  round_enc s c' (e - k) = round_enc s c e ∧
  e - k ≤ fexp prec emax (Zdigits2 (c' / 4) + (e - k)).
Proof.
  intros Hk Hc' Hss Hal.
  assert (c / 4 = c' / 4 / 2 ^ k) as Hm
    by (rewrite <- Hss; by apply sticky_shift_div4).
  assert (0 ≤ c' / 4) as Hm' by (apply Z.div_pos; lia).
  assert (fexp prec emax (Zdigits2 (c' / 4) + (e - k)) =
          fexp prec emax (Zdigits2 (c / 4) + e)) as Hfexp.
  { destruct (decide (c / 4 = 0)) as [E|Hne].
    - rewrite E in *. simpl in Hal. rewrite fexp_eq in Hal.
      assert (c' / 4 < 2 ^ k) as Hlt.
      { pose proof (pow2_pos k Hk).
        destruct (decide (c' / 4 < 2 ^ k)); [done|].
        assert (1 ≤ c' / 4 / 2 ^ k); [|lia].
        apply Z.div_le_lower_bound; lia. }
      pose proof (Zdigits2_le (c' / 4) k ltac:(lia) Hk).
      pose proof (Zdigits2_nonneg (c' / 4)).
      simpl. rewrite !fexp_eq. lia.
    - assert (0 < c / 4) as Hpos.
      { assert (0 ≤ c' / 4 / 2 ^ k); [|lia].
        apply Z.div_pos; [done|by apply pow2_pos]. }
      rewrite (Zdigits2_shift (c' / 4) (c / 4) k) by done.
      f_equal. lia. }
  split; [|lia].
  unfold round_enc. rewrite Hfexp.
  set (n := fexp prec emax (Zdigits2 (c / 4) + e) - e).
  replace (fexp prec emax (Zdigits2 (c / 4) + e) - (e - k)) with (k + n) by lia.
  rewrite <- sticky_shift_add, Hss by lia.
  by replace (e - k + (k + n)) with (e + n) by lia.
Qed.

Lemma sticky_shift_exact (k m : Z) :
  0 ≤ k → sticky_shift k (4 * (m * 2 ^ k)) = 4 * m.
Proof.
  intros Hk. unfold sticky_shift.
  replace (4 * (m * 2 ^ k)) with ((2 * m) * 2 ^ (k + 1))
    by (rewrite Z.pow_add_r by lia; lia).
  pose proof (pow2_pos (k + 1) ltac:(lia)).
  rewrite Z.div_mul, Z.mod_mul by lia. simpl. lia.
Qed.

(** The dyadic order can be read at any exponent below both. *)
Lemma dyadic_le_at (E m1 e1 m2 e2 : Z) :
  E ≤ e1 → E ≤ e2 →
  dyadic_le m1 e1 m2 e2 ↔ m1 * 2 ^ (e1 - E) ≤ m2 * 2 ^ (e2 - E).
Proof.
  intros H1 H2. unfold dyadic_le.
  set (e0 := Z.min e1 e2).
  replace (e1 - E) with ((e1 - e0) + (e0 - E)) by lia.
  replace (e2 - E) with ((e2 - e0) + (e0 - E)) by lia.
  rewrite !Z.pow_add_r by lia.
  pose proof (pow2_pos (e0 - E) ltac:(lia)).
  generalize dependent (2 ^ (e0 - E)). generalize (2 ^ (e1 - e0)) (2 ^ (e2 - e0)).
  intros a b p Hp. nia.
Qed.

Lemma dyadic_le_trans (m1 e1 m2 e2 m3 e3 : Z) :
  dyadic_le m1 e1 m2 e2 → dyadic_le m2 e2 m3 e3 → dyadic_le m1 e1 m3 e3.
Proof.
  set (E := Z.min e1 (Z.min e2 e3)).
  rewrite (dyadic_le_at E m1 e1 m2 e2), (dyadic_le_at E m2 e2 m3 e3),
    (dyadic_le_at E m1 e1 m3 e3) by lia. lia.
Qed.

(** The same number written with [k] more bits. *)
Lemma dyadic_le_shift_l (m1 e1 m2 e2 k : Z) :
  0 ≤ k → dyadic_le (m1 * 2 ^ k) (e1 - k) m2 e2 ↔ dyadic_le m1 e1 m2 e2.
Proof.
  intros Hk. set (E := Z.min (e1 - k) e2).
  rewrite (dyadic_le_at E _ (e1 - k)), (dyadic_le_at E m1 e1) by lia.
  replace (e1 - E) with (k + (e1 - k - E)) by lia.
  rewrite (Z.pow_add_r 2 k) by lia. by rewrite Z.mul_assoc.
Qed.

Lemma dyadic_le_shift_r (m1 e1 m2 e2 k : Z) :
  0 ≤ k → dyadic_le m1 e1 (m2 * 2 ^ k) (e2 - k) ↔ dyadic_le m1 e1 m2 e2.
Proof.
  intros Hk. set (E := Z.min e1 (e2 - k)).
  rewrite (dyadic_le_at E _ _ _ (e2 - k)), (dyadic_le_at E m1 e1 m2 e2) by lia.
  replace (e2 - E) with (k + (e2 - k - E)) by lia.
  rewrite (Z.pow_add_r 2 k) by lia. by rewrite Z.mul_assoc.
Qed.

(** Rounding is monotone on exact inputs. *)
Lemma round_exact_mono (m1 e1 m2 e2 : Z) :
  0 ≤ m1 → 0 ≤ m2 →
  e1 ≤ fexp prec emax (Zdigits2 m1 + e1) →
  e2 ≤ fexp prec emax (Zdigits2 m2 + e2) →
  dyadic_le m1 e1 m2 e2 →
  SFleb (round_enc false (4 * m1) e1) (round_enc false (4 * m2) e2) = true.
Proof.
  intros Hm1 Hm2 Hal1 Hal2 Hle.
  set (e0 := Z.min e1 e2).
  assert (∀ m, 4 * m / 4 = m) as Hdiv by (intros; Z.div_mod_to_equations; lia).
  destruct (round_enc_refine false (4 * m1) (4 * (m1 * 2 ^ (e1 - e0))) e1 (e1 - e0))
    as [R1 A1]; [lia| |apply sticky_shift_exact; lia|by rewrite Hdiv|].
  { pose proof (pow2_pos (e1 - e0) ltac:(lia)). nia. }
  destruct (round_enc_refine false (4 * m2) (4 * (m2 * 2 ^ (e2 - e0))) e2 (e2 - e0))
    as [R2 A2]; [lia| |apply sticky_shift_exact; lia|by rewrite Hdiv|].
  { pose proof (pow2_pos (e2 - e0) ltac:(lia)). nia. }
  rewrite <- R1, <- R2.
  replace (e1 - (e1 - e0)) with e0 in * by lia.
  replace (e2 - (e2 - e0)) with e0 in * by lia.
  apply round_enc_mono; [|done].
  unfold dyadic_le in Hle. fold e0 in Hle.
  pose proof (pow2_pos (e1 - e0) ltac:(lia)). nia.
Qed.

Lemma Zdigits2_mul_pow2 (m k : Z) :
  0 < m → 0 ≤ k → Zdigits2 (m * 2 ^ k) = Zdigits2 m + k.
Proof.
  intros Hm Hk. apply (Zdigits2_shift _ m k); [done..|].
  pose proof (pow2_pos k Hk). by rewrite Z.div_mul by lia.
Qed.

Lemma Zdigits2_ge (m k : Z) : 0 < m → 2 ^ (k - 1) ≤ m → k ≤ Zdigits2 m.
Proof.
  intros Hm Hk.
  pose proof (Zdigits2_bounds m Hm) as [_ Hhi].
  pose proof (Zdigits2_nonneg m).
  destruct (decide (k ≤ Zdigits2 m)); [done|].
  assert (2 ^ Zdigits2 m ≤ 2 ^ (k - 1)) by (apply Z.pow_le_mono_r; lia). lia.
Qed.

Lemma shl_align_spec (mx : positive) (ex ex' : Z) :
  ∃ k, 0 ≤ k ∧
    shl_align mx ex ex' = (Z.to_pos (Z.pos mx * 2 ^ k), ex - k) ∧
    ex - k = Z.min ex ex'.
Proof.
  unfold shl_align. destruct (ex' - ex) as [|d|d] eqn:E.
  - exists 0. rewrite Z.mul_1_r, Z.sub_0_r. simpl. split; [done|]. split; [done|lia].
  - exists 0. rewrite Z.mul_1_r, Z.sub_0_r. simpl. split; [done|]. split; [done|lia].
  - exists (Z.pos d). split; [done|]. split; [|lia].
    f_equal; [|lia].
    change (Pos.iter xO mx d) with (shift_pos d mx).
    apply Pos2Z.inj. rewrite shift_pos_correct, Z2Pos.id.
    + rewrite Z.mul_comm. done.
    + pose proof (pow2_pos (Z.pos d) ltac:(done)). lia.
Qed.

(** [binary_round] is [round_enc] of the mantissa written with enough bits. *)
Lemma binary_round_enc (s : bool) (mx : positive) (ex : Z) :
  ∃ k, 0 ≤ k ∧
    binary_round prec emax s mx ex = round_enc s (4 * (Z.pos mx * 2 ^ k)) (ex - k) ∧
    ex - k ≤ fexp prec emax (Zdigits2 (Z.pos mx * 2 ^ k) + (ex - k)).
Proof.
  unfold binary_round.
  destruct (shl_align_spec mx ex (fexp prec emax (Z.pos (digits2_pos mx) + ex)))
    as (k & Hk & -> & Hmin).
  exists k. split; [done|].
  pose proof (pow2_pos k Hk) as Hp.
  assert (Zdigits2 (Z.pos mx * 2 ^ k) + (ex - k) = Z.pos (digits2_pos mx) + ex) as Hd.
  { rewrite Zdigits2_mul_pow2 by done. simpl. lia. }
  assert (ex - k ≤ fexp prec emax (Zdigits2 (Z.pos mx * 2 ^ k) + (ex - k))) as Hal
    by (rewrite Hd; lia).
  split; [|done].
  rewrite Z2Pos.id by lia.
  rewrite binary_round_aux_enc by (done || lia). simpl loc_code. by rewrite Z.add_0_r.
Qed.

Lemma binary_round_mono (m1 m2 : positive) (e1 e2 : Z) :
  dyadic_le (Z.pos m1) e1 (Z.pos m2) e2 →
  SFleb (binary_round prec emax false m1 e1) (binary_round prec emax false m2 e2)
    = true.
Proof.
  intros Hle.
  destruct (binary_round_enc false m1 e1) as (k1 & Hk1 & -> & A1).
  destruct (binary_round_enc false m2 e2) as (k2 & Hk2 & -> & A2).
  pose proof (pow2_pos k1 Hk1). pose proof (pow2_pos k2 Hk2).
  apply round_exact_mono; [lia..|done|done|].
  by apply dyadic_le_shift_l, dyadic_le_shift_r.
Qed.

(** The result of rounding is a binary64 value. *)
Lemma round_enc_valid (s : bool) (c e : Z) :
  0 ≤ c → e ≤ fexp prec emax (Zdigits2 (c / 4) + e) →
  valid_binary (round_enc s c e) = true.
Proof.
  intros Hc Hal. unfold round_enc.
  set (n := fexp prec emax (Zdigits2 (c / 4) + e) - e).
  assert (0 ≤ n) as Hn by (subst n; lia).
  assert (0 ≤ c / 4) as Hc4 by (apply Z.div_pos; lia).
  pose proof (Zdigits2_nonneg (c / 4)) as Hd0.
  assert (Zdigits2 (c / 4) - 53 ≤ n ∧ -1074 ≤ e + n) as [Hdn He]
    by (subst n; rewrite fexp_eq; lia).
  assert (0 ≤ rne (sticky_shift n c) ≤ 2 ^ 53) as Hr.
  { apply rne_sticky_shift_bound; [done..|].
    destruct (decide (c / 4 = 0)) as [E|Hne]; [rewrite E; apply pow2_pos; lia|].
    pose proof (Zdigits2_bounds (c / 4) ltac:(lia)) as [_ Hhi].
    eapply Z.lt_le_trans; [exact Hhi|]. apply Z.pow_le_mono_r; lia. }
  assert (-1074 < e + n → 2 ^ 52 ≤ rne (sticky_shift n c)) as Hlo.
  { intros He'.
    assert (n = Zdigits2 (c / 4) - 53) as Hn' by (subst n; rewrite fexp_eq in *; lia).
    assert (0 < c / 4) as Hpos.
    { destruct (decide (c / 4 = 0)) as [E|]; [|lia].
      rewrite E in Hn'. simpl in Hn'. lia. }
    pose proof (Zdigits2_bounds _ Hpos) as [Hlo _].
    etrans; [|apply rne_lower].
    rewrite sticky_shift_div4 by lia.
    apply Z.div_le_lower_bound; [by apply pow2_pos; lia|].
    rewrite <- Z.pow_add_r by lia.
    by replace (n + 52) with (Zdigits2 (c / 4) - 1) by lia. }
  set (r := rne (sticky_shift n c)) in *.
  destruct (Z.eqb_spec r (2 ^ 53)) as [Heq|Hne].
  - simpl. destruct (Z.leb_spec (e + n + 1) (emax - prec)); [|done].
    simpl. unfold bounded, canonical_mantissa.
    apply andb_true_intro. split; [|by apply Z.leb_le].
    apply Z.eqb_eq. rewrite fexp_eq. simpl digits2_pos. lia.
  - destruct r as [|p|p] eqn:Er; [done| |lia]. simpl.
    destruct (Z.leb_spec (e + n) (emax - prec)); [|done].
    simpl. unfold bounded, canonical_mantissa.
    apply andb_true_intro. split; [|by apply Z.leb_le].
    apply Z.eqb_eq. rewrite fexp_eq.
    change (Z.pos (digits2_pos p)) with (Zdigits2 (Z.pos p)).
    assert (Zdigits2 (Z.pos p) ≤ 53) as Hd by (apply Zdigits2_le; lia).
    destruct (decide (-1074 < e + n)) as [Hgt|]; [|lia].
    assert (53 ≤ Zdigits2 (Z.pos p)); [|lia].
    apply Zdigits2_ge; [done|]. by apply Hlo.
Qed.

Lemma binary_round_valid (s : bool) (m : positive) (e : Z) :
  valid_binary (binary_round prec emax s m e) = true.
Proof.
  destruct (binary_round_enc s m e) as (k & Hk & -> & A).
  pose proof (pow2_pos k Hk).
  apply round_enc_valid; [lia|].
  by replace (4 * (Z.pos m * 2 ^ k) / 4) with (Z.pos m * 2 ^ k)
    by (Z.div_mod_to_equations; lia).
Qed.

(** What validity says about a finite value: at most 53 bits, an exponent in
    range, and 53 bits exactly above the smallest exponent. *)
Lemma bounded_inv (m : positive) (e : Z) :
  bounded prec emax m e = true →
  Z.pos (digits2_pos m) ≤ 53 ∧ -1074 ≤ e ≤ 971 ∧
  (-1074 < e → Z.pos (digits2_pos m) = 53) ∧
  Z.pos m < 2 ^ 53.
Proof.
  unfold bounded, canonical_mantissa. intros [Hc He]%andb_prop.
  apply Z.eqb_eq in Hc. apply Z.leb_le in He. rewrite fexp_eq in Hc.
  change (emax - prec) with 971 in He.
  assert (Z.pos (digits2_pos m) ≤ 53) as Hd by lia.
  repeat split; try lia.
  pose proof (digits2_pos_bounds m) as [_ Hhi].
  eapply Z.lt_le_trans; [exact Hhi|]. apply Z.pow_le_mono_r; lia.
Qed.

Lemma bounded_normal (m : positive) (e : Z) :
  bounded prec emax m e = true → -1074 < e → 2 ^ 52 ≤ Z.pos m.
Proof.
  intros (_ & _ & Hn & _)%bounded_inv He.
  pose proof (digits2_pos_bounds m) as [Hlo _].
  by rewrite (Hn He) in Hlo.
Qed.

Lemma SFleb_finite (m1 m2 : positive) (e1 e2 : Z) :
  SFleb (S754_finite false m1 e1) (S754_finite false m2 e2) = true ↔
  e1 < e2 ∨ (e1 = e2 ∧ Z.pos m1 ≤ Z.pos m2).
Proof.
  unfold SFleb. simpl.
  change (PosDef.Pos.compare_cont Eq m1 m2) with (m1 ?= m2)%positive.
  destruct (Z.compare_spec e1 e2); [|split; [lia|done]|split; [done|lia]].
  destruct (Pos.compare_spec m1 m2); split; try done; lia.
Qed.

Lemma SFltb_finite (m1 m2 : positive) (e1 e2 : Z) :
  SFltb (S754_finite false m1 e1) (S754_finite false m2 e2) = true ↔
  e1 < e2 ∨ (e1 = e2 ∧ Z.pos m1 < Z.pos m2).
Proof.
  unfold SFltb. simpl.
  change (PosDef.Pos.compare_cont Eq m1 m2) with (m1 ?= m2)%positive.
  destruct (Z.compare_spec e1 e2); [|split; [lia|done]|split; [done|lia]].
  destruct (Pos.compare_spec m1 m2); split; try done; lia.
Qed.

(** On non-negative binary64 values the comparisons are those of the keys. *)
Lemma SFleb_key (x y : spec_float) :
  valid_binary x = true → valid_binary y = true →
  SFnonneg x = true → SFnonneg y = true →
  SFleb x y = (order_key x <=? order_key y).
Proof.
  intros Hx Hy Nx Ny.
  destruct x as [sx|[]| |[] mx ex], y as [sy|[]| |[] my ey]; try done; simpl in *;
    repeat match goal with
    | H : bounded _ _ _ _ = true |- _ => apply bounded_inv in H as (_ & ? & _ & ?)
    end;
    change (2 ^ 70) with (131072 * 9007199254740992);
    change (2 ^ 53) with 9007199254740992 in *.
  - symmetry. apply Z.leb_le. lia.
  - symmetry. apply Z.leb_gt. lia.
  - symmetry. apply Z.leb_gt. lia.
  - symmetry. apply Z.leb_le. lia.
  - destruct (Z.leb_spec ((ex + 1075) * 9007199254740992 + Z.pos mx)
                ((ey + 1075) * 9007199254740992 + Z.pos my)) as [H'|H'].
    + apply SFleb_finite. lia.
    + apply not_true_is_false. rewrite SFleb_finite. lia.
Qed.

Lemma SFltb_key (x y : spec_float) :
  valid_binary x = true → valid_binary y = true →
  SFnonneg x = true → SFnonneg y = true →
  SFltb x y = (order_key x <? order_key y).
Proof.
  intros Hx Hy Nx Ny.
  destruct x as [sx|[]| |[] mx ex], y as [sy|[]| |[] my ey]; try done; simpl in *;
    repeat match goal with
    | H : bounded _ _ _ _ = true |- _ => apply bounded_inv in H as (_ & ? & _ & ?)
    end;
    change (2 ^ 70) with (131072 * 9007199254740992);
    change (2 ^ 53) with 9007199254740992 in *.
  - symmetry. apply Z.ltb_lt. lia.
  - symmetry. apply Z.ltb_ge. lia.
  - symmetry. apply Z.ltb_ge. lia.
  - symmetry. apply Z.ltb_lt. lia.
  - destruct (Z.ltb_spec ((ex + 1075) * 9007199254740992 + Z.pos mx)
                ((ey + 1075) * 9007199254740992 + Z.pos my)) as [H'|H'].
    + apply SFltb_finite. lia.
    + apply not_true_is_false. rewrite SFltb_finite. lia.
Qed.

(** For binary64 values the comparison is the order of the numbers. *)
Lemma SFleb_dyadic (m1 m2 : positive) (e1 e2 : Z) :
  bounded prec emax m1 e1 = true → bounded prec emax m2 e2 = true →
  SFleb (S754_finite false m1 e1) (S754_finite false m2 e2) = true →
  dyadic_le (Z.pos m1) e1 (Z.pos m2) e2.
Proof.
  intros H1 H2 Hle. apply SFleb_finite in Hle.
  pose proof (bounded_inv _ _ H1) as (_ & ? & _ & Hm1).
  pose proof (bounded_inv _ _ H2) as (_ & ? & _ & Hm2).
  destruct Hle as [Hlt|[-> Hle]].
  - pose proof (bounded_normal _ _ H2 ltac:(lia)) as Hn2.
    apply (dyadic_le_at e1); [lia..|].
    rewrite Z.sub_diag, Z.pow_0_r.
    assert (2 ^ 1 ≤ 2 ^ (e2 - e1)) as Hp by (apply Z.pow_le_mono_r; lia).
    change (2 ^ 1) with 2 in Hp.
    change (2 ^ 53) with (2 * 2 ^ 52) in Hm1. nia.
  - apply (dyadic_le_at e2); [lia..|]. rewrite Z.sub_diag. lia.
Qed.

(** *** Results of rounding *)

Lemma finite_or_inf_nonneg (m e : Z) :
  0 ≤ m → SFnonneg (finite_or_inf false m e) = true.
Proof.
  intros Hm. destruct m as [|p|p]; [done| |lia]. simpl.
  by destruct (e <=? emax - prec).
Qed.

Lemma round_enc_nonneg (c e : Z) :
  0 ≤ c → e ≤ fexp prec emax (Zdigits2 (c / 4) + e) →
  SFnonneg (round_enc false c e) = true.
Proof.
  intros Hc Hal. unfold round_enc.
  set (n := fexp prec emax (Zdigits2 (c / 4) + e) - e).
  assert (0 ≤ n) as Hn by (subst n; lia).
  assert (0 ≤ rne (sticky_shift n c)).
  { etrans; [|apply rne_lower]. apply Z.div_pos; [|lia].
    by apply sticky_shift_nonneg. }
  destruct (_ =? 2 ^ 53); by apply finite_or_inf_nonneg.
Qed.

Lemma binary_round_nonneg (m : positive) (e : Z) :
  SFnonneg (binary_round prec emax false m e) = true.
Proof.
  destruct (binary_round_enc false m e) as (k & Hk & -> & A).
  pose proof (pow2_pos k Hk).
  apply round_enc_nonneg; [lia|].
  by replace (4 * (Z.pos m * 2 ^ k) / 4) with (Z.pos m * 2 ^ k)
    by (Z.div_mod_to_equations; lia).
Qed.

(** A binary64 value rounds to itself. *)
Lemma binary_round_id (s : bool) (m : positive) (e : Z) :
  bounded prec emax m e = true →
  binary_round prec emax s m e = S754_finite s m e.
Proof.
  intros Hb. pose proof Hb as [Hc He]%andb_prop.
  unfold canonical_mantissa in Hc. apply Z.eqb_eq in Hc.
  unfold binary_round, shl_align. rewrite Hc, Z.sub_diag.
  unfold binary_round_aux, shr_fexp. simpl Zdigits2.
  rewrite Hc, Z.sub_diag. simpl.
  rewrite Hc, Z.sub_diag. simpl. by rewrite He.
Qed.

(** *** Comparisons with the extreme values *)

Lemma SFleb_refl (x : spec_float) : SFis_nan x = false → SFleb x x = true.
Proof. intros H. unfold SFleb. by rewrite SFcompare_refl. Qed.

Lemma SFleb_inf_r (x : spec_float) :
  SFnonneg x = true → SFleb x (S754_infinity false) = true.
Proof. by destruct x as [|[]| |[]]. Qed.

Lemma SFleb_zero_l (s : bool) (x : spec_float) :
  SFnonneg x = true → SFleb (S754_zero s) x = true.
Proof. by destruct x as [|[]| |[]]. Qed.

Lemma SFleb_zero_nonneg (x : spec_float) :
  SFleb (S754_zero false) x = SFnonneg x.
Proof. by destruct x as [|[]| |[]]. Qed.

Lemma SFleb_inf_l (x : spec_float) :
  SFnonneg x = true → SFleb (S754_infinity false) x = true →
  x = S754_infinity false.
Proof. by destruct x as [|[]| |[]]. Qed.

(** *** Addition and subtraction *)

Lemma shl_align_fst (m : positive) (e ez : Z) :
  ez ≤ e → Z.pos (shl_align m e ez).1 = Z.pos m * 2 ^ (e - ez).
Proof.
  intros He. destruct (shl_align_spec m e ez) as (k & Hk & -> & Hmin).
  simpl. pose proof (pow2_pos k Hk).
  rewrite Z2Pos.id by lia. do 2 f_equal. lia.
Qed.

Lemma SFadd_finite (m1 m2 : positive) (e1 e2 : Z) :
  SFadd prec emax (S754_finite false m1 e1) (S754_finite false m2 e2) =
  binary_round prec emax false
    (Z.to_pos (Z.pos m1 * 2 ^ (e1 - Z.min e1 e2) + Z.pos m2 * 2 ^ (e2 - Z.min e1 e2)))
    (Z.min e1 e2).
Proof.
  unfold SFadd, cond_Zopp.
  rewrite <- !shl_align_fst by lia. done.
Qed.

Lemma SFsub_finite (m1 m2 : positive) (e1 e2 : Z) :
  SFsub prec emax (S754_finite false m1 e1) (S754_finite false m2 e2) =
  binary_normalize prec emax
    (Z.pos m1 * 2 ^ (e1 - Z.min e1 e2) - Z.pos m2 * 2 ^ (e2 - Z.min e1 e2))
    (Z.min e1 e2) false.
Proof.
  unfold SFsub, cond_Zopp. by rewrite !shl_align_fst by lia.
Qed.

(** A sum of non-negative values is not below its second operand. *)
Lemma SFadd_ge_r (x c : spec_float) :
  valid_binary c = true → SFnonneg x = true → SFnonneg c = true →
  SFis_finite c = true →
  SFleb c (SFadd prec emax x c) = true.
Proof.
  destruct c as [| | |[] mc ec]; try done. intros Hc Nx _ _.
  destruct x as [sx|[]| |[] mx ex]; try done.
  - by apply SFleb_refl.
  - rewrite SFadd_finite, <- (binary_round_id false mc ec) at 1 by done.
    apply binary_round_mono.
    set (ez := Z.min ex ec).
    pose proof (pow2_pos (ex - ez) ltac:(lia)). pose proof (pow2_pos (ec - ez) ltac:(lia)).
    rewrite Z2Pos.id by lia.
    apply (dyadic_le_at ez); [lia..|]. rewrite Z.sub_diag. lia.
Qed.

Lemma SFadd_ge_l (c x : spec_float) :
  valid_binary c = true → SFnonneg x = true → SFnonneg c = true →
  SFis_finite c = true →
  SFleb c (SFadd prec emax c x) = true.
Proof.
  destruct c as [| | |[] mc ec]; try done. intros Hc Nx _ _.
  destruct x as [sx|[]| |[] mx ex]; try done.
  - by apply SFleb_refl.
  - rewrite SFadd_finite, <- (binary_round_id false mc ec) at 1 by done.
    apply binary_round_mono.
    set (ez := Z.min ec ex).
    pose proof (pow2_pos (ex - ez) ltac:(lia)). pose proof (pow2_pos (ec - ez) ltac:(lia)).
    rewrite Z2Pos.id by lia.
    apply (dyadic_le_at ez); [lia..|]. rewrite Z.sub_diag. lia.
Qed.

Lemma SFadd_nonneg (x y : spec_float) :
  SFnonneg x = true → SFnonneg y = true →
  SFnonneg (SFadd prec emax x y) = true.
Proof.
  destruct x as [sx|[]| |[] mx ex], y as [sy|[]| |[] my ey]; try done.
  - by destruct sx, sy.
  - intros _ _. rewrite SFadd_finite. apply binary_round_nonneg.
Qed.

(** Adding a fixed finite value is monotone. *)
Lemma SFadd_mono_l (x1 x2 c : spec_float) :
  valid_binary x1 = true → valid_binary x2 = true → valid_binary c = true →
  SFnonneg x1 = true → SFnonneg x2 = true → SFnonneg c = true →
  SFis_finite c = true →
  SFleb x1 x2 = true →
  SFleb (SFadd prec emax x1 c) (SFadd prec emax x2 c) = true.
Proof.
  intros V1 V2 Vc N1 N2 Nc Fc Hle.
  destruct x1 as [s1|[]| |[] m1 e1]; try done.
  - replace (SFadd prec emax (S754_zero s1) c) with c by by destruct c as [| | |[]].
    by apply SFadd_ge_r.
  - apply SFleb_inf_l in Hle as ->; [|done].
    apply SFleb_refl. by destruct c as [| | |[]].
  - destruct x2 as [s2|[]| |[] m2 e2]; try done.
    + destruct c as [| | |[] mc ec]; try done.
      apply SFleb_inf_r. rewrite SFadd_finite. apply binary_round_nonneg.
    + destruct c as [| | |[] mc ec]; try done.
      rewrite !SFadd_finite. apply binary_round_mono.
      pose proof (SFleb_dyadic _ _ _ _ V1 V2 Hle) as Hd.
      set (E := Z.min (Z.min e1 ec) (Z.min e2 ec)).
      pose proof (pow2_pos (e1 - Z.min e1 ec) ltac:(lia)).
      pose proof (pow2_pos (ec - Z.min e1 ec) ltac:(lia)).
      pose proof (pow2_pos (e2 - Z.min e2 ec) ltac:(lia)).
      pose proof (pow2_pos (ec - Z.min e2 ec) ltac:(lia)).
      rewrite !Z2Pos.id by lia.
      apply (dyadic_le_at E); [lia..|].
      apply (dyadic_le_at E) in Hd; [|lia..].
      rewrite !Z.mul_add_distr_r, <- !Z.mul_assoc, <- !Z.pow_add_r by lia.
      replace (e1 - Z.min e1 ec + (Z.min e1 ec - E)) with (e1 - E) by lia.
      replace (ec - Z.min e1 ec + (Z.min e1 ec - E)) with (ec - E) by lia.
      replace (e2 - Z.min e2 ec + (Z.min e2 ec - E)) with (e2 - E) by lia.
      replace (ec - Z.min e2 ec + (Z.min e2 ec - E)) with (ec - E) by lia.
      lia.
Qed.

Lemma binary_normalize_nonneg (d e : Z) :
  0 ≤ d → SFnonneg (binary_normalize prec emax d e false) = true.
Proof.
  intros Hd. destruct d as [|p|p]; [done| |lia]. apply binary_round_nonneg.
Qed.

Lemma binary_normalize_mono (d1 d2 e1 e2 : Z) :
  0 ≤ d1 → 0 ≤ d2 → dyadic_le d1 e1 d2 e2 →
  SFleb (binary_normalize prec emax d1 e1 false)
    (binary_normalize prec emax d2 e2 false) = true.
Proof.
  intros H1 H2 Hle.
  destruct d1 as [|p1|p1]; [|clear H1|lia].
  { apply SFleb_zero_l. by apply binary_normalize_nonneg. }
  destruct d2 as [|p2|p2]; [|clear H2|lia].
  { exfalso. unfold dyadic_le in Hle.
    pose proof (pow2_pos (e1 - Z.min e1 e2) ltac:(lia)). lia. }
  by apply binary_round_mono.
Qed.

(** Subtracting a fixed finite value that is not above the operands is
    monotone, and the differences are not negative. *)
Lemma SFsub_mono_l (y1 y2 c : spec_float) :
  valid_binary y1 = true → valid_binary y2 = true → valid_binary c = true →
  SFnonneg y1 = true → SFnonneg y2 = true → SFnonneg c = true →
  SFis_finite c = true →
  SFleb c y1 = true → SFleb y1 y2 = true →
  SFnonneg (SFsub prec emax y1 c) = true ∧
  SFleb (SFsub prec emax y1 c) (SFsub prec emax y2 c) = true.
Proof.
  intros V1 V2 Vc N1 N2 Nc Fc Hc Hle.
  destruct c as [| | |[] mc ec]; try done.
  destruct y1 as [s1|[]| |[] m1 e1]; try done.
  - apply SFleb_inf_l in Hle as ->; done.
  - pose proof (SFleb_dyadic _ _ _ _ Vc V1 Hc) as Hd1.
    assert (0 ≤ Z.pos m1 * 2 ^ (e1 - Z.min e1 ec) - Z.pos mc * 2 ^ (ec - Z.min e1 ec))
      as Hpos1.
    { apply (dyadic_le_at (Z.min e1 ec)) in Hd1; lia. }
    rewrite SFsub_finite. split; [by apply binary_normalize_nonneg|].
    destruct y2 as [s2|[]| |[] m2 e2]; try done.
    + apply SFleb_inf_r. by apply binary_normalize_nonneg.
    + pose proof (SFleb_dyadic _ _ _ _ V1 V2 Hle) as Hd.
      pose proof (dyadic_le_trans _ _ _ _ _ _ Hd1 Hd) as Hd2.
      assert (0 ≤ Z.pos m2 * 2 ^ (e2 - Z.min e2 ec) - Z.pos mc * 2 ^ (ec - Z.min e2 ec))
        as Hpos2.
      { apply (dyadic_le_at (Z.min e2 ec)) in Hd2; lia. }
      rewrite SFsub_finite. apply binary_normalize_mono; [done..|].
      set (E := Z.min (Z.min e1 ec) (Z.min e2 ec)).
      apply (dyadic_le_at E); [lia..|].
      apply (dyadic_le_at E) in Hd; [|lia..].
      rewrite !Z.mul_sub_distr_r, <- !Z.mul_assoc, <- !Z.pow_add_r by lia.
      replace (e1 - Z.min e1 ec + (Z.min e1 ec - E)) with (e1 - E) by lia.
      replace (ec - Z.min e1 ec + (Z.min e1 ec - E)) with (ec - E) by lia.
      replace (e2 - Z.min e2 ec + (Z.min e2 ec - E)) with (e2 - E) by lia.
      replace (ec - Z.min e2 ec + (Z.min e2 ec - E)) with (ec - E) by lia.
      lia.
Qed.

(** *** Multiplication *)

Lemma Zdigits2_mul_ge (m1 m2 : positive) :
  Zdigits2 (Z.pos m1) + Zdigits2 (Z.pos m2) - 1 ≤ Zdigits2 (Z.pos (m1 * m2)).
Proof.
  pose proof (Zdigits2_bounds (Z.pos m1) ltac:(done)) as [H1 _].
  pose proof (Zdigits2_bounds (Z.pos m2) ltac:(done)) as [H2 _].
  pose proof (Zdigits2_bounds (Z.pos m1) ltac:(done)) as [_ H1'].
  assert (1 ≤ Zdigits2 (Z.pos m1)) by (simpl; lia).
  assert (1 ≤ Zdigits2 (Z.pos m2)) by (simpl; lia).
  apply Zdigits2_ge; [done|].
  replace (Zdigits2 (Z.pos m1) + Zdigits2 (Z.pos m2) - 1 - 1)
    with ((Zdigits2 (Z.pos m1) - 1) + (Zdigits2 (Z.pos m2) - 1)) by lia.
  rewrite Z.pow_add_r, Pos2Z.inj_mul by lia.
  pose proof (pow2_pos (Zdigits2 (Z.pos m1) - 1) ltac:(lia)).
  pose proof (pow2_pos (Zdigits2 (Z.pos m2) - 1) ltac:(lia)).
  nia.
Qed.

(** The product of two positive binary64 values is the rounded product of
    the mantissas at the sum of the exponents. *)
Lemma SFmul_finite (m1 m2 : positive) (e1 e2 : Z) :
  bounded prec emax m1 e1 = true → bounded prec emax m2 e2 = true →
  SFmul prec emax (S754_finite false m1 e1) (S754_finite false m2 e2) =
  round_enc false (4 * Z.pos (m1 * m2)) (e1 + e2) ∧
  e1 + e2 ≤ fexp prec emax (Zdigits2 (Z.pos (m1 * m2)) + (e1 + e2)).
Proof.
  intros (Hd1 & He1 & Hn1 & _)%bounded_inv (Hd2 & He2 & Hn2 & _)%bounded_inv.
  pose proof (Zdigits2_mul_ge m1 m2) as Hd. simpl Zdigits2 in Hd.
  assert (1 ≤ Z.pos (digits2_pos m1)) by lia.
  assert (1 ≤ Z.pos (digits2_pos m2)) by lia.
  assert (e1 + e2 ≤ fexp prec emax (Zdigits2 (Z.pos (m1 * m2)) + (e1 + e2))) as Hal.
  { rewrite fexp_eq. simpl Zdigits2. lia. }
  split; [|done]. unfold SFmul. simpl xorb.
  rewrite binary_round_aux_enc by done. simpl loc_code. by rewrite Z.add_0_r.
Qed.

Lemma SFmul_finite_nonneg (m1 m2 : positive) (e1 e2 : Z) :
  bounded prec emax m1 e1 = true → bounded prec emax m2 e2 = true →
  SFnonneg (SFmul prec emax (S754_finite false m1 e1) (S754_finite false m2 e2))
    = true.
Proof.
  intros H1 H2. destruct (SFmul_finite m1 m2 e1 e2 H1 H2) as [-> Hal].
  apply round_enc_nonneg; [lia|].
  by replace (4 * Z.pos (m1 * m2) / 4) with (Z.pos (m1 * m2))
    by (Z.div_mod_to_equations; lia).
Qed.

Lemma SFmul_finite_mono (m1 m2 n1 n2 : positive) (e1 e2 f1 f2 : Z) :
  bounded prec emax m1 e1 = true → bounded prec emax m2 e2 = true →
  bounded prec emax n1 f1 = true → bounded prec emax n2 f2 = true →
  dyadic_le (Z.pos (m1 * n1)) (e1 + f1) (Z.pos (m2 * n2)) (e2 + f2) →
  SFleb (SFmul prec emax (S754_finite false m1 e1) (S754_finite false n1 f1))
    (SFmul prec emax (S754_finite false m2 e2) (S754_finite false n2 f2)) = true.
Proof.
  intros Hm1 Hm2 Hn1 Hn2 Hle.
  destruct (SFmul_finite m1 n1 e1 f1 Hm1 Hn1) as [-> A1].
  destruct (SFmul_finite m2 n2 e2 f2 Hm2 Hn2) as [-> A2].
  by apply round_exact_mono.
Qed.

Lemma dyadic_le_mul_r (m1 e1 m2 e2 n f : Z) :
  0 ≤ n → dyadic_le m1 e1 m2 e2 → dyadic_le (m1 * n) (e1 + f) (m2 * n) (e2 + f).
Proof.
  intros Hn Hle. set (E := Z.min e1 e2).
  apply (dyadic_le_at (E + f)); [lia..|].
  unfold dyadic_le in Hle. fold E in Hle.
  replace (e1 + f - (E + f)) with (e1 - E) by lia.
  replace (e2 + f - (E + f)) with (e2 - E) by lia.
  revert Hle. generalize (2 ^ (e1 - E)) (2 ^ (e2 - E)). intros a b Hle.
  replace (m1 * n * a) with (n * (m1 * a)) by lia.
  replace (m2 * n * b) with (n * (m2 * b)) by lia.
  by apply Z.mul_le_mono_nonneg_l.
Qed.

Lemma dyadic_le_mul_l (m1 e1 m2 e2 n f : Z) :
  0 ≤ n → dyadic_le m1 e1 m2 e2 → dyadic_le (n * m1) (f + e1) (n * m2) (f + e2).
Proof.
  intros Hn Hle. rewrite !(Z.mul_comm n), !(Z.add_comm f).
  by apply dyadic_le_mul_r.
Qed.

(** Multiplying by a fixed positive finite value on the right is monotone. *)
Lemma SFmul_mono_l (x1 x2 c : spec_float) :
  valid_binary x1 = true → valid_binary x2 = true → valid_binary c = true →
  SFnonneg x1 = true → SFnonneg x2 = true → SFnonneg c = true →
  SFis_finite c = true →
  SFleb x1 x2 = true →
  SFleb (SFmul prec emax x1 c) (SFmul prec emax x2 c) = true.
Proof.
  intros V1 V2 Vc N1 N2 Nc Fc Hle.
  destruct c as [| | |[] mc ec]; try done.
  destruct x1 as [s1|[]| |[] m1 e1]; try done.
  - simpl. apply SFleb_zero_l.
    destruct x2 as [s2|[]| |[] m2 e2]; try done.
    by apply SFmul_finite_nonneg.
  - by apply SFleb_inf_l in Hle as ->.
  - destruct x2 as [s2|[]| |[] m2 e2]; try done.
    + apply SFleb_inf_r. by apply SFmul_finite_nonneg.
    + apply SFmul_finite_mono; [done..|].
      rewrite !Pos2Z.inj_mul. apply dyadic_le_mul_r; [done|].
      by apply SFleb_dyadic.
Qed.

(** Multiplying a fixed non-negative value by a growing positive factor is
    monotone, unless the product is zero times infinity. *)
Lemma SFmul_mono_r (p a1 a2 : spec_float) :
  valid_binary p = true → valid_binary a1 = true → valid_binary a2 = true →
  SFnonneg p = true → SFnonneg a1 = true → SFnonneg a2 = true →
  SFis_zero a1 = false →
  SFis_zero p && SFis_inf a2 = false →
  SFleb a1 a2 = true →
  SFnonneg (SFmul prec emax p a1) = true ∧
  SFleb (SFmul prec emax p a1) (SFmul prec emax p a2) = true.
Proof.
  intros Vp V1 V2 Np N1 N2 Z1 Hzi Hle.
  destruct a1 as [s1|[]| |[] m1 e1]; try done.
  - apply SFleb_inf_l in Hle as ->; [|done].
    by destruct p as [sp|[]| |[] mp ep].
  - destruct a2 as [s2|[]| |[] m2 e2]; try done.
    + destruct p as [sp|[]| |[] mp ep]; try done.
      split; [by apply SFmul_finite_nonneg|].
      apply SFleb_inf_r. by apply SFmul_finite_nonneg.
    + destruct p as [sp|[]| |[] mp ep]; try done.
      split; [by apply SFmul_finite_nonneg|].
      apply SFmul_finite_mono; [done..|].
      rewrite !Pos2Z.inj_mul. apply dyadic_le_mul_l; [done|].
      by apply SFleb_dyadic.
Qed.

(** *** Powers *)

Lemma SFleb_one_pos (x : spec_float) :
  SFleb SFone x = true → SFnonneg x = true ∧ SFis_zero x = false.
Proof. by destruct x as [[]|[]| |[]]. Qed.

Lemma SFpown_valid (x : spec_float) (k : positive) :
  valid_binary x = true → valid_binary (F64.SFpown x k) = true.
Proof. destruct x; try done. intros _. apply binary_round_valid. Qed.

(** Multiplying by a number that is at least one does not decrease. *)
Lemma dyadic_le_mul_ge1 (X ex M e : Z) :
  0 ≤ X → dyadic_le 1 0 M e → dyadic_le X ex (X * M) (ex + e).
Proof.
  intros HX H1. unfold dyadic_le in *.
  destruct (Z.le_ge_cases 0 e) as [He|He].
  - rewrite Z.min_l in H1 by lia. rewrite Z.min_l by lia.
    rewrite Z.sub_diag, Z.pow_0_r in *. rewrite Z.sub_0_r in H1.
    replace (ex + e - ex) with e by lia.
    revert H1. generalize (2 ^ e). intros a Ha. nia.
  - rewrite Z.min_r in H1 by lia. rewrite Z.min_r by lia.
    rewrite Z.sub_diag, Z.pow_0_r in *.
    replace (ex - (ex + e)) with (0 - e) by lia.
    revert H1. generalize (2 ^ (0 - e)). intros a Ha. nia.
Qed.

Lemma SFleb_one_dyadic (m : positive) (e : Z) :
  bounded prec emax m e = true →
  SFleb SFone (S754_finite false m e) = true →
  dyadic_le 1 0 (Z.pos m) e.
Proof.
  intros Hb Hle.
  apply (SFleb_dyadic 4503599627370496 m (-52) e eq_refl Hb) in Hle.
  by apply (dyadic_le_shift_l 1 0 _ _ 52) in Hle.
Qed.

(** For a base that is at least one the powers 1, 2, 3 are at least one and
    do not decrease. *)
Lemma SFpown_mono (a : spec_float) :
  valid_binary a = true → SFleb SFone a = true →
  SFleb SFone (F64.SFpown a 1) = true ∧
  SFleb (F64.SFpown a 1) (F64.SFpown a 2) = true ∧
  SFleb (F64.SFpown a 2) (F64.SFpown a 3) = true.
Proof.
  intros Va H1. destruct a as [[]|[]| |[] m e]; try done. simpl in Va.
  pose proof (SFleb_one_dyadic m e Va H1) as Hd.
  unfold F64.SFpown. simpl andb.
  assert (dyadic_le (Z.pos m) e (Z.pos (m ^ 2)) (e * 2)) as H12.
  { rewrite Pos2Z.inj_pow, Z.pow_2_r. replace (e * 2) with (e + e) by lia.
    by apply dyadic_le_mul_ge1. }
  assert (dyadic_le (Z.pos (m ^ 2)) (e * 2) (Z.pos (m ^ 3)) (e * 3)) as H23.
  { rewrite !Pos2Z.inj_pow. change (Z.pos 3) with (Z.succ 2).
    rewrite Z.pow_succ_r by lia. rewrite (Z.mul_comm (Z.pos m)).
    replace (e * Z.succ 2) with (e * 2 + e) by lia.
    apply dyadic_le_mul_ge1; [|done].
    apply Z.pow_nonneg. lia. }
  rewrite Pos.pow_1_r, Z.mul_1_r.
  split; [|split].
  - change SFone with (binary_round prec emax false 4503599627370496 (-52)).
    apply binary_round_mono.
    by apply (dyadic_le_shift_l 1 0 _ _ 52).
  - by apply binary_round_mono.
  - by apply binary_round_mono.
Qed.

(** *** Division *)

Lemma loc_code_new_location (D r : Z) :
  Z.even D = true →
  loc_code (new_location D r) =
  (if r =? 0 then 0 else match 2 * r ?= D with Lt => 1 | Eq => 2 | Gt => 3 end).
Proof.
  intros HD. unfold new_location. rewrite HD. unfold new_location_even.
  destruct (r =? 0); [done|]. by destruct (2 * r ?= D).
Qed.

Lemma encdiv_mono (N1 N2 D : Z) :
  0 < D → N1 ≤ N2 → encdiv N1 D ≤ encdiv N2 D.
Proof.
  intros HD HN. unfold encdiv.
  pose proof (Z.div_mod N1 D ltac:(lia)). pose proof (Z.mod_pos_bound N1 D HD).
  pose proof (Z.div_mod N2 D ltac:(lia)). pose proof (Z.mod_pos_bound N2 D HD).
  assert (N1 / D ≤ N2 / D) by (apply Z.div_le_mono; lia).
  generalize dependent (N1 / D). generalize dependent (N2 / D).
  generalize dependent (N1 mod D). generalize dependent (N2 mod D).
  intros r2 ? r1 ? q2 ? q1 ? ?.
  destruct (Z.eqb_spec r1 0), (Z.eqb_spec r2 0),
    (Z.compare_spec (2 * r1) D), (Z.compare_spec (2 * r2) D); nia.
Qed.

Lemma encdiv_halve (N D : Z) :
  0 < D → 0 ≤ N → sticky_shift 1 (encdiv (2 * N) D) = encdiv N D.
Proof.
  intros HD HN. rewrite sticky_shift_1. unfold encdiv.
  pose proof (Z.div_mod N D ltac:(lia)) as Hdm.
  pose proof (Z.mod_pos_bound N D HD) as Hr.
  set (q := N / D) in *. set (r := N mod D) in *.
  assert (0 ≤ q) as Hq by (subst q; apply Z.div_pos; lia).
  destruct (Z.compare_spec (2 * r) D) as [Heq|Hlt|Hgt].
  - assert (2 * N / D = 2 * q + 1) as ->
      by (symmetry; apply (Z.div_unique _ _ _ 0); lia).
    assert ((2 * N) mod D = 0) as ->
      by (symmetry; apply (Z.mod_unique _ _ (2 * q + 1)); lia).
    simpl (0 =? 0). destruct (Z.eqb_spec r 0); [lia|].
    match goal with |- context [(?c mod 4 =? 0)] =>
      destruct (Z.eqb_spec (c mod 4) 0) end; Z.div_mod_to_equations; lia.
  - assert (2 * N / D = 2 * q) as ->
      by (symmetry; apply (Z.div_unique _ _ _ (2 * r)); lia).
    assert ((2 * N) mod D = 2 * r) as ->
      by (symmetry; apply (Z.mod_unique _ _ (2 * q)); lia).
    destruct (Z.eqb_spec r 0), (Z.eqb_spec (2 * r) 0); try lia;
      destruct (2 * (2 * r) ?= D);
      match goal with |- context [(?c mod 4 =? 0)] =>
        destruct (Z.eqb_spec (c mod 4) 0) end; Z.div_mod_to_equations; lia.
  - assert (2 * N / D = 2 * q + 1) as ->
      by (symmetry; apply (Z.div_unique _ _ _ (2 * r - D)); lia).
    assert ((2 * N) mod D = 2 * r - D) as ->
      by (symmetry; apply (Z.mod_unique _ _ (2 * q + 1)); lia).
    destruct (Z.eqb_spec r 0), (Z.eqb_spec (2 * r - D) 0); try lia;
      destruct (2 * (2 * r - D) ?= D);
      match goal with |- context [(?c mod 4 =? 0)] =>
        destruct (Z.eqb_spec (c mod 4) 0) end; Z.div_mod_to_equations; lia.
Qed.

Lemma encdiv_nonneg (N D : Z) : 0 < D → 0 ≤ N → 0 ≤ encdiv N D.
Proof.
  intros HD HN. unfold encdiv.
  assert (0 ≤ N / D) by (apply Z.div_pos; lia).
  destruct (_ =? 0); [lia|]. destruct (_ ?= _); lia.
Qed.

Lemma encdiv_div4 (N D : Z) : 0 < D → encdiv N D / 4 = N / D.
Proof.
  intros HD. unfold encdiv.
  destruct (_ =? 0); [|destruct (_ ?= _)]; Z.div_mod_to_equations; lia.
Qed.

(** A quotient computed with [k] more bits shifts back to the quotient. *)
Lemma encdiv_shift (N D k : Z) :
  0 < D → 0 ≤ N → 0 ≤ k →
  sticky_shift k (encdiv (N * 2 ^ k) D) = encdiv N D.
Proof.
  intros HD HN Hk. revert N HN.
  pattern k. apply natlike_ind; [| |done].
  - intros N HN. by rewrite sticky_shift_0, Z.pow_0_r, Z.mul_1_r.
  - intros j Hj IH N HN.
    rewrite Z.pow_succ_r by done.
    replace (N * (2 * 2 ^ j)) with ((2 * N) * 2 ^ j) by lia.
    replace (Z.succ j) with (j + 1) by lia.
    rewrite <- sticky_shift_add; [|lia..|].
    + rewrite IH by lia. by apply encdiv_halve.
    + apply encdiv_nonneg; [done|]. pose proof (pow2_pos j Hj). nia.
Qed.

Lemma fexp_mono (d1 d2 : Z) : d1 ≤ d2 → fexp prec emax d1 ≤ fexp prec emax d2.
Proof. intros H. rewrite !fexp_eq. lia. Qed.

Lemma SFdiv_core_binary_spec (m1 m2 : positive) (e1 e2 : Z) :
  let e' := div_exp (Z.pos m1) e1 (Z.pos m2) e2 in
  let N := Z.pos m1 * 2 ^ (e1 - e2 - e') in
  SFdiv_core_binary prec emax (Z.pos m1) e1 (Z.pos m2) e2 =
  (N / Z.pos m2, e', new_location (Z.pos m2) (N mod Z.pos m2)).
Proof.
  intros e' N. unfold SFdiv_core_binary. fold (div_exp (Z.pos m1) e1 (Z.pos m2) e2).
  fold e'.
  assert (0 ≤ e1 - e2 - e') as Hs by (subst e'; unfold div_exp; lia).
  assert (match e1 - e2 - e' with
          | 0 => Z.pos m1
          | Z.pos _ => Z.shiftl (Z.pos m1) (e1 - e2 - e')
          | Z.neg _ => 0
          end = N) as ->.
  { subst N. destruct (e1 - e2 - e') as [|s|s] eqn:E; [|by rewrite Z.shiftl_mul_pow2|lia].
    by rewrite Z.mul_1_r. }
  unfold Z.div, Z.modulo. by destruct (Z.div_eucl N (Z.pos m2)).
Qed.

(** The quotient of the mantissas has the bits that rounding needs. *)
Lemma div_aligned (m1 m2 : positive) (e1 e2 : Z) :
  let e' := div_exp (Z.pos m1) e1 (Z.pos m2) e2 in
  let N := Z.pos m1 * 2 ^ (e1 - e2 - e') in
  e' ≤ fexp prec emax (Zdigits2 (N / Z.pos m2) + e').
Proof.
  intros e' N.
  assert (0 ≤ e1 - e2 - e') as Hs by (subst e'; unfold div_exp; lia).
  set (s := e1 - e2 - e') in *.
  set (d1 := Zdigits2 (Z.pos m1)). set (d2 := Zdigits2 (Z.pos m2)).
  assert (e' ≤ fexp prec emax (d1 + e1 - (d2 + e2))) as He'
    by (subst e'; unfold div_exp; fold d1 d2; lia).
  etrans; [exact He'|]. apply fexp_mono.
  assert (d1 + s - d2 ≤ Zdigits2 (N / Z.pos m2)); [|lia].
  pose proof (Zdigits2_bounds (Z.pos m1) ltac:(done)) as [Hlo1 _].
  pose proof (Zdigits2_bounds (Z.pos m2) ltac:(done)) as [_ Hhi2].
  fold d1 in Hlo1. fold d2 in Hhi2.
  assert (1 ≤ d1 ∧ 1 ≤ d2) as [Hd1 Hd2] by (subst d1 d2; simpl; lia).
  pose proof (Zdigits2_nonneg (N / Z.pos m2)).
  destruct (Z.le_gt_cases (d1 + s - d2) 0) as [Hle|Hgt]; [lia|].
  assert (2 ^ (d1 + s - d2 - 1) ≤ N / Z.pos m2) as Hq.
  { apply Z.div_le_lower_bound; [done|]. subst N.
    pose proof (pow2_pos (d1 + s - d2 - 1) ltac:(lia)) as Hp.
    pose proof (pow2_pos s Hs) as Hps.
    assert (Z.pos m2 * 2 ^ (d1 + s - d2 - 1) ≤ 2 ^ d2 * 2 ^ (d1 + s - d2 - 1)) as H1
      by (apply Z.mul_le_mono_nonneg_r; lia).
    rewrite <- Z.pow_add_r in H1 by lia.
    replace (d2 + (d1 + s - d2 - 1)) with ((d1 - 1) + s) in H1 by lia.
    rewrite Z.pow_add_r in H1 by lia.
    assert (2 ^ (d1 - 1) * 2 ^ s ≤ Z.pos m1 * 2 ^ s)
      by (apply Z.mul_le_mono_nonneg_r; lia).
    lia. }
  apply Zdigits2_ge; [|done].
  pose proof (pow2_pos (d1 + s - d2 - 1) ltac:(lia)). lia.
Qed.

(** The quotient of two positive binary64 values, for a divisor with an even
    mantissa, is the rounded encoded quotient of the mantissas. *)
Lemma SFdiv_finite (m1 m2 : positive) (e1 e2 : Z) :
  Z.even (Z.pos m2) = true →
  SFdiv prec emax (S754_finite false m1 e1) (S754_finite false m2 e2) =
  round_enc false
    (encdiv (Z.pos m1 * 2 ^ (e1 - e2 - div_exp (Z.pos m1) e1 (Z.pos m2) e2)) (Z.pos m2))
    (div_exp (Z.pos m1) e1 (Z.pos m2) e2).
Proof.
  intros Heven. unfold SFdiv. rewrite SFdiv_core_binary_spec. simpl xorb.
  pose proof (div_aligned m1 m2 e1 e2) as Hal. simpl in Hal.
  set (e' := div_exp (Z.pos m1) e1 (Z.pos m2) e2) in *.
  set (N := Z.pos m1 * 2 ^ (e1 - e2 - e')) in *.
  assert (0 ≤ e1 - e2 - e') as Hs by (subst e'; unfold div_exp; lia).
  assert (0 ≤ N) as HN by (subst N; pose proof (pow2_pos _ Hs); lia).
  rewrite binary_round_aux_enc; [|by apply Z.div_pos|done].
  by rewrite loc_code_new_location.
Qed.

Lemma SFdiv_finite_nonneg (m1 m2 : positive) (e1 e2 : Z) :
  Z.even (Z.pos m2) = true →
  SFnonneg (SFdiv prec emax (S754_finite false m1 e1) (S754_finite false m2 e2))
    = true.
Proof.
  intros Heven. rewrite SFdiv_finite by done.
  set (e' := div_exp (Z.pos m1) e1 (Z.pos m2) e2).
  assert (0 ≤ e1 - e2 - e') as Hs by (subst e'; unfold div_exp; lia).
  pose proof (pow2_pos _ Hs).
  apply round_enc_nonneg; [apply encdiv_nonneg; lia|].
  rewrite encdiv_div4 by done. apply div_aligned.
Qed.

(** Division by a fixed divisor is monotone on positive binary64 values. *)
Lemma SFdiv_finite_mono (m1 m2 mc : positive) (e1 e2 ec : Z) :
  Z.even (Z.pos mc) = true →
  dyadic_le (Z.pos m1) e1 (Z.pos m2) e2 →
  SFleb (SFdiv prec emax (S754_finite false m1 e1) (S754_finite false mc ec))
    (SFdiv prec emax (S754_finite false m2 e2) (S754_finite false mc ec)) = true.
Proof.
  intros Heven Hle. rewrite !SFdiv_finite by done.
  pose proof (div_aligned m1 mc e1 ec) as A1.
  pose proof (div_aligned m2 mc e2 ec) as A2. simpl in A1, A2.
  set (e1' := div_exp (Z.pos m1) e1 (Z.pos mc) ec) in *.
  set (e2' := div_exp (Z.pos m2) e2 (Z.pos mc) ec) in *.
  assert (0 ≤ e1 - ec - e1') as Hs1 by (subst e1'; unfold div_exp; lia).
  assert (0 ≤ e2 - ec - e2') as Hs2 by (subst e2'; unfold div_exp; lia).
  set (E := Z.min e1' e2').
  set (N1 := Z.pos m1 * 2 ^ (e1 - ec - e1')) in *.
  set (N2 := Z.pos m2 * 2 ^ (e2 - ec - e2')) in *.
  assert (0 ≤ N1 ∧ 0 ≤ N2) as [HN1 HN2].
  { subst N1 N2. pose proof (pow2_pos _ Hs1). pose proof (pow2_pos _ Hs2). lia. }
  pose proof (pow2_pos (e1' - E) ltac:(lia)) as Hp1.
  pose proof (pow2_pos (e2' - E) ltac:(lia)) as Hp2.
  destruct (round_enc_refine false (encdiv N1 (Z.pos mc))
              (encdiv (N1 * 2 ^ (e1' - E)) (Z.pos mc)) e1' (e1' - E))
    as [R1 B1]; [lia|apply encdiv_nonneg; nia|apply encdiv_shift; lia| |].
  { by rewrite encdiv_div4. }
  destruct (round_enc_refine false (encdiv N2 (Z.pos mc))
              (encdiv (N2 * 2 ^ (e2' - E)) (Z.pos mc)) e2' (e2' - E))
    as [R2 B2]; [lia|apply encdiv_nonneg; nia|apply encdiv_shift; lia| |].
  { by rewrite encdiv_div4. }
  rewrite <- R1, <- R2.
  replace (e1' - (e1' - E)) with E in * by lia.
  replace (e2' - (e2' - E)) with E in * by lia.
  apply round_enc_mono; [|done]. split; [apply encdiv_nonneg; nia|].
  apply encdiv_mono; [done|].
  subst N1 N2. rewrite <- !Z.mul_assoc, <- !Z.pow_add_r by lia.
  replace (e1 - ec - e1' + (e1' - E)) with (e1 - (ec + E)) by lia.
  replace (e2 - ec - e2' + (e2' - E)) with (e2 - (ec + E)) by lia.
  apply (dyadic_le_at (ec + E)); [lia..|done].
Qed.

Lemma SFdiv_mono_l (x1 x2 c : spec_float) :
  valid_binary x1 = true → valid_binary x2 = true →
  SFnonneg x1 = true → SFnonneg x2 = true →
  (∃ mc ec, c = S754_finite false mc ec ∧ Z.even (Z.pos mc) = true) →
  SFleb x1 x2 = true →
  SFleb (SFdiv prec emax x1 c) (SFdiv prec emax x2 c) = true.
Proof.
  intros V1 V2 N1 N2 (mc & ec & -> & Heven) Hle.
  destruct x1 as [s1|[]| |[] m1 e1]; try done.
  - simpl. apply SFleb_zero_l.
    destruct x2 as [s2|[]| |[] m2 e2]; try done.
    by apply SFdiv_finite_nonneg.
  - by apply SFleb_inf_l in Hle as ->.
  - destruct x2 as [s2|[]| |[] m2 e2]; try done.
    + apply SFleb_inf_r. by apply SFdiv_finite_nonneg.
    + apply SFdiv_finite_mono; [done|]. by apply SFleb_dyadic.
Qed.

End rounding_order.

(** ** How far rounding moves a number *)

Section rounding_error.
Local Open Scope Z_scope.

Lemma rne_upper (c : Z) : 4 * rne c ≤ c + 2.
Proof.
  unfold rne.
  destruct (Z.leb_spec (c mod 4) 1), (Z.eqb_spec (c mod 4) 2), (Z.even (c / 4));
    Z.div_mod_to_equations; lia.
Qed.

Lemma sticky_shift_upper (n c : Z) :
  0 ≤ n → 0 ≤ c → sticky_shift n c * 2 ^ n ≤ c + 2 ^ n.
Proof.
  intros Hn Hc. unfold sticky_shift.
  rewrite Z.pow_add_r by lia. change (2 ^ 1) with 2.
  pose proof (pow2_pos n Hn) as Hp.
  generalize dependent (2 ^ n). intros a Ha.
  destruct (Z.eqb_spec (c mod (a * 2)) 0); Z.div_mod_to_equations; nia.
Qed.

(** The mantissa and exponent of a rounded number in the normal range: the
    result is at most the input increased by 2^-52 of itself, and an
    overflow happens only from 2^1023 on. *)
Lemma round_enc_normal (X e : Z) :
  0 < X → e ≤ fexp prec emax (Zdigits2 X + e) → -1074 ≤ Zdigits2 X + e - 53 →
  let n := Zdigits2 X - 53 in
  let r := rne (sticky_shift n (4 * X)) in
  0 ≤ n ∧ 2 ^ (52 + n) ≤ X ∧ 2 ^ 52 ≤ r ≤ 2 ^ 53 ∧
  r * 2 ^ n * 2 ^ 52 ≤ X * (2 ^ 52 + 1) ∧
  round_enc false (4 * X) e =
    (let '(m', e') := renorm r (e + n) in finite_or_inf false m' e').
Proof.
  intros HX Hal Hnorm n r.
  assert (4 * X / 4 = X) as Hdiv by (Z.div_mod_to_equations; lia).
  assert (fexp prec emax (Zdigits2 X + e) - e = n) as Hn
    by (rewrite fexp_eq; subst n; lia).
  assert (0 ≤ n) as Hn0 by (rewrite fexp_eq in Hal; subst n; lia).
  pose proof (Zdigits2_bounds X HX) as [Hlo Hhi].
  replace (Zdigits2 X - 1) with (52 + n) in Hlo by (subst n; lia).
  replace (Zdigits2 X) with (53 + n) in Hhi by (subst n; lia).
  assert (0 ≤ r ≤ 2 ^ 53) as Hr.
  { apply rne_sticky_shift_bound; [done|lia|]. by rewrite Hdiv. }
  assert (2 ^ 52 ≤ r) as Hr52.
  { etrans; [|apply rne_lower].
    rewrite sticky_shift_div4, Hdiv by lia.
    apply Z.div_le_lower_bound; [by apply pow2_pos|].
    rewrite <- Z.pow_add_r by lia. by rewrite (Z.add_comm n). }
  split; [done|]. split; [done|]. split; [lia|]. split.
  - pose proof (rne_upper (sticky_shift n (4 * X))) as Hu. fold r in Hu.
    pose proof (sticky_shift_upper n (4 * X) Hn0 ltac:(lia)) as Hs.
    rewrite Z.pow_add_r in Hlo by lia.
    pose proof (pow2_pos n Hn0) as Hp.
    assert (4 * r * 2 ^ n ≤ (sticky_shift n (4 * X) + 2) * 2 ^ n) as Hm
      by (apply Z.mul_le_mono_nonneg_r; lia).
    rewrite Z.mul_add_distr_r in Hm.
    replace (r * 2 ^ n * 2 ^ 52) with (2 ^ 52 * (r * 2 ^ n)) by lia.
    replace (4 * r * 2 ^ n) with (4 * (r * 2 ^ n)) in Hm by lia.
    generalize dependent (r * 2 ^ n). intros ra.
    generalize dependent (sticky_shift n (4 * X) * 2 ^ n). intros sa.
    generalize dependent (2 ^ n). intros a.
    change (2 ^ 52) with 4503599627370496. intros. lia.
  - rewrite round_enc_renorm. cbv zeta. rewrite Hdiv, Hn. done.
Qed.

(** A base that is at least one: its rounded square is not above its exact
    cube, and where the square overflows the exact cube is 2^1024 or more. *)
Lemma SFmul_square_le_cube (m : positive) (e : Z) :
  bounded prec emax m e = true →
  SFleb SFone (S754_finite false m e) = true →
  match SFmul prec emax (S754_finite false m e) (S754_finite false m e) with
  | S754_finite false m2 e2 => dyadic_le (Z.pos m2) e2 (Z.pos m ^ 3) (e * 3)
  | S754_infinity false => dyadic_le 1 1024 (Z.pos m ^ 3) (e * 3)
  | _ => False
  end.
Proof.
  intros Hb H1.
  destruct (decide (m = 4503599627370496%positive ∧ e = -52)) as [[-> ->]|Hne].
  { vm_compute. intros [=]. }
  pose proof H1 as He%SFleb_finite.
  pose proof (bounded_inv _ _ Hb) as (_ & _ & _ & Hm53).
  pose proof (bounded_normal _ _ Hb ltac:(lia)) as Hm52.
  assert (-52 ≤ e) as He52 by lia.
  set (t := 2 ^ (e + 52)).
  assert (2 ^ 52 + 1 ≤ Z.pos m * t) as Hgt.
  { subst t. destruct (decide (e = -52)) as [->|].
    - change (2 ^ (-52 + 52)) with 1. rewrite Z.mul_1_r.
      assert (Z.pos m ≠ 2 ^ 52) by (intros E; apply Hne; split; [|done]; lia).
      lia.
    - assert (2 ^ 1 ≤ 2 ^ (e + 52)) by (apply Z.pow_le_mono_r; lia).
      change (2 ^ 1) with 2 in *. change (2 ^ 52) with 4503599627370496 in *.
      nia. }
  destruct (SFmul_finite m m e e Hb Hb) as [-> Hal].
  set (X := Z.pos (m * m)) in *.
  assert (X = Z.pos m * Z.pos m) as HX by (subst X; lia).
  assert (2 ^ 104 ≤ X < 2 ^ 106) as [HX0 HX1].
  { change (2 ^ 104) with (2 ^ 52 * 2 ^ 52). change (2 ^ 106) with (2 ^ 53 * 2 ^ 53).
    rewrite HX. split; nia. }
  assert (105 ≤ Zdigits2 X ≤ 106) as Hd.
  { split; [apply Zdigits2_ge; [lia|done]|apply Zdigits2_le; [lia|done]]. }
  destruct (round_enc_normal X (e + e) ltac:(lia) Hal ltac:(lia))
    as (Hn0 & HXn & Hr & Hup & ->).
  set (n := Zdigits2 X - 53) in *.
  set (r := rne (sticky_shift n (4 * X))) in *.
  unfold renorm.
  assert (∀ m' e', 0 < m' → m' * 2 ^ (e' - (e + e + n)) = r →
    e + e + n ≤ e' ≤ e + e + n + 1 →
    match finite_or_inf false m' e' with
    | S754_finite false m2 e2 => dyadic_le (Z.pos m2) e2 (Z.pos m ^ 3) (e * 3)
    | S754_infinity false => dyadic_le 1 1024 (Z.pos m ^ 3) (e * 3)
    | _ => False
    end) as Hcase.
  { intros m' e' Hm' Hval He'. destruct m' as [|p|p]; try lia. simpl.
    destruct (Z.leb_spec e' (emax - prec)) as [Hle|Hgt'].
    - apply (dyadic_le_at (e + e - 52)); [lia..|].
      assert (Z.pos p * 2 ^ (e' - (e + e - 52)) = r * 2 ^ n * 2 ^ 52) as ->.
      { rewrite <- Hval.
        replace (e' - (e + e - 52)) with ((e' - (e + e + n)) + (n + 52)) by lia.
        rewrite !Z.pow_add_r by lia. ring. }
      assert (Z.pos m ^ 3 * 2 ^ (e * 3 - (e + e - 52)) = X * (Z.pos m * t)) as ->.
      { replace (e * 3 - (e + e - 52)) with (e + 52) by lia.
        rewrite HX. subst t. ring. }
      etrans; [exact Hup|]. apply Z.mul_le_mono_nonneg_l; lia.
    - change (emax - prec) with 971 in Hgt'.
      assert (1024 ≤ e * 3) by (subst n; lia).
      apply (dyadic_le_at 1024); [lia..|].
      rewrite Z.sub_diag, Z.pow_0_r.
      pose proof (pow2_pos (e * 3 - 1024) ltac:(lia)).
      assert (1 ≤ Z.pos m ^ 3) by (apply (Z.pow_le_mono_l 1 (Z.pos m) 3); lia).
      nia. }
  destruct (Z.eqb_spec r (2 ^ 53)) as [Heq|Hneq].
  - apply Hcase; [done| |lia].
    replace (e + e + n + 1 - (e + e + n)) with 1 by lia. by rewrite Heq.
  - apply Hcase; [lia| |lia].
    by rewrite Z.sub_diag, Z.mul_1_r.
Qed.

End rounding_error.

(** ** NaN propagation through the operations *)

Lemma SFis_nan_false (x : spec_float) : x ≠ S754_nan → SFis_nan x = false.
Proof. by destruct x. Qed.

Section nan_propagation.
Variables prec emax : Z.

Lemma SFadd_is_nan_finite_l (x y : spec_float) :
  SFis_finite x = true →
  SFis_nan (SFadd prec emax x y) = SFis_nan y.
Proof.
  destruct x as [| | |sx mx ex]; try done. intros _.
  destruct y as [sy|sy| |sy my ey]; try done.
  apply SFis_nan_false, binary_normalize_not_nan.
Qed.

Lemma SFadd_is_nan_finite_r (x y : spec_float) :
  SFis_finite y = true →
  SFis_nan (SFadd prec emax x y) = SFis_nan x.
Proof.
  destruct y as [| | |sy my ey]; try done. intros _.
  destruct x as [sx|sx| |sx mx ex]; try done.
  apply SFis_nan_false, binary_normalize_not_nan.
Qed.

Lemma SFsub_is_nan_finite_r (x y : spec_float) :
  SFis_finite y = true →
  SFis_nan (SFsub prec emax x y) = SFis_nan x.
Proof.
  destruct y as [| | |sy my ey]; try done. intros _.
  destruct x as [sx|sx| |sx mx ex]; try done.
  apply SFis_nan_false, binary_normalize_not_nan.
Qed.

(** A product is NaN exactly when an operand is, or when it is zero times
    infinity. *)
Lemma SFmul_is_nan (x y : spec_float) :
  SFis_nan (SFmul prec emax x y) =
  SFis_nan x || SFis_nan y
  || (SFis_zero x && SFis_inf y) || (SFis_inf x && SFis_zero y).
Proof.
  destruct x as [sx|sx| |sx mx ex], y as [sy|sy| |sy my ey]; try done.
  simpl. by apply SFis_nan_false, binary_round_aux_not_nan.
Qed.

Lemma SFdiv_core_binary_nonneg (m1 m2 : positive) (e1 e2 : Z) :
  (0 ≤ (SFdiv_core_binary prec emax (Z.pos m1) e1 (Z.pos m2) e2).1.1)%Z.
Proof.
  unfold SFdiv_core_binary.
  set (s := (e1 - e2 - _)%Z).
  set (m' := match s with Z.pos _ => Z.shiftl (Z.pos m1) s | 0%Z => Z.pos m1 | _ => 0%Z end).
  assert (0 ≤ m')%Z as Hm'.
  { subst m'. destruct s; try lia. by apply Z.shiftl_nonneg. }
  pose proof (Z.div_pos m' (Z.pos m2) Hm' eq_refl) as Hq.
  unfold Z.div in Hq.
  by destruct (Z.div_eucl m' (Z.pos m2)) as [q r].
Qed.

Lemma SFdiv_is_nan_finite_r (x y : spec_float) :
  SFis_finite y = true →
  SFis_nan (SFdiv prec emax x y) = SFis_nan x.
Proof.
  destruct y as [| | |sy my ey]; try done. intros _.
  destruct x as [sx|sx| |sx mx ex]; try done.
  unfold SFdiv.
  pose proof (SFdiv_core_binary_nonneg mx my ex ey) as Hq.
  destruct (SFdiv_core_binary _ _ _ _ _ _) as [[mz ez] lz].
  by apply SFis_nan_false, binary_round_aux_not_nan.
Qed.

Lemma SFldexp_is_nan (x : spec_float) (e : Z) :
  SFis_nan (SFldexp prec emax x e) = SFis_nan x.
Proof.
  destruct x; try done. apply SFis_nan_false, binary_round_not_nan.
Qed.
End nan_propagation.

Lemma SFopp_is_nan (x : spec_float) : SFis_nan (SFopp x) = SFis_nan x.
Proof. by destruct x. Qed.

Lemma SFabs_is_nan (x : spec_float) : SFis_nan (SFabs x) = SFis_nan x.
Proof. by destruct x. Qed.

Lemma SFpown_is_nan (x : spec_float) (k : positive) :
SFis_nan (F64.SFpown x k) = SFis_nan x.
Proof.
destruct x; try done. apply SFis_nan_false, binary_round_not_nan.
Qed.

(** ** The primitive operations, through their specification *)

Lemma is_nan_spec (x : float) : is_nan x = SFis_nan (Prim2SF x).
Proof.
  unfold is_nan. rewrite FloatAxioms.eqb_spec. unfold SFeqb.
  destruct (SFis_nan (Prim2SF x)) eqn:E.
  - by destruct (Prim2SF x).
  - by rewrite SFcompare_refl.
Qed.

Lemma is_zero_spec (x : float) : is_zero x = SFis_zero (Prim2SF x).
Proof.
  unfold is_zero. rewrite FloatAxioms.eqb_spec. unfold SFeqb.
  change (Prim2SF zero) with (S754_zero false).
  by destruct (Prim2SF x) as [[]|[]| |[] m e].
Qed.

Lemma is_infinity_spec (x : float) : is_infinity x = SFis_inf (Prim2SF x).
Proof.
  unfold is_infinity. rewrite FloatAxioms.eqb_spec, abs_spec. unfold SFeqb.
  change (Prim2SF infinity) with (S754_infinity false).
  by destruct (Prim2SF x) as [[]|[]| |[] m e].
Qed.

(** Binary64 as Rocq has it carries one NaN. *)
Lemma is_nan_inv (x : float) : is_nan x = true → x = nan.
Proof.
  rewrite is_nan_spec. intros H. apply Prim2SF_inj.
  change (Prim2SF nan) with S754_nan. by destruct (Prim2SF x).
Qed.

Lemma add_is_nan_l (c x : float) :
  SFis_finite (Prim2SF c) = true → is_nan (c + x) = is_nan x.
Proof.
  intros Hc. rewrite !is_nan_spec, add_spec. by apply SFadd_is_nan_finite_l.
Qed.

Lemma add_is_nan_r (x c : float) :
  SFis_finite (Prim2SF c) = true → is_nan (x + c) = is_nan x.
Proof.
  intros Hc. rewrite !is_nan_spec, add_spec. by apply SFadd_is_nan_finite_r.
Qed.

Lemma sub_is_nan_r (x c : float) :
  SFis_finite (Prim2SF c) = true → is_nan (x - c) = is_nan x.
Proof.
  intros Hc. rewrite !is_nan_spec, sub_spec. by apply SFsub_is_nan_finite_r.
Qed.

Lemma div_is_nan_r (x c : float) :
  SFis_finite (Prim2SF c) = true → is_nan (x / c) = is_nan x.
Proof.
  intros Hc. rewrite !is_nan_spec, div_spec. by apply SFdiv_is_nan_finite_r.
Qed.

Lemma mul_is_nan (x y : float) :
  is_nan (x * y) = is_nan x || is_nan y || F64.zero_times_inf x y.
Proof.
  unfold F64.zero_times_inf.
  rewrite !is_nan_spec, !is_zero_spec, !is_infinity_spec, mul_spec.
  unfold SF64mul. rewrite SFmul_is_nan.
  by destruct (Prim2SF x), (Prim2SF y).
Qed.

Lemma opp_is_nan (x : float) : is_nan (- x) = is_nan x.
Proof. by rewrite !is_nan_spec, opp_spec, SFopp_is_nan. Qed.

Lemma abs_is_nan (x : float) : is_nan (abs x) = is_nan x.
Proof. by rewrite !is_nan_spec, abs_spec, SFabs_is_nan. Qed.

Lemma SF2Prim_is_nan (y : spec_float) : is_nan (SF2Prim y) = SFis_nan y.
Proof.
  destruct y as [[]|[]| |s m e]; try done.
  unfold SF2Prim.
  assert (is_nan (Z.ldexp (of_uint63 (Uint63.of_Z (Z.pos m))) e) = false) as H.
  { rewrite is_nan_spec, Z_ldexp_spec, SFldexp_is_nan, of_uint63_spec.
    apply SFis_nan_false, binary_normalize_not_nan. }
  destruct s; [by rewrite opp_is_nan|done].
Qed.

Lemma pow_cr_is_nan (x : float) (k : positive) :
  is_nan (F64.pow_cr x k) = is_nan x.
Proof.
  unfold F64.pow_cr. by rewrite SF2Prim_is_nan, SFpown_is_nan, is_nan_spec.
Qed.

Lemma rint_is_nan (x : float) : is_nan (F64.rint x) = is_nan x.
Proof.
  unfold F64.rint.
  destruct (abs x <? F64.two52)%float eqn:E; [|done].
  assert (is_nan (abs x + F64.two52 - F64.two52) = is_nan x) as H.
  { by rewrite sub_is_nan_r, add_is_nan_r, abs_is_nan. }
  destruct (get_sign x); [by rewrite opp_is_nan|done].
Qed.

Lemma np_round_2_is_nan (x : float) : is_nan (F64.np_round 2 x) = is_nan x.
Proof.
  unfold F64.np_round.
  change (F64.power_of_ten 2) with 100%float.
  rewrite div_is_nan_r, rint_is_nan, mul_is_nan by done.
  unfold F64.zero_times_inf.
  change (is_nan 100) with false. change (is_zero 100) with false.
  change (is_infinity 100) with false.
  by rewrite !andb_false_r, !orb_false_r.
Qed.

Lemma square_is_nan (x : float) : is_nan (x * x) = is_nan x.
Proof.
  rewrite mul_is_nan. unfold F64.zero_times_inf.
  rewrite is_nan_spec, is_zero_spec, is_infinity_spec.
  by destruct (Prim2SF x).
Qed.

(** A power is missing exactly when its base is: for the fast paths of the
    exponents 1 and 2 by IEEE-754, for the platform's [pow] by Annex F. *)
Lemma power_is_nan (x : float) (k : positive) :
  is_nan (F64.power x k) = is_nan x.
Proof.
  destruct k as [k|[k|k|]|]; simpl; try apply F64.pow_nan; [|done].
  apply square_is_nan.
Qed.

(** A forecast is missing exactly when an operand is, or when the product
    of the price with the growth factor is zero times infinity. *)
Lemma forecast_is_nan (price cagr : float) (k : positive) :
  is_nan (F64.forecast price cagr k) =
  is_nan price || is_nan cagr
  || F64.zero_times_inf price (F64.power (1 + cagr) k).
Proof.
  unfold F64.forecast.
  by rewrite np_round_2_is_nan, mul_is_nan, power_is_nan, add_is_nan_l.
Qed.

Lemma mul_one_r (x : float) : (x * 1)%float = x.
Proof.
  apply Prim2SF_inj. rewrite mul_spec.
  change (Prim2SF 1) with (S754_finite false 4503599627370496 (-52)).
  apply SFmul_one_r, Prim2SF_valid.
Qed.

(** The two zeros are the values that compare equal to zero. *)
Lemma eqb_zero_inv (x : float) :
  (x =? 0)%float = true → x = 0%float ∨ x = (-0)%float.
Proof.
  rewrite FloatAxioms.eqb_spec. change (Prim2SF 0) with (S754_zero false).
  intros H. rewrite <- (SF2Prim_Prim2SF x).
  destruct (Prim2SF x) as [[]|[]| |[] m e]; try discriminate H; auto.
Qed.

(** With a zero rate the growth factor is one at every horizon and the
    forecast is the rounded price. *)
Lemma forecast_zero_rate (p g : float) (k : positive) :
  (g =? 0)%float = true → (k ≤ 3)%positive →
  F64.forecast p g k = F64.np_round 2 p.
Proof.
  intros Hg Hk. unfold F64.forecast.
  assert (F64.power (1 + g) k = 1%float) as ->; [|by rewrite mul_one_r].
  assert (k = 1 ∨ k = 2 ∨ k = 3)%positive as Hk' by lia.
  assert ((1 + g)%float = 1%float) as ->
    by (by destruct (eqb_zero_inv g Hg) as [-> | ->]).
  destruct Hk' as [->|[->| ->]]; [done..|]. apply F64.pow_one.
Qed.

(** ** Monotonicity of the primitive operations *)

Lemma SFleb_nonneg_r (x y : spec_float) :
  SFnonneg x = true → SFleb x y = true → SFnonneg y = true.
Proof. by destruct x as [[]|[]| |[]], y as [[]|[]| |[]]. Qed.

Lemma leb_zero_nonneg (x : float) :
  (0 <=? x)%float = SFnonneg (Prim2SF x).
Proof. by rewrite leb_spec, <- SFleb_zero_nonneg. Qed.

Lemma leb_nonneg_r (x y : float) :
  (0 <=? x)%float = true → (x <=? y)%float = true → (0 <=? y)%float = true.
Proof.
  rewrite !leb_zero_nonneg, leb_spec. apply SFleb_nonneg_r.
Qed.

(** The comparison of non-negative values is transitive. *)
Lemma leb_trans (x y z : float) :
  (0 <=? x)%float = true → (x <=? y)%float = true → (y <=? z)%float = true →
  (x <=? z)%float = true.
Proof.
  intros Hx Hxy Hyz.
  pose proof (leb_nonneg_r _ _ Hx Hxy) as Hy.
  pose proof (leb_nonneg_r _ _ Hy Hyz) as Hz.
  rewrite leb_zero_nonneg in Hx, Hy, Hz. rewrite leb_spec in *.
  rewrite SFleb_key in * by auto using Prim2SF_valid.
  apply Z.leb_le in Hxy, Hyz. apply Z.leb_le. lia.
Qed.

Lemma ltb_false_leb (x c : float) :
  (0 <=? x)%float = true → (0 <=? c)%float = true →
  (x <? c)%float = false → (c <=? x)%float = true.
Proof.
  rewrite !leb_zero_nonneg, ltb_spec, leb_spec. intros Hx Hc H.
  rewrite SFltb_key in H by auto using Prim2SF_valid.
  rewrite SFleb_key by auto using Prim2SF_valid.
  apply Z.ltb_ge in H. by apply Z.leb_le.
Qed.

Lemma ltb_leb (x c : float) :
  (0 <=? x)%float = true → (0 <=? c)%float = true →
  (x <? c)%float = true → (x <=? c)%float = true.
Proof.
  rewrite !leb_zero_nonneg, ltb_spec, leb_spec. intros Hx Hc H.
  rewrite SFltb_key in H by auto using Prim2SF_valid.
  rewrite SFleb_key by auto using Prim2SF_valid.
  apply Z.ltb_lt in H. apply Z.leb_le. lia.
Qed.

Lemma leb_ltb_trans (x y c : float) :
  (0 <=? x)%float = true → (0 <=? c)%float = true →
  (x <=? y)%float = true → (y <? c)%float = true → (x <? c)%float = true.
Proof.
  intros Hx Hc Hxy Hyc.
  pose proof (leb_nonneg_r _ _ Hx Hxy) as Hy.
  rewrite leb_zero_nonneg in Hx, Hy, Hc. rewrite leb_spec, ltb_spec in *.
  rewrite SFleb_key in Hxy by auto using Prim2SF_valid.
  rewrite SFltb_key in * by auto using Prim2SF_valid.
  apply Z.leb_le in Hxy. apply Z.ltb_lt in Hyc. apply Z.ltb_lt. lia.
Qed.

(** The growth factor of a non-negative rate is at least one. *)
Lemma one_plus_ge_one (g : float) :
  (0 <=? g)%float = true → (1 <=? 1 + g)%float = true.
Proof.
  rewrite leb_zero_nonneg, leb_spec, add_spec. intros Hg.
  change (Prim2SF 1) with SFone. by apply SFadd_ge_l.
Qed.

Lemma Prim2SF_pow_cr (x : float) (k : positive) :
  Prim2SF (F64.pow_cr x k) = F64.SFpown (Prim2SF x) k.
Proof.
  unfold F64.pow_cr. apply Prim2SF_SF2Prim, SFpown_valid, Prim2SF_valid.
Qed.

Lemma pow_cr_mono (a : float) :
  (1 <=? a)%float = true →
  (1 <=? F64.pow_cr a 1)%float = true ∧
  (F64.pow_cr a 1 <=? F64.pow_cr a 2)%float = true ∧
  (F64.pow_cr a 2 <=? F64.pow_cr a 3)%float = true.
Proof.
  rewrite !leb_spec, !Prim2SF_pow_cr. change (Prim2SF 1) with SFone.
  apply SFpown_mono, Prim2SF_valid.
Qed.

Lemma leb_one_pos (a : float) :
  (1 <=? a)%float = true → (0 <=? a)%float = true ∧ is_zero a = false.
Proof.
  rewrite leb_zero_nonneg, is_zero_spec, leb_spec. change (Prim2SF 1) with SFone.
  apply SFleb_one_pos.
Qed.

Lemma mul_mono_r (p a1 a2 : float) :
  (0 <=? p)%float = true → (1 <=? a1)%float = true → (a1 <=? a2)%float = true →
  F64.zero_times_inf p a2 = false →
  (0 <=? p * a1)%float = true ∧ (p * a1 <=? p * a2)%float = true.
Proof.
  intros Hp [Ha1 Hz1]%leb_one_pos Hle Hzi.
  pose proof (leb_nonneg_r _ _ Ha1 Hle) as Ha2.
  unfold F64.zero_times_inf in Hzi. apply orb_false_elim in Hzi as [Hzi _].
  rewrite leb_zero_nonneg in *. rewrite is_zero_spec, ?is_infinity_spec in *.
  rewrite !leb_spec, !mul_spec in *.
  by apply SFmul_mono_r; auto using Prim2SF_valid.
Qed.

Lemma mul_100_mono (x1 x2 : float) :
  (0 <=? x1)%float = true → (x1 <=? x2)%float = true →
  (x1 * 100 <=? x2 * 100)%float = true.
Proof.
  intros H1 Hle. pose proof (leb_nonneg_r _ _ H1 Hle) as H2.
  rewrite leb_zero_nonneg in *. rewrite !leb_spec, !mul_spec in *.
  by apply SFmul_mono_l; auto using Prim2SF_valid.
Qed.

Lemma div_100_mono (x1 x2 : float) :
  (0 <=? x1)%float = true → (x1 <=? x2)%float = true →
  (x1 / 100 <=? x2 / 100)%float = true.
Proof.
  intros H1 Hle. pose proof (leb_nonneg_r _ _ H1 Hle) as H2.
  rewrite leb_zero_nonneg in *. rewrite !leb_spec, !div_spec in *.
  apply SFdiv_mono_l; auto using Prim2SF_valid.
  by exists 7036874417766400%positive, (-46)%Z.
Qed.

(** *** Rounding to an integer *)

Lemma is_zero_inv (x : float) :
  is_zero x = true → x = 0%float ∨ x = (-0)%float.
Proof. apply eqb_zero_inv. Qed.

(** On a positive value [rint] takes no absolute value and restores no
    sign. *)
Lemma rint_pos (x : float) :
  (0 <=? x)%float = true → is_zero x = false →
  F64.rint x =
  if (x <? F64.two52)%float then (x + F64.two52 - F64.two52)%float else x.
Proof.
  rewrite leb_zero_nonneg, is_zero_spec. intros Hx Hz.
  assert (abs x = x) as Habs.
  { apply Prim2SF_inj. rewrite abs_spec. by destruct (Prim2SF x) as [|[]| |[]]. }
  assert (get_sign x = false) as Hsign.
  { unfold get_sign. rewrite is_zero_spec, Hz, ltb_spec.
    change (Prim2SF 0) with (S754_zero false).
    by destruct (Prim2SF x) as [|[]| |[]]. }
  unfold F64.rint. by rewrite Habs, Hsign.
Qed.

Lemma rint_nonneg (x : float) :
  (0 <=? x)%float = true → (0 <=? F64.rint x)%float = true.
Proof.
  intros Hx. destruct (is_zero x) eqn:Hz.
  { by destruct (is_zero_inv x Hz) as [-> | ->]. }
  rewrite rint_pos by done.
  destruct (x <? F64.two52)%float; [|done].
  rewrite leb_zero_nonneg in *. rewrite sub_spec, add_spec.
  apply SFsub_mono_l with (y2 := SF64add (Prim2SF x) (Prim2SF F64.two52));
    auto using Prim2SF_valid.
  - rewrite <- add_spec. apply Prim2SF_valid.
  - rewrite <- add_spec. apply Prim2SF_valid.
  - by apply SFadd_nonneg.
  - by apply SFadd_nonneg.
  - by apply SFadd_ge_r; auto using Prim2SF_valid.
  - apply SFleb_refl.
    unfold SF64add. rewrite SFadd_is_nan_finite_r by done. by destruct (Prim2SF x) as [|[]| |[]].
Qed.

(** Below 2^52: add 2^52 and take it away again, monotonically. *)
Lemma add_sub_two52_mono (x1 x2 : float) :
  (0 <=? x1)%float = true → (x1 <=? x2)%float = true →
  (x1 + F64.two52 - F64.two52 <=? x2 + F64.two52 - F64.two52)%float = true.
Proof.
  intros H1 Hle. pose proof (leb_nonneg_r _ _ H1 Hle) as H2.
  rewrite leb_zero_nonneg in *. rewrite !leb_spec, !sub_spec, !add_spec in *.
  apply SFsub_mono_l; auto using Prim2SF_valid.
  - rewrite <- add_spec. apply Prim2SF_valid.
  - rewrite <- add_spec. apply Prim2SF_valid.
  - by apply SFadd_nonneg.
  - by apply SFadd_nonneg.
  - by apply SFadd_ge_r; auto using Prim2SF_valid.
  - by apply SFadd_mono_l; auto using Prim2SF_valid.
Qed.

Lemma rint_mono (x1 x2 : float) :
  (0 <=? x1)%float = true → (x1 <=? x2)%float = true →
  (F64.rint x1 <=? F64.rint x2)%float = true.
Proof.
  intros H1 Hle. pose proof (leb_nonneg_r _ _ H1 Hle) as H2.
  pose proof (rint_nonneg x2 H2) as Hr2.
  destruct (is_zero x1) eqn:Hz1.
  { rewrite leb_zero_nonneg in Hr2. rewrite leb_spec.
    destruct (is_zero_inv x1 Hz1) as [-> | ->]; by apply SFleb_zero_l. }
  assert (is_zero x2 = false) as Hz2.
  { rewrite leb_zero_nonneg, is_zero_spec, ?leb_spec in *.
    by destruct (Prim2SF x1) as [|[]| |[]], (Prim2SF x2) as [|[]| |[]]. }
  rewrite !rint_pos by done.
  assert ((0 <=? F64.two52)%float = true) as Hc by done.
  destruct (x1 <? F64.two52)%float eqn:E1, (x2 <? F64.two52)%float eqn:E2.
  - by apply add_sub_two52_mono.
  - apply leb_trans with (y := F64.two52).
    + pose proof (rint_nonneg x1 H1) as Hr1. by rewrite rint_pos, E1 in Hr1.
    + change F64.two52 with (F64.two52 + F64.two52 - F64.two52)%float at 3.
      apply add_sub_two52_mono; [done|]. by apply ltb_leb.
    + by apply ltb_false_leb.
  - by rewrite (leb_ltb_trans x1 x2 F64.two52) in E1.
  - done.
Qed.

(** numpy's rounding to two decimals is monotone on non-negative values. *)
Lemma np_round_2_mono (x1 x2 : float) :
  (0 <=? x1)%float = true → (x1 <=? x2)%float = true →
  (F64.np_round 2 x1 <=? F64.np_round 2 x2)%float = true.
Proof.
  intros H1 Hle. unfold F64.np_round.
  change (F64.power_of_ten 2) with 100%float.
  assert ((0 <=? x1 * 100)%float = true) as H100
    by (by apply (mul_100_mono 0 x1)).
  apply div_100_mono.
  - by apply rint_nonneg.
  - apply rint_mono; [done|]. by apply mul_100_mono.
Qed.

(** *** The first two powers *)

Lemma SFpown_1 (x : spec_float) :
  valid_binary x = true → F64.SFpown x 1 = x.
Proof.
  destruct x as [s|s| |s m e]; simpl; intros Hv; rewrite ?andb_true_r; try done.
  rewrite Pos.pow_1_r, Z.mul_1_r. by apply binary_round_id.
Qed.

Lemma SFpown_2 (x : spec_float) :
  valid_binary x = true → F64.SFpown x 2 = SF64mul x x.
Proof.
  unfold SF64mul.
  destruct x as [s|s| |s m e]; simpl; intros Hv;
    rewrite ?andb_false_r, ?xorb_nilpotent; try done.
  pose proof Hv as (Hd & He & Hn & _)%bounded_inv.
  pose proof (Zdigits2_mul_ge m m) as Hdd. simpl Zdigits2 in Hdd.
  assert (e + e ≤ fexp prec emax (Zdigits2 (Z.pos (m * m)) + (e + e)))%Z as Hal.
  { rewrite fexp_eq. simpl Zdigits2.
    assert (1 ≤ Z.pos (digits2_pos m))%Z by lia. lia. }
  rewrite binary_round_aux_enc by done. simpl loc_code. rewrite Z.add_0_r.
  destruct (binary_round_enc false (m ^ 2) (e * 2)) as (k & Hk & -> & _).
  assert (m ^ 2 = m * m)%positive as ->.
  { change 2%positive with (Pos.succ 1). by rewrite Pos.pow_succ_r, Pos.pow_1_r. }
  replace (e * 2)%Z with (e + e)%Z by lia.
  apply round_enc_refine; [done| |apply sticky_shift_exact; lia|].
  - pose proof (pow2_pos k Hk). lia.
  - by replace (4 * Z.pos (m * m) / 4)%Z with (Z.pos (m * m))
      by (Z.div_mod_to_equations; lia).
Qed.

(** The correctly rounded powers 1 and 2 are [x] and the product [x * x]:
    what numpy computes for these two exponents. *)
Lemma pow_cr_1 (x : float) : F64.pow_cr x 1 = x.
Proof.
  unfold F64.pow_cr. rewrite SFpown_1 by apply Prim2SF_valid.
  apply SF2Prim_Prim2SF.
Qed.

Lemma pow_cr_2 (x : float) : F64.pow_cr x 2 = (x * x)%float.
Proof.
  unfold F64.pow_cr. rewrite SFpown_2 by apply Prim2SF_valid.
  rewrite <- mul_spec. apply SF2Prim_Prim2SF.
Qed.

(** [x ** 1] is [x] and [x ** 2] is the product [x * x], as numpy computes
    them. *)
Lemma power_1 (x : float) : F64.power x 1 = x.
Proof. reflexivity. Qed.

Lemma power_2 (x : float) : F64.power x 2 = (x * x)%float.
Proof. reflexivity. Qed.

(** *** The growth factors of a non-negative rate *)

Lemma square_ge_one (a : float) :
  (1 <=? a)%float = true →
  (1 <=? a * a)%float = true ∧ (a <=? a * a)%float = true.
Proof.
  intros Ha. destruct (pow_cr_mono a Ha) as (H1 & H12 & _).
  rewrite pow_cr_1, pow_cr_2 in *. split; [|done].
  by apply (leb_trans 1 a).
Qed.

(** Values that compare both ways are one value, zeros apart. *)
Lemma leb_antisym (x y : float) :
  (0 <=? x)%float = true → is_zero x = false →
  (x <=? y)%float = true → (y <=? x)%float = true → y = x.
Proof.
  intros Hx Hz Hxy Hyx. pose proof (leb_nonneg_r _ _ Hx Hxy) as Hy.
  rewrite leb_zero_nonneg in Hx, Hy. rewrite is_zero_spec in Hz.
  rewrite leb_spec in Hxy, Hyx. apply Prim2SF_inj.
  pose proof (Prim2SF_valid x) as Vx. pose proof (Prim2SF_valid y) as Vy.
  rewrite SFleb_key in Hxy, Hyx by done.
  apply Z.leb_le in Hxy, Hyx.
  destruct (Prim2SF x) as [sx|[]| |[] mx ex], (Prim2SF y) as [sy|[]| |[] my ey];
    try done; simpl in *;
    repeat match goal with
    | H : bounded _ _ _ _ = true |- _ => apply bounded_inv in H as (_ & ? & _ & ?)
    end;
    change (2 ^ 70)%Z with (131072 * 9007199254740992)%Z in *;
    change (2 ^ 53)%Z with 9007199254740992%Z in *; try lia.
  assert (ex = ey) as -> by lia. f_equal. lia.
Qed.

(** On a platform with a faithful [pow] the cube of a base that is at least
    one is not below its square. *)
Lemma pow_ge_square (a : float) :
  pow_faithful 3 → (1 <=? a)%float = true →
  (a * a <=? F64.pow a 3)%float = true.
Proof.
  intros Hf Ha. pose proof (Prim2SF_valid a) as Va.
  pose proof Ha as Ha'. rewrite leb_spec in Ha'. change (Prim2SF 1) with SFone in Ha'.
  destruct (Prim2SF a) as [[]|[]| |[] m e] eqn:Ea; try done.
  - assert (a = infinity) as ->.
    { apply Prim2SF_inj. by rewrite Ea. }
    by rewrite F64.pow_inf.
  - simpl in Va. destruct (Hf a m e Ea) as [Hbr Hov].
    pose proof (SFmul_square_le_cube m e Va Ha') as Hsq.
    pose proof (mul_spec a a) as Hmul. rewrite Ea in Hmul.
    unfold SF64mul in Hmul. rewrite <- Hmul in Hsq.
    destruct (Prim2SF (a * a)) as [|[]| |[] m2 e2] eqn:E2; try done.
    + rewrite (Hov Hsq), leb_spec, E2. done.
    + by apply (Hbr (a * a)%float m2 e2 E2).
Qed.

Lemma pow_ge_one (a : float) :
  pow_faithful 3 → (1 <=? a)%float = true → (1 <=? F64.pow a 3)%float = true.
Proof.
  intros Hf Ha. destruct (square_ge_one a Ha) as [H1 _].
  by apply (leb_trans 1 (a * a)); [|..|apply pow_ge_square].
Qed.

(** The growth factors of a rate that is not negative: at least one at each
    horizon; not decreasing up to the second horizon, and up to the third
    on a platform with a faithful [pow]. *)
Lemma power_mono_12 (a : float) :
  (1 <=? a)%float = true →
  (1 <=? F64.power a 1)%float = true ∧
  (F64.power a 1 <=? F64.power a 2)%float = true ∧
  (1 <=? F64.power a 2)%float = true.
Proof.
  intros Ha. destruct (square_ge_one a Ha) as [H1 H2]. by rewrite power_1, power_2.
Qed.

Lemma power_mono_23 (a : float) :
  pow_faithful 3 → (1 <=? a)%float = true →
  (F64.power a 2 <=? F64.power a 3)%float = true.
Proof. intros Hf Ha. by apply pow_ge_square. Qed.

Lemma power_ge_one (a : float) (k : positive) :
  (k = 3%positive → pow_faithful 3) →
  (1 <=? a)%float = true → (k ≤ 3)%positive →
  (1 <=? F64.power a k)%float = true.
Proof.
  intros Hf Ha Hk. destruct (power_mono_12 a Ha) as (H1 & _ & H2).
  assert (k = 1 ∨ k = 2 ∨ k = 3)%positive as [->|[->| ->]] by lia; [done..|].
  by apply pow_ge_one; [apply Hf|].
Qed.

(** An infinite growth factor stays infinite at the next horizon. *)
Lemma zero_times_inf_mono (p a b : float) :
  (1 <=? a)%float = true → (a <=? b)%float = true →
  F64.zero_times_inf p b = false → F64.zero_times_inf p a = false.
Proof.
  intros Ha Hab. pose proof (leb_one_pos _ Ha) as [_ Hz].
  pose proof (leb_trans 1 a b eq_refl Ha Hab) as Hb.
  pose proof (leb_one_pos _ Hb) as [_ Hzb].
  unfold F64.zero_times_inf. rewrite Hz, Hzb, !andb_false_r, !orb_false_r.
  destruct (is_zero p); [|done]. simpl.
  rewrite !is_infinity_spec. rewrite !leb_spec in *.
  change (Prim2SF 1) with SFone in *.
  by destruct (Prim2SF a) as [|[]| |[]], (Prim2SF b) as [|[]| |[]].
Qed.

(** For a non-negative price and rate the 1-year forecast is not above the
    2-year forecast, when that is present. *)
Lemma forecast_mono_12 (p g : float) :
  (0 <=? p)%float = true → (0 <=? g)%float = true →
  is_nan (F64.forecast p g 2) = false →
  (F64.forecast p g 1 <=? F64.forecast p g 2)%float = true.
Proof.
  intros Hp Hg Hnan.
  rewrite forecast_is_nan in Hnan.
  apply orb_false_elim in Hnan as [_ Hzi2].
  destruct (power_mono_12 (1 + g) (one_plus_ge_one g Hg)) as (Ha1 & Ha12 & Ha2).
  destruct (mul_mono_r p _ _ Hp Ha1 Ha12 Hzi2) as [Hb1 Hb12].
  unfold F64.forecast. by apply np_round_2_mono.
Qed.

(** On a platform with a faithful [pow] the forecasts of a non-negative
    price and rate do not decrease with the horizon, as long as the last one
    is present. *)
Lemma forecast_mono (p g : float) :
  pow_faithful 3 →
  (0 <=? p)%float = true → (0 <=? g)%float = true →
  is_nan (F64.forecast p g 3) = false →
  (F64.forecast p g 1 <=? F64.forecast p g 2)%float = true ∧
  (F64.forecast p g 2 <=? F64.forecast p g 3)%float = true.
Proof.
  intros Hf Hp Hg Hnan.
  rewrite forecast_is_nan in Hnan.
  apply orb_false_elim in Hnan as [_ Hzi3].
  pose proof (one_plus_ge_one g Hg) as Ha.
  destruct (power_mono_12 (1 + g) Ha) as (Ha1 & Ha12 & Ha2).
  pose proof (power_mono_23 (1 + g) Hf Ha) as Ha23.
  pose proof (zero_times_inf_mono p _ _ Ha2 Ha23 Hzi3) as Hzi2.
  destruct (mul_mono_r p _ _ Hp Ha1 Ha12 Hzi2) as [Hb1 Hb12].
  destruct (mul_mono_r p _ _ Hp Ha2 Ha23 Hzi3) as [Hb2 Hb23].
  unfold F64.forecast. split; by apply np_round_2_mono.
Qed.

(** ** Rates between minus one and zero *)

Section decline.
Local Open Scope Z_scope.

(** Two negative values compare as their magnitudes, the other way round. *)
Lemma SFleb_neg (m1 m2 : positive) (e1 e2 : Z) :
  SFleb (S754_finite true m1 e1) (S754_finite true m2 e2) =
  SFleb (S754_finite false m2 e2) (S754_finite false m1 e1).
Proof.
  unfold SFleb, SFcompare. rewrite (Z.compare_antisym e1 e2).
  destruct (e1 ?= e2); simpl; try done.
  change (Pos.compare_cont Eq m1 m2) with (m1 ?= m2)%positive.
  change (Pos.compare_cont Eq m2 m1) with (m2 ?= m1)%positive.
  by rewrite (Pos.compare_antisym m1 m2).
Qed.

Lemma SFadd_finite_neg (m1 m2 : positive) (e1 e2 : Z) :
  SFadd prec emax (S754_finite false m1 e1) (S754_finite true m2 e2) =
  binary_normalize prec emax
    (Z.pos m1 * 2 ^ (e1 - Z.min e1 e2) - Z.pos m2 * 2 ^ (e2 - Z.min e1 e2))
    (Z.min e1 e2) false.
Proof.
  unfold SFadd, cond_Zopp. by rewrite !shl_align_fst by lia.
Qed.

(** The factor of a rate between minus one and zero is between zero and
    one. *)
Lemma SFone_plus_le_one (g : spec_float) :
  valid_binary g = true →
  SFleb (S754_finite true 4503599627370496 (-52)) g = true →
  SFleb g (S754_zero false) = true →
  SFnonneg (SFadd prec emax SFone g) = true ∧
  SFleb (SFadd prec emax SFone g) SFone = true.
Proof.
  intros Vg Hlo Hhi. destruct g as [s|[]| |[] m e]; try done.
  rewrite SFleb_neg in Hlo.
  apply (SFleb_dyadic m 4503599627370496 e (-52) Vg eq_refl) in Hlo.
  unfold SFone. rewrite SFadd_finite_neg.
  set (E := Z.min (-52) e).
  apply (dyadic_le_at E) in Hlo; [|lia..].
  pose proof (pow2_pos (e - E) ltac:(lia)).
  pose proof (pow2_pos (-52 - E) ltac:(lia)).
  split; [apply binary_normalize_nonneg; lia|].
  change (S754_finite false 4503599627370496 (-52))
    with (binary_normalize prec emax 4503599627370496 (-52) false).
  apply binary_normalize_mono; [lia..|].
  apply (dyadic_le_at E); [lia..|]. rewrite Z.sub_diag, Z.pow_0_r. nia.
Qed.

(** Multiplying by a number that is at most one does not increase. *)
Lemma dyadic_le_mul_le1 (X ex M e : Z) :
  0 ≤ X → dyadic_le M e 1 0 → dyadic_le (X * M) (ex + e) X ex.
Proof.
  intros HX H1. unfold dyadic_le in *.
  destruct (Z.le_ge_cases 0 e) as [He|He].
  - rewrite Z.min_r in H1 by lia. rewrite Z.min_r by lia.
    rewrite Z.sub_diag, Z.pow_0_r in *. rewrite Z.sub_0_r in H1.
    replace (ex + e - ex) with e by lia.
    revert H1. generalize (2 ^ e). intros a Ha. nia.
  - rewrite Z.min_l in H1 by lia. rewrite Z.min_l by lia.
    rewrite Z.sub_diag, Z.pow_0_r in *.
    replace (ex - (ex + e)) with (0 - e) by lia.
    revert H1. generalize (2 ^ (0 - e)). intros a Ha. nia.
Qed.

Lemma SFleb_dyadic_one (m : positive) (e : Z) :
  bounded prec emax m e = true →
  SFleb (S754_finite false m e) SFone = true →
  dyadic_le (Z.pos m) e 1 0.
Proof.
  intros Hb Hle.
  apply (SFleb_dyadic m 4503599627370496 e (-52) Hb eq_refl) in Hle.
  by apply (dyadic_le_shift_r _ _ 1 0 52) in Hle.
Qed.

(** For a base between zero and one the powers 1, 2, 3 are at most one and
    do not increase. *)
Lemma SFpown_antimono (a : spec_float) :
  valid_binary a = true → SFnonneg a = true → SFleb a SFone = true →
  SFleb (F64.SFpown a 1) SFone = true ∧
  SFleb (F64.SFpown a 2) (F64.SFpown a 1) = true ∧
  SFleb (F64.SFpown a 3) (F64.SFpown a 2) = true ∧
  SFnonneg (F64.SFpown a 3) = true.
Proof.
  intros Va Na H1. destruct a as [[]|[]| |[] m e]; try done. simpl in Va.
  pose proof (SFleb_dyadic_one m e Va H1) as Hd.
  unfold F64.SFpown. simpl andb.
  assert (dyadic_le (Z.pos (m ^ 2)) (e * 2) (Z.pos m) e) as H21.
  { rewrite Pos2Z.inj_pow, Z.pow_2_r. replace (e * 2) with (e + e) by lia.
    by apply dyadic_le_mul_le1. }
  assert (dyadic_le (Z.pos (m ^ 3)) (e * 3) (Z.pos (m ^ 2)) (e * 2)) as H32.
  { rewrite !Pos2Z.inj_pow. change (Z.pos 3) with (Z.succ 2).
    rewrite Z.pow_succ_r by lia. rewrite (Z.mul_comm (Z.pos m)).
    replace (e * Z.succ 2) with (e * 2 + e) by lia.
    apply dyadic_le_mul_le1; [|done].
    apply Z.pow_nonneg. lia. }
  rewrite Pos.pow_1_r, Z.mul_1_r.
  split; [|split; [|split]].
  - change SFone with (binary_round prec emax false 4503599627370496 (-52)).
    apply binary_round_mono.
    by apply (dyadic_le_shift_r _ _ 1 0 52).
  - by apply binary_round_mono.
  - by apply binary_round_mono.
  - apply binary_round_nonneg.
Qed.

Lemma SFmul_nonneg (x y : spec_float) :
  valid_binary x = true → valid_binary y = true →
  SFnonneg x = true → SFnonneg y = true →
  SFis_nan (SFmul prec emax x y) = false →
  SFnonneg (SFmul prec emax x y) = true.
Proof.
  intros Vx Vy Nx Ny Hn.
  destruct x as [sx|[]| |[] mx ex], y as [sy|[]| |[] my ey]; try done.
  by apply SFmul_finite_nonneg.
Qed.

(** Multiplying a fixed non-negative value by a growing non-negative factor
    is monotone, as long as both products are numbers. *)
Lemma SFmul_mono_r_nonneg (p a1 a2 : spec_float) :
  valid_binary p = true → valid_binary a1 = true → valid_binary a2 = true →
  SFnonneg p = true → SFnonneg a1 = true → SFnonneg a2 = true →
  SFis_nan (SFmul prec emax p a1) = false →
  SFis_nan (SFmul prec emax p a2) = false →
  SFleb a1 a2 = true →
  SFnonneg (SFmul prec emax p a1) = true ∧
  SFleb (SFmul prec emax p a1) (SFmul prec emax p a2) = true.
Proof.
  intros Vp V1 V2 Np N1 N2 Hn1 Hn2 Hle.
  pose proof (SFmul_nonneg p a1 Vp V1 Np N1 Hn1) as Nm1.
  pose proof (SFmul_nonneg p a2 Vp V2 Np N2 Hn2) as Nm2.
  split; [done|].
  destruct (SFis_zero a1) eqn:Z1.
  - destruct a1 as [s1| | |]; try done.
    destruct p as [sp|[]| |[] mp ep]; try done; by apply SFleb_zero_l.
  - apply SFmul_mono_r; try done.
    by destruct p as [|[]| |[]], a2 as [|[]| |[]].
Qed.

End decline.

Lemma one_plus_le_one (g : float) :
  (-1 <=? g)%float = true → (g <=? 0)%float = true →
  (0 <=? 1 + g)%float = true ∧ (1 + g <=? 1)%float = true.
Proof.
  rewrite leb_zero_nonneg, !leb_spec, add_spec. intros Hlo Hhi.
  change (Prim2SF 1) with SFone.
  apply SFone_plus_le_one; [apply Prim2SF_valid|done..].
Qed.

Lemma pow_cr_antimono (a : float) :
  (0 <=? a)%float = true → (a <=? 1)%float = true →
  (F64.pow_cr a 1 <=? 1)%float = true ∧
  (F64.pow_cr a 2 <=? F64.pow_cr a 1)%float = true ∧
  (F64.pow_cr a 3 <=? F64.pow_cr a 2)%float = true ∧
  (0 <=? F64.pow_cr a 3)%float = true.
Proof.
  rewrite !leb_zero_nonneg, !leb_spec, !Prim2SF_pow_cr.
  change (Prim2SF 1) with SFone.
  apply SFpown_antimono, Prim2SF_valid.
Qed.

(** The growth factors of the first two horizons for a base between zero
    and one: not above one, not increasing, not negative. *)
Lemma power_antimono (a : float) :
  (0 <=? a)%float = true → (a <=? 1)%float = true →
  (F64.power a 1 <=? 1)%float = true ∧
  (F64.power a 2 <=? F64.power a 1)%float = true ∧
  (0 <=? F64.power a 2)%float = true.
Proof.
  intros Ha0 Ha1. destruct (pow_cr_antimono a Ha0 Ha1) as (H1 & H21 & H32 & H0).
  rewrite pow_cr_1, pow_cr_2 in *. rewrite power_1, power_2.
  split; [done|]. split; [done|]. by apply (leb_nonneg_r _ _ H0).
Qed.

Lemma mul_mono_r_nonneg (p a1 a2 : float) :
  (0 <=? p)%float = true → (0 <=? a1)%float = true → (a1 <=? a2)%float = true →
  is_nan (p * a1) = false → is_nan (p * a2) = false →
  (0 <=? p * a1)%float = true ∧ (p * a1 <=? p * a2)%float = true.
Proof.
  intros Hp Ha1 Hle Hn1 Hn2.
  pose proof (leb_nonneg_r _ _ Ha1 Hle) as Ha2.
  rewrite leb_zero_nonneg in *. rewrite is_nan_spec in *.
  rewrite !leb_spec, !mul_spec in *.
  by apply SFmul_mono_r_nonneg; auto using Prim2SF_valid.
Qed.

(** A product that is a number stays one when the factor grows without
    passing one. *)
Lemma mul_is_nan_le_one (p a b : float) :
  (0 <=? a)%float = true → (a <=? b)%float = true → (b <=? 1)%float = true →
  is_nan (p * a) = false → is_nan (p * b) = false.
Proof.
  rewrite leb_zero_nonneg, !is_nan_spec, !leb_spec, !mul_spec.
  change (Prim2SF 1) with SFone. unfold SF64mul. rewrite !SFmul_is_nan.
  by destruct (Prim2SF a) as [|[]| |[]], (Prim2SF b) as [|[]| |[]],
    (Prim2SF p) as [|[]| |[]].
Qed.

(** With a non-negative price and a rate between minus one and zero the
    forecasts of the first two horizons do not increase and do not exceed
    the rounded price, as long as the second one is present. *)
Lemma forecast_antimono (p g : float) :
  (0 <=? p)%float = true → (-1 <=? g)%float = true → (g <=? 0)%float = true →
  is_nan (F64.forecast p g 2) = false →
  (0 <=? F64.forecast p g 2)%float = true ∧
  (F64.forecast p g 2 <=? F64.forecast p g 1)%float = true ∧
  (F64.forecast p g 1 <=? F64.np_round 2 p)%float = true.
Proof.
  intros Hp Hlo Hhi Hnan.
  unfold F64.forecast in *. rewrite np_round_2_is_nan in Hnan.
  destruct (one_plus_le_one g Hlo Hhi) as [Ha0 Ha1].
  destruct (power_antimono _ Ha0 Ha1) as (H1 & H21 & H0).
  set (a1 := F64.power (1 + g) 1) in *. set (a2 := F64.power (1 + g) 2) in *.
  pose proof (leb_nonneg_r _ _ H0 H21) as H01.
  pose proof (mul_is_nan_le_one p a2 a1 H0 H21 H1 Hnan) as Hn1.
  pose proof (mul_is_nan_le_one p a1 1 H01 H1 eq_refl Hn1) as Hnp.
  destruct (mul_mono_r_nonneg p a2 a1 Hp H0 H21 Hnan Hn1) as [Hb2 Hb21].
  destruct (mul_mono_r_nonneg p a1 1 Hp H01 H1 Hn1 Hnp) as [Hb1 Hb1p].
  rewrite mul_one_r in Hb1p.
  repeat split; try by apply np_round_2_mono.
  by apply (np_round_2_mono 0 (p * a2)).
Qed.

(** ** Bounds of the forecasts *)

(** With a non-negative price and rate a forecast that is present is at
    least the rounded price, which is not negative; for the third horizon
    on a platform with a faithful [pow]. *)
Lemma forecast_ge_price (p g : float) (k : positive) :
  (k = 3%positive → pow_faithful 3) →
  (0 <=? p)%float = true → (0 <=? g)%float = true → (k ≤ 3)%positive →
  is_nan (F64.forecast p g k) = false →
  (0 <=? F64.np_round 2 p)%float = true ∧
  (F64.np_round 2 p <=? F64.forecast p g k)%float = true.
Proof.
  intros Hf Hp Hg Hk Hnan.
  rewrite forecast_is_nan in Hnan. apply orb_false_elim in Hnan as [_ Hzi].
  pose proof (power_ge_one _ k Hf (one_plus_ge_one g Hg) Hk) as Ha.
  destruct (mul_mono_r p 1 _ Hp eq_refl Ha Hzi) as [_ Hle].
  rewrite mul_one_r in Hle. split.
  - by apply (np_round_2_mono 0 p).
  - unfold F64.forecast. by apply np_round_2_mono.
Qed.

(** A zero price gives a zero forecast, unless the forecast is missing. *)
Lemma forecast_zero_price (p g : float) (k : positive) :
  is_zero p = true → is_nan (F64.forecast p g k) = false →
  is_zero (F64.forecast p g k) = true.
Proof.
  intros Hp Hnan. rewrite forecast_is_nan in Hnan.
  apply orb_false_elim in Hnan as [Hnan Hzi].
  apply orb_false_elim in Hnan as [_ Hg].
  unfold F64.zero_times_inf in Hzi. rewrite Hp in Hzi. simpl in Hzi.
  apply orb_false_elim in Hzi as [Hinf _].
  assert (is_nan (F64.power (1 + g) k) = false) as Ha.
  { rewrite power_is_nan, add_is_nan_l; done. }
  assert (is_zero (p * F64.power (1 + g) k) = true) as Hz.
  { rewrite is_zero_spec, is_nan_spec, is_infinity_spec in *.
    rewrite mul_spec.
    by destruct (Prim2SF p), (Prim2SF (F64.power (1 + g) k)). }
  unfold F64.forecast. by destruct (is_zero_inv _ Hz) as [-> | ->].
Qed.

(** A forecast for a growth factor that lies between two values with one
    rounded product is that rounded product. *)
Lemma forecast_between (p a lo hi f : float) :
  (0 <=? p)%float = true → (1 <=? lo)%float = true →
  (lo <=? a)%float = true → (a <=? hi)%float = true →
  F64.zero_times_inf p hi = false →
  (0 <=? f)%float = true → is_zero f = false →
  F64.np_round 2 (p * lo) = f → F64.np_round 2 (p * hi) = f →
  F64.np_round 2 (p * a) = f.
Proof.
  intros Hp H1 Hlo Hhi Hzi Hf Hz Elo Ehi.
  pose proof (leb_trans 1 lo a eq_refl H1 Hlo) as Ha.
  pose proof (zero_times_inf_mono p a hi Ha Hhi Hzi) as Hzia.
  destruct (mul_mono_r p lo a Hp H1 Hlo Hzia) as [Hb1 Hle1].
  destruct (mul_mono_r p a hi Hp Ha Hhi Hzi) as [Hb2 Hle2].
  pose proof (np_round_2_mono _ _ Hb1 Hle1) as Hr1.
  pose proof (np_round_2_mono _ _ Hb2 Hle2) as Hr2.
  rewrite Elo in Hr1. rewrite Ehi in Hr2.
  by apply leb_antisym.
Qed.

(** The numeric example: with price 100 and rate 0.10 the 3-year forecast
    is 133.1 on every platform with a faithful [pow], whichever of the
    neighbours of the exact cube of 1.1 it returns. *)
Lemma forecast_example_3 :
  pow_faithful 3 → F64.forecast 100 0.10 3 = 133.1%float.
Proof.
  intros Hf. unfold F64.forecast, F64.power.
  destruct (Hf (1 + 0.10)%float 4953959590107546%positive (-52)%Z
              ltac:(vm_compute; reflexivity)) as [Hbr _].
  destruct (Hbr 1.3310000000000002%float 5994291104030131%positive (-52)%Z
              ltac:(vm_compute; reflexivity)) as [Hlo _].
  destruct (Hbr 1.3310000000000006%float 5994291104030133%positive (-52)%Z
              ltac:(vm_compute; reflexivity)) as [_ Hhi].
  apply (forecast_between 100 _ 1.3310000000000002 1.3310000000000006);
    try (vm_compute; reflexivity).
  - apply Hlo. vm_compute. discriminate.
  - apply Hhi. vm_compute. discriminate.
Qed.

(** ** Data frame lookups and assignments *)

Lemma getitem_setitem_eq (df : dataframe) (n : string) (c : column) :
  getitem (setitem df n c) n = Some c.
Proof.
  induction df as [|[n' c'] df IH]; simpl; repeat case_decide; simpl;
    repeat case_decide; try done.
Qed.

Lemma getitem_setitem_ne (df : dataframe) (n n' : string) (c : column) :
  n ≠ n' → getitem (setitem df n c) n' = getitem df n'.
Proof.
  intros Hne.
  induction df as [|[m c'] df IH]; simpl; repeat case_decide; simpl;
    repeat case_decide; try done; congruence.
Qed.

Lemma setitem_id (df : dataframe) (n : string) (c : column) :
  getitem df n = Some c → setitem df n c = df.
Proof.
  induction df as [|[m c'] df IH]; simpl; [done|].
  case_decide; [congruence|]. intros Hg. by rewrite IH.
Qed.

Lemma getitem_None (df : dataframe) (n : string) :
  getitem df n = None ↔ n ∉ columns df.
Proof.
  unfold columns.
  induction df as [|[m c'] df IH]; simpl.
  - split; [intros _; apply not_elem_of_nil|done].
  - rewrite not_elem_of_cons. case_decide as E.
    + split; [done|]. intros [Hne _]. by destruct Hne.
    + rewrite IH. split; [by intros ?; split|by intros [_ ?]].
Qed.

Lemma setitem_fresh (df : dataframe) (n : string) (c : column) :
  getitem df n = None → setitem df n c = df ++ [(n, c)].
Proof.
  induction df as [|[m c'] df IH]; simpl; [done|].
  case_decide; [done|]. intros Hg. by rewrite IH.
Qed.

Lemma getitem_restrict (df : dataframe) (cols : list string) (n : string) :
  getitem (restrict df cols) n = if decide (n ∈ cols) then getitem df n else None.
Proof.
  unfold restrict.
  induction df as [|[m c'] df IH]; simpl; [by case_decide|].
  rewrite filter_cons. simpl.
  destruct (decide (m ∈ cols)) as [Hm|Hm]; simpl.
  - rewrite IH. destruct (decide (m = n)) as [->|]; [by case_decide|done].
  - rewrite IH. destruct (decide (m = n)) as [->|]; [by case_decide|done].
Qed.

Lemma getitem_Some_columns (df : dataframe) (n : string) (c : column) :
  getitem df n = Some c → n ∈ columns df.
Proof.
  intros H. destruct (decide (n ∈ columns df)) as [|Hn]; [done|].
  apply getitem_None in Hn. congruence.
Qed.

Lemma nrows_setitem (df : dataframe) (n : string) (c : column) (k : nat) :
  nrows df k → col_length c = k → nrows (setitem df n c) k.
Proof.
  unfold nrows. intros Hdf Hc.
  induction Hdf as [|[m c'] df Hm Hdf IH]; simpl.
  - by constructor.
  - case_decide; constructor; auto.
Qed.

Lemma nrows_getitem (df : dataframe) (n : string) (c : column) (k : nat) :
  nrows df k → getitem df n = Some c → col_length c = k.
Proof.
  unfold nrows. intros Hdf.
  induction Hdf as [|[m c'] df Hm Hdf IH]; simpl; [done|].
  case_decide; [|done]. by intros [= <-].
Qed.


Lemma float_col_setitem_ne (df : dataframe) (n n' : string) (c : column) :
  n ≠ n' → float_col (setitem df n c) n' = float_col df n'.
Proof. intros H. unfold float_col. by rewrite getitem_setitem_ne. Qed.

Lemma float_col_setitem_eq (df : dataframe) (n : string) (xs : list float) :
  float_col (setitem df n (FloatCol xs)) n = inr xs.
Proof. unfold float_col. by rewrite getitem_setitem_eq. Qed.

Lemma float_col_inr (df : dataframe) (n : string) (xs : list float) :
  float_col df n = inr xs ↔ getitem df n = Some (FloatCol xs).
Proof.
  unfold float_col. destruct (getitem df n) as [[]|]; naive_solver.
Qed.

(** ** The script, column by column *)

Lemma chosen_cagr_inr (df : dataframe) (loc city : list float) :
  float_col df loc_cagr_col = inr loc → float_col df city_cagr_col = inr city →
  chosen_cagr df = inr (chosen_of loc city).
Proof. unfold chosen_cagr. by intros -> ->. Qed.

Lemma cagr_source_inr (df : dataframe) (loc city : list float) :
  float_col df loc_cagr_col = inr loc → float_col df city_cagr_col = inr city →
  cagr_source df = inr (source_of loc city).
Proof. unfold cagr_source. by intros -> ->. Qed.

Lemma forecast_column_inr (df : dataframe) (price cagr : list float) (k : positive) :
  float_col df price_col = inr price → float_col df "chosen_cagr" = inr cagr →
  forecast_column df k = inr (forecast_of price cagr k).
Proof. unfold forecast_column. by intros -> ->. Qed.

Lemma forecast_column_inl (df : dataframe) (k : positive) (e : error) :
  float_col df price_col = inl e → forecast_column df k = inl e.
Proof. unfold forecast_column. by intros ->. Qed.

(** With the three inputs present as float64 columns the run of the five
    assignments succeeds. *)
Lemma forecaster_inr (df : dataframe) (loc city price : list float) :
  getitem df loc_cagr_col = Some (FloatCol loc) →
  getitem df city_cagr_col = Some (FloatCol city) →
  getitem df price_col = Some (FloatCol price) →
  forecaster df = inr (assign_all df loc city price).
Proof.
  intros Hl Hc Hp. apply float_col_inr in Hl, Hc, Hp.
  unfold forecaster, assign_all.
  rewrite (chosen_cagr_inr _ _ _ Hl Hc). simpl.
  rewrite (cagr_source_inr _ loc city)
    by (rewrite float_col_setitem_ne by names_ne; done). simpl.
  rewrite (forecast_column_inr _ price (chosen_of loc city)); simpl; first last.
  { rewrite float_col_setitem_ne by names_ne. apply float_col_setitem_eq. }
  { by rewrite !float_col_setitem_ne by names_ne. }
  rewrite (forecast_column_inr _ price (chosen_of loc city)); simpl; first last.
  { rewrite !float_col_setitem_ne by names_ne. apply float_col_setitem_eq. }
  { by rewrite !float_col_setitem_ne by names_ne. }
  rewrite (forecast_column_inr _ price (chosen_of loc city)); simpl; first last.
  { rewrite !float_col_setitem_ne by names_ne. apply float_col_setitem_eq. }
  { by rewrite !float_col_setitem_ne by names_ne. }
  done.
Qed.

(** Conversely a successful run had the three inputs as float64 columns. *)
Lemma forecaster_inv (df out : dataframe) :
  forecaster df = inr out →
  ∃ loc city price,
    getitem df loc_cagr_col = Some (FloatCol loc) ∧
    getitem df city_cagr_col = Some (FloatCol city) ∧
    getitem df price_col = Some (FloatCol price) ∧
    out = assign_all df loc city price.
Proof.
  intros H.
  destruct (float_col df loc_cagr_col) as [e|loc] eqn:Hl.
  { unfold forecaster, chosen_cagr in H. by rewrite Hl in H. }
  destruct (float_col df city_cagr_col) as [e|city] eqn:Hc.
  { unfold forecaster, chosen_cagr in H. by rewrite Hl, Hc in H. }
  destruct (float_col df price_col) as [e|price] eqn:Hp.
  { unfold forecaster in H.
    rewrite (chosen_cagr_inr _ _ _ Hl Hc) in H. simpl in H.
    rewrite (cagr_source_inr _ loc city) in H
      by (rewrite float_col_setitem_ne by names_ne; done). simpl in H.
    rewrite (forecast_column_inl _ 1 e) in H; [done|].
    by rewrite !float_col_setitem_ne by names_ne. }
  apply float_col_inr in Hl, Hc, Hp.
  exists loc, city, price. repeat split; try done.
  rewrite (forecaster_inr _ _ _ _ Hl Hc Hp) in H. by injection H.
Qed.

Lemma getitem_app (df df' : dataframe) (n : string) :
  getitem (df ++ df') n =
  match getitem df n with Some c => Some c | None => getitem df' n end.
Proof.
  induction df as [|[m c] df IH]; simpl; [done|]. by case_decide.
Qed.

Lemma setitem_app_fresh (df df' : dataframe) (n : string) (c : column) :
  getitem df n = None → getitem df' n = None →
  setitem (df ++ df') n c = df ++ df' ++ [(n, c)].
Proof.
  intros H1 H2. rewrite setitem_fresh, <- ?app_assoc; [done|].
  by rewrite getitem_app, H1.
Qed.

(** On a frame with none of the derived names, the five assignments append
    five columns. *)
Lemma assign_all_fresh (df : dataframe) (loc city price : list float) :
  (∀ n, n ∈ derived_cols → n ∉ columns df) →
  assign_all df loc city price =
  df ++ [("chosen_cagr", FloatCol (chosen_of loc city));
         ("cagr_source", ObjCol (source_of loc city));
         ("Price_per_SQFT_plus_1yr",
          FloatCol (forecast_of price (chosen_of loc city) 1));
         ("Price_per_SQFT_plus_2yr",
          FloatCol (forecast_of price (chosen_of loc city) 2));
         ("Price_per_SQFT_plus_3yr",
          FloatCol (forecast_of price (chosen_of loc city) 3))].
Proof.
  intros Hfresh.
  assert (∀ n, n ∈ derived_cols → getitem df n = None) as Hnone.
  { intros n Hn. by apply getitem_None, Hfresh. }
  unfold derived_cols in Hnone. unfold assign_all.
  rewrite (setitem_fresh df) by (apply Hnone; in_list).
  rewrite (setitem_app_fresh df) by (try (apply Hnone; in_list); done).
  rewrite (setitem_app_fresh df) by (try (apply Hnone; in_list); done).
  rewrite (setitem_app_fresh df) by (try (apply Hnone; in_list); done).
  rewrite (setitem_app_fresh df) by (try (apply Hnone; in_list); done).
  done.
Qed.


(** ** Rows of the computed columns *)

Lemma lookup_np_where {A : Type} (cond : list bool) (x y : list A) (i : nat)
    (b : bool) (a d : A) :
  cond !! i = Some b → x !! i = Some a → y !! i = Some d →
  np_where cond x y !! i = Some (if b then a else d).
Proof.
  revert x y i.
  induction cond as [|b' cond IH]; intros [|a' x] [|d' y] [|i]; simpl; try done.
  - by intros [= ->] [= ->] [= ->].
  - apply IH.
Qed.

Lemma length_np_where {A : Type} (cond : list bool) (x y : list A) :
  length x = length cond → length y = length cond →
  length (np_where cond x y) = length cond.
Proof.
  revert x y.
  induction cond as [|b cond IH]; intros [|a x] [|d y]; simpl; try done.
  intros [= Hx] [= Hy]. by rewrite IH.
Qed.

Lemma lookup_series_notna (s : list float) (i : nat) (x : float) :
  s !! i = Some x → series_notna s !! i = Some (F64.notna x).
Proof. intros H. unfold series_notna. by rewrite list_lookup_fmap, H. Qed.

Lemma lookup_broadcast {A B : Type} (like : list B) (v : A) (i : nat) (b : B) :
  like !! i = Some b → broadcast like v !! i = Some v.
Proof.
  intros H. unfold broadcast. apply lookup_replicate_2.
  by apply lookup_lt_Some in H.
Qed.

Lemma lookup_chosen_of (loc city : list float) (i : nat) (l c : float) :
  loc !! i = Some l → city !! i = Some c →
  chosen_of loc city !! i = Some (if F64.notna l then l else c).
Proof.
  intros Hl Hc. unfold chosen_of.
  by apply lookup_np_where; [apply lookup_series_notna|..].
Qed.

Lemma lookup_source_of (loc city : list float) (i : nat) (l c : float) :
  loc !! i = Some l → city !! i = Some c →
  source_of loc city !! i =
    Some (if F64.notna l then "locality"
          else if F64.notna c then "city" else "none").
Proof.
  intros Hl Hc. unfold source_of.
  pose proof (lookup_series_notna _ _ _ Hl) as Hl'.
  pose proof (lookup_series_notna _ _ _ Hc) as Hc'.
  apply lookup_np_where; [done|by eapply lookup_broadcast|].
  apply lookup_np_where; [done|by eapply lookup_broadcast..].
Qed.

Lemma lookup_forecast_of (price cagr : list float) (k : positive) (i : nat)
    (p g : float) :
  price !! i = Some p → cagr !! i = Some g →
  forecast_of price cagr k !! i = Some (F64.forecast p g k).
Proof.
  intros Hp Hg. unfold forecast_of, series_round, series_mul, series_pow, scalar_add.
  rewrite list_lookup_fmap, lookup_zip_with, Hp. simpl.
  by rewrite !list_lookup_fmap, Hg.
Qed.

Lemma length_chosen_of (loc city : list float) (n : nat) :
  length loc = n → length city = n → length (chosen_of loc city) = n.
Proof.
  intros Hl Hc. unfold chosen_of, series_notna.
  rewrite length_np_where; rewrite ?length_fmap; congruence.
Qed.

Lemma length_source_of (loc city : list float) (n : nat) :
  length loc = n → length city = n → length (source_of loc city) = n.
Proof.
  intros Hl Hc. unfold source_of, broadcast.
  assert (length (series_notna loc) = n) as Hl'
    by (unfold series_notna; by rewrite length_fmap).
  assert (length (series_notna city) = n) as Hc'
    by (unfold series_notna; by rewrite length_fmap).
  rewrite length_np_where; [done|by rewrite length_replicate|].
  rewrite length_np_where; [congruence|by rewrite length_replicate..].
Qed.

Lemma length_forecast_of (price cagr : list float) (k : positive) (n : nat) :
  length price = n → length cagr = n → length (forecast_of price cagr k) = n.
Proof.
  intros Hp Hg. unfold forecast_of, series_round, series_mul, series_pow, scalar_add.
  rewrite length_fmap, length_zip_with, !length_fmap. lia.
Qed.

Lemma nrows_assign_all (df : dataframe) (loc city price : list float) (n : nat) :
  getitem df loc_cagr_col = Some (FloatCol loc) →
  getitem df city_cagr_col = Some (FloatCol city) →
  getitem df price_col = Some (FloatCol price) →
  nrows df n → nrows (assign_all df loc city price) n.
Proof.
  intros Hl Hc Hp Hn.
  pose proof (nrows_getitem _ _ _ _ Hn Hl) as Hl'.
  pose proof (nrows_getitem _ _ _ _ Hn Hc) as Hc'.
  pose proof (nrows_getitem _ _ _ _ Hn Hp) as Hp'.
  simpl in Hl', Hc', Hp'.
  unfold assign_all.
  repeat apply nrows_setitem; try done; simpl;
    auto using length_chosen_of, length_source_of, length_forecast_of.
Qed.

(** What each name holds after the five assignments. *)
Lemma getitem_assign_all_chosen (df : dataframe) (loc city price : list float) :
  getitem (assign_all df loc city price) "chosen_cagr" =
  Some (FloatCol (chosen_of loc city)).
Proof.
  unfold assign_all.
  rewrite !getitem_setitem_ne by discriminate. apply getitem_setitem_eq.
Qed.

Lemma getitem_assign_all_source (df : dataframe) (loc city price : list float) :
  getitem (assign_all df loc city price) "cagr_source" =
  Some (ObjCol (source_of loc city)).
Proof.
  unfold assign_all.
  rewrite !getitem_setitem_ne by discriminate. apply getitem_setitem_eq.
Qed.

Lemma getitem_assign_all_forecast (df : dataframe) (loc city price : list float)
    (k : positive) :
  (k ≤ 3)%positive →
  getitem (assign_all df loc city price) (forecast_col k) =
  Some (FloatCol (forecast_of price (chosen_of loc city) k)).
Proof.
  intros Hk. unfold assign_all.
  assert (k = 1 ∨ k = 2 ∨ k = 3)%positive as [->|[->| ->]] by lia; simpl.
  - rewrite !getitem_setitem_ne by discriminate. apply getitem_setitem_eq.
  - rewrite !getitem_setitem_ne by discriminate. apply getitem_setitem_eq.
  - apply getitem_setitem_eq.
Qed.

Lemma getitem_assign_all_other (df : dataframe) (loc city price : list float)
    (n : string) :
  n ∉ derived_cols →
  getitem (assign_all df loc city price) n = getitem df n.
Proof.
  unfold derived_cols. rewrite !not_elem_of_cons. intros (?&?&?&?&?&_).
  unfold assign_all. by rewrite !getitem_setitem_ne.
Qed.

Lemma required_not_derived (n : string) :
  n ∈ [price_col; city_cagr_col; loc_cagr_col] → n ∉ derived_cols.
Proof.
  rewrite !elem_of_cons. unfold derived_cols.
  intros [->|[->|[->|H]]]; [| | |by apply elem_of_nil in H];
    rewrite !not_elem_of_cons; repeat split; try names_ne; apply not_elem_of_nil.
Qed.

(** Row [i] of forecast column [k] is the cell-level forecast of the price
    and the chosen rate of that row. *)
Lemma forecast_row (df out : dataframe) (i : nat) (p g : float) (k : positive) :
  forecaster df = inr out →
  float_at df price_col i = Some p →
  float_at out "chosen_cagr" i = Some g →
  (k ≤ 3)%positive →
  float_at out (forecast_col k) i = Some (F64.forecast p g k).
Proof.
  intros (loc & city & price & Hl & Hc & Hp & ->)%forecaster_inv Hpi Hgi Hk.
  unfold float_at in *.
  rewrite getitem_assign_all_chosen in Hgi.
  rewrite Hp in Hpi.
  rewrite getitem_assign_all_forecast by done.
  by apply lookup_forecast_of.
Qed.

Lemma forecast_nan (p g : float) (k : positive) :
  is_nan p = true ∨ is_nan g = true → F64.forecast p g k = nan.
Proof.
  intros H. apply is_nan_inv. rewrite forecast_is_nan.
  destruct H as [-> | ->]; [done|]. by rewrite orb_true_r.
Qed.

(** ** Column names and rows of the derived columns *)

Lemma columns_setitem (df : dataframe) (n : string) (c : column) :
  columns (setitem df n c) =
  if decide (n ∈ columns df) then columns df else columns df ++ [n].
Proof.
  unfold columns.
  induction df as [|[m c'] df IH]; csimpl; [done|].
  destruct (decide (m = n)) as [->|E]; csimpl.
  - by rewrite decide_True by apply list_elem_of_here.
  - rewrite IH. destruct (decide (n ∈ df.*1)) as [Hn|Hn].
    + by rewrite decide_True by by apply list_elem_of_further.
    + rewrite decide_False; [done|].
      rewrite elem_of_cons. intros [?|?]; congruence.
Qed.

Lemma filter_not_elem_of_snoc (cols l : list string) (n : string) :
  n ∉ l →
  filter (λ x, x ∉ cols ++ [n]) l = filter (λ x, x ∉ cols) l.
Proof.
  induction l as [|x l IH]; [done|].
  rewrite not_elem_of_cons. intros [Hx Hl].
  rewrite !filter_cons, IH by done.
  destruct (decide (x ∉ cols)) as [Hc|Hc].
  - rewrite decide_True; [done|].
    rewrite elem_of_app, list_elem_of_singleton. intros [?|?]; congruence.
  - rewrite decide_False; [done|].
    rewrite elem_of_app. tauto.
Qed.

Lemma columns_foldl_setitem (l : list (string * column)) (df : dataframe) :
  NoDup l.*1 →
  columns (foldl (λ d nc, setitem d nc.1 nc.2) df l) =
  columns df ++ filter (λ n, n ∉ columns df) l.*1.
Proof.
  revert df. induction l as [|[n c] l IH]; intros df Hnd; simpl.
  - by rewrite filter_nil, app_nil_r.
  - apply NoDup_cons in Hnd as [Hn Hnd]. simpl in Hn.
    rewrite IH by done. rewrite columns_setitem, filter_cons. simpl.
    destruct (decide (n ∈ columns df)) as [Hin|Hin].
    + by rewrite decide_False by tauto.
    + rewrite decide_True by done. rewrite <- app_assoc. simpl. do 2 f_equal.
      by apply filter_not_elem_of_snoc.
Qed.

Lemma lookup_np_where_inv {A : Type} (cond : list bool) (x y : list A) (i : nat)
    (v : A) :
  np_where cond x y !! i = Some v →
  ∃ b a d, cond !! i = Some b ∧ x !! i = Some a ∧ y !! i = Some d ∧
    v = (if b : bool then a else d).
Proof.
  revert x y i.
  induction cond as [|b cond IH]; intros [|a x] [|d y] [|i]; simpl; try done.
  - intros [= <-]. exists b; exists a; exists d. done.
  - apply IH.
Qed.

Lemma lookup_chosen_source (loc city : list float) (i : nat) (g : float)
    (s : string) :
  chosen_of loc city !! i = Some g → source_of loc city !! i = Some s →
  ∃ l c, loc !! i = Some l ∧ city !! i = Some c ∧
    g = (if F64.notna l then l else c) ∧
    s = (if F64.notna l then "locality"
         else if F64.notna c then "city" else "none").
Proof.
  intros Hg Hs. unfold chosen_of in Hg.
  apply lookup_np_where_inv in Hg as (b & l & c & Hb & Hl & Hc & ->).
  rewrite (lookup_series_notna _ _ _ Hl) in Hb. injection Hb as <-.
  rewrite (lookup_source_of _ _ _ _ _ Hl Hc) in Hs. injection Hs as <-.
  exists l; exists c. done.
Qed.

(** ** Choice of the growth rate *)

(** C1. For every row, the chosen growth rate is the locality rate when that
    is present and the city rate otherwise, and the source is "locality"
    when the locality rate is present, "city" when only the city rate is,
    and "none" when both are absent. *)
Theorem chosen_rate_by_priority (df out : dataframe) (i : nat) (l c : float) :
  forecaster df = inr out →
  float_at df loc_cagr_col i = Some l →
  float_at df city_cagr_col i = Some c →
  float_at out "chosen_cagr" i = Some (if F64.notna l then l else c) ∧
  str_at out "cagr_source" i =
    Some (if F64.notna l then "locality"
          else if F64.notna c then "city" else "none").
Proof.
  intros (loc & city & price & Hl & Hc & Hp & ->)%forecaster_inv Hli Hci.
  unfold float_at, str_at in *.
  rewrite Hl in Hli. rewrite Hc in Hci.
  rewrite getitem_assign_all_chosen, getitem_assign_all_source.
  split; [by apply lookup_chosen_of|by apply lookup_source_of].
Qed.

(** ** The forecast columns *)

(** C2. For every row and each horizon k in 1, 2, 3 the k-year forecast is
    round(price * (1 + chosen rate) ** k, 2), with numpy's round and numpy's
    power: the base for k = 1, its square for k = 2, the platform's pow for
    k = 3; this holds for all rows, so in particular where both operands are
    present.  The table with price 100.0, locality rate 0.10 and city rate
    0.05 gets the chosen rate 0.10, the source "locality" and the forecasts
    110.0, 121.0 and 133.1; the last one on every platform whose pow is
    faithful, whichever neighbour of the exact cube of 1.1 it returns. *)
Theorem forecast_is_rounded_compound_growth :
  (∀ (df out : dataframe) (i : nat) (p g : float) (k : positive),
     forecaster df = inr out →
     float_at df price_col i = Some p →
     float_at out "chosen_cagr" i = Some g →
     (k ≤ 3)%positive →
     float_at out (forecast_col k) i =
       Some (F64.np_round 2 (p * F64.power (1 + g) k)%float)) ∧
  (pow_faithful 3 → forecaster numeric_example_df = inr numeric_example_out).
Proof.
  split.
  - intros df out i p g k Hrun Hp Hg Hk.
    by rewrite (forecast_row df out i p g k).
  - intros Hf.
    rewrite (forecaster_inr _ [0.10]%float [0.05]%float [100]%float)
      by reflexivity.
    f_equal. unfold assign_all.
    change (chosen_of [0.10]%float [0.05]%float) with [0.10]%float.
    change (forecast_of [100]%float [0.10]%float 3)
      with [F64.forecast 100 0.10 3].
    rewrite (forecast_example_3 Hf). vm_compute. reflexivity.
Qed.

(** C3. If the price or the chosen growth rate of a row is absent, all three
    forecasts of the row are absent, and the run raises no error; when both
    growth rates are absent the source is "none" and the three forecasts are
    missing. *)
Theorem missing_operand_gives_missing_forecast
    (df : dataframe) (loc city price : list float) :
  getitem df loc_cagr_col = Some (FloatCol loc) →
  getitem df city_cagr_col = Some (FloatCol city) →
  getitem df price_col = Some (FloatCol price) →
  ∃ out, forecaster df = inr out ∧
    (∀ (i : nat) (p g : float),
       price !! i = Some p →
       float_at out "chosen_cagr" i = Some g →
       is_nan p = true ∨ is_nan g = true →
       ∀ k, (k ≤ 3)%positive → float_at out (forecast_col k) i = Some nan) ∧
    (∀ (i : nat) (p l c : float),
       price !! i = Some p → loc !! i = Some l → city !! i = Some c →
       is_nan l = true → is_nan c = true →
       str_at out "cagr_source" i = Some "none" ∧
       ∀ k, (k ≤ 3)%positive → float_at out (forecast_col k) i = Some nan).
Proof.
  intros Hl Hc Hp.
  pose proof (forecaster_inr df loc city price Hl Hc Hp) as Hrun.
  exists (assign_all df loc city price). split; [done|]. split.
  - intros i p g Hpi Hgi Hnan k Hk.
    rewrite (forecast_row df _ i p g k Hrun); [|by unfold float_at; rewrite Hp|done..].
    by rewrite forecast_nan.
  - intros i p l c Hpi Hli Hci Hln Hcn.
    pose proof (lookup_chosen_of loc city i l c Hli Hci) as Hg.
    pose proof (lookup_source_of loc city i l c Hli Hci) as Hs.
    unfold F64.notna in Hg, Hs. rewrite Hln in Hg, Hs. rewrite Hcn in Hs.
    simpl in Hg, Hs. split.
    { unfold str_at. by rewrite getitem_assign_all_source. }
    intros k Hk.
    rewrite (forecast_row df _ i p c k Hrun); [|unfold float_at..|done].
    + rewrite forecast_nan; auto.
    + by rewrite Hp.
    + by rewrite getitem_assign_all_chosen.
Qed.

(** C7. The forecasts are functions of the price and the chosen growth rate:
    two rows, of one run or of two, with equal values of both have equal
    forecasts in all three columns. *)
Theorem forecast_determined_by_price_and_rate
    (df out df' out' : dataframe) (i j : nat) (p g : float) (k : positive) :
  forecaster df = inr out →
  forecaster df' = inr out' →
  float_at df price_col i = Some p →
  float_at out "chosen_cagr" i = Some g →
  float_at df' price_col j = Some p →
  float_at out' "chosen_cagr" j = Some g →
  (k ≤ 3)%positive →
  float_at out (forecast_col k) i = float_at out' (forecast_col k) j.
Proof.
  intros Hrun Hrun' Hp Hg Hp' Hg' Hk.
  rewrite (forecast_row df out i p g k) by done.
  by rewrite (forecast_row df' out' j p g k).
Qed.

(** C8, amended. A forecast is present only if the price and the chosen rate
    both are; with both present the k-year forecast is present exactly when
    the product of the price and the growth factor (1 + rate) ** k is not
    zero times infinity. *)
Theorem forecast_present_iff
    (df out : dataframe) (i : nat) (p g : float) (k : positive) :
  forecaster df = inr out →
  float_at df price_col i = Some p →
  float_at out "chosen_cagr" i = Some g →
  (k ≤ 3)%positive →
  ∃ f, float_at out (forecast_col k) i = Some f ∧
    (F64.notna f = true ↔
       F64.notna p = true ∧ F64.notna g = true ∧
       F64.zero_times_inf p (F64.power (1 + g) k) = false).
Proof.
  intros Hrun Hp Hg Hk.
  exists (F64.forecast p g k). split; [by apply (forecast_row df)|].
  unfold F64.notna. rewrite forecast_is_nan.
  destruct (is_nan p), (is_nan g), (F64.zero_times_inf _ _); simpl;
    intuition discriminate.
Qed.


(** C9. For every row whose chosen growth rate equals 0 (either zero), all
    three forecasts equal round(price, 2); this holds for every price, so in
    particular for a present one. *)
Theorem zero_rate_keeps_rounded_price
    (df out : dataframe) (i : nat) (p g : float) (k : positive) :
  forecaster df = inr out →
  float_at df price_col i = Some p →
  float_at out "chosen_cagr" i = Some g →
  (g =? 0)%float = true →
  (k ≤ 3)%positive →
  float_at out (forecast_col k) i = Some (F64.np_round 2 p).
Proof.
  intros Hrun Hp Hg Hzero Hk.
  rewrite (forecast_row df out i p g k) by done.
  by rewrite forecast_zero_rate.
Qed.


(** ** The table as a whole *)

(** C4, amended. For every input table that has the three required columns
    and none of the five derived column names, the run succeeds and the
    output is the input, its columns in place and unchanged and its rows in
    number and order, followed by exactly five new columns: the chosen rate,
    its source and the three forecasts. *)
Theorem fresh_table_gets_five_columns (df : dataframe) :
  has_required_columns df →
  (∀ n, n ∈ derived_cols → n ∉ columns df) →
  ∃ out, forecaster df = inr out ∧ appends_five_columns df out.
Proof.
  intros (loc & city & price & Hl & Hc & Hp) Hfresh.
  exists (assign_all df loc city price).
  split; [by apply forecaster_inr|]. split.
  - rewrite assign_all_fresh by done. eauto 10.
  - intros n Hn. by apply nrows_assign_all.
Qed.

(** ** The run *)

(** C5. If the input table lacks one of the three required columns, the run
    fails with an error and leaves the file system as it found it: no output
    file is produced or modified. *)
Theorem missing_column_aborts_before_write
    (fs : gmap string (list (string * column))) (df : dataframe) (c : string) :
  fs !! input_file = Some df →
  c ∈ [price_col; loc_cagr_col; city_cagr_col] →
  getitem df c = None →
  ∃ e, main fs = (Some e, fs).
Proof.
  intros Hfs Hc Hnone. unfold main, read_csv. rewrite Hfs. simpl.
  destruct (forecaster df) as [e|out] eqn:Hrun; [by exists e|].
  apply forecaster_inv in Hrun as (loc & city & price & Hl & Hci & Hp & _).
  rewrite !elem_of_cons in Hc.
  destruct Hc as [->|[->|[->|Hc]]]; [congruence..|].
  by apply elem_of_nil in Hc.
Qed.

(** C6. The transformation is idempotent: a second run on the same input
    leaves the same files and the same outcome; applied to its own output,
    the Forecaster returns that output; and applied to its output restricted
    to the original columns, it computes the same five derived columns. *)
Theorem forecaster_idempotent :
  (∀ fs, main (main fs).2 = main fs) ∧
  (∀ df out, forecaster df = inr out → forecaster out = inr out) ∧
  (∀ df out, forecaster df = inr out →
     ∃ out', forecaster (restrict out (columns df)) = inr out' ∧
       ∀ n, n ∈ derived_cols → getitem out' n = getitem out n).
Proof.
  split; [|split].
  - intros fs. unfold main, read_csv.
    destruct (fs !! input_file) as [df|] eqn:Hfs; simpl.
    + destruct (forecaster df) as [e|out] eqn:Hrun; simpl.
      * by rewrite Hfs; simpl; rewrite Hrun.
      * unfold to_csv. rewrite lookup_insert_ne by discriminate.
        rewrite Hfs; simpl. rewrite Hrun. by rewrite insert_insert_eq.
    + by rewrite Hfs.
  - intros df out (loc & city & price & Hl & Hc & Hp & ->)%forecaster_inv.
    rewrite (forecaster_inr _ loc city price); first last.
    { by rewrite getitem_assign_all_other by (apply required_not_derived; in_list). }
    { by rewrite getitem_assign_all_other by (apply required_not_derived; in_list). }
    { by rewrite getitem_assign_all_other by (apply required_not_derived; in_list). }
    f_equal. unfold assign_all at 1.
    rewrite (setitem_id _ "chosen_cagr") by apply getitem_assign_all_chosen.
    rewrite (setitem_id _ "cagr_source") by apply getitem_assign_all_source.
    rewrite (setitem_id _ "Price_per_SQFT_plus_1yr")
      by (by apply (getitem_assign_all_forecast _ _ _ _ 1)).
    rewrite (setitem_id _ "Price_per_SQFT_plus_2yr")
      by (by apply (getitem_assign_all_forecast _ _ _ _ 2)).
    by rewrite (setitem_id _ "Price_per_SQFT_plus_3yr")
      by (by apply (getitem_assign_all_forecast _ _ _ _ 3)).
  - intros df out (loc & city & price & Hl & Hc & Hp & ->)%forecaster_inv.
    assert (∀ n c, n ∈ [price_col; city_cagr_col; loc_cagr_col] →
              getitem df n = Some c →
              getitem (restrict (assign_all df loc city price) (columns df)) n
              = Some c) as Hkeep.
    { intros n c Hn Hget. rewrite getitem_restrict.
      rewrite decide_True by by eapply getitem_Some_columns.
      by rewrite getitem_assign_all_other by by apply required_not_derived. }
    eexists. split.
    + apply (forecaster_inr _ loc city price); apply Hkeep; try done; in_list.
    + intros n Hn. unfold derived_cols in Hn. rewrite !elem_of_cons in Hn.
      destruct Hn as [->|[->|[->|[->|[->|Hn]]]]];
        [| | | | |by apply elem_of_nil in Hn].
      * by rewrite !getitem_assign_all_chosen.
      * by rewrite !getitem_assign_all_source.
      * by rewrite !(getitem_assign_all_forecast _ _ _ _ 1).
      * by rewrite !(getitem_assign_all_forecast _ _ _ _ 2).
      * by rewrite !(getitem_assign_all_forecast _ _ _ _ 3).
Qed.


(** ** Monotonicity in the horizon *)

(** C10, amended. For every row where the price is present and non-negative
    and the chosen growth rate is present and non-negative, the forecasts do
    not decrease with the horizon as far as they are present: forecast 1 <=
    forecast 2 where the 2-year forecast is present, and forecast 1 <=
    forecast 2 <= forecast 3 where the 3-year forecast is present, on a
    platform whose pow is faithful (the 3-year forecast is computed with the
    platform's pow). *)
Theorem forecasts_nondecreasing_when_present
    (df out : dataframe) (i : nat) (p g f1 f2 f3 : float) :
  forecaster df = inr out →
  float_at df price_col i = Some p →
  float_at out "chosen_cagr" i = Some g →
  (0 <=? p)%float = true →
  (0 <=? g)%float = true →
  float_at out (forecast_col 1) i = Some f1 →
  float_at out (forecast_col 2) i = Some f2 →
  float_at out (forecast_col 3) i = Some f3 →
  (F64.notna f2 = true → (f1 <=? f2)%float = true) ∧
  (pow_faithful 3 → F64.notna f3 = true →
   (f1 <=? f2)%float = true ∧ (f2 <=? f3)%float = true).
Proof.
  intros Hrun Hp Hg Hp0 Hg0 H1 H2 H3.
  rewrite (forecast_row df out i p g 1 Hrun Hp Hg) in H1 by done.
  rewrite (forecast_row df out i p g 2 Hrun Hp Hg) in H2 by done.
  rewrite (forecast_row df out i p g 3 Hrun Hp Hg) in H3 by done.
  injection H1 as <-. injection H2 as <-. injection H3 as <-.
  unfold F64.notna. split.
  - intros Hpresent%negb_true_iff. by apply forecast_mono_12.
  - intros Hf Hpresent%negb_true_iff. by apply forecast_mono.
Qed.

(** ** Further properties of the run *)

(** X2. The run changes no file but the output file, and never the input
    file; after a run that raised no error the output file holds the
    transformed table of the input file. *)
Theorem run_touches_only_output_file
    (fs : gmap string (list (string * column))) :
  (∀ path, path ≠ output_file → (main fs).2 !! path = fs !! path) ∧
  (main fs).2 !! input_file = fs !! input_file ∧
  ((main fs).1 = None →
   ∃ df out, fs !! input_file = Some df ∧ forecaster df = inr out ∧
     (main fs).2 !! output_file = Some out).
Proof.
  unfold main, read_csv.
  destruct (fs !! input_file) as [df|] eqn:Hfs; simpl; [|done].
  destruct (forecaster df) as [e|out] eqn:Hrun; simpl; [done|].
  unfold to_csv. repeat split.
  - intros path Hne. by rewrite lookup_insert_ne.
  - by rewrite lookup_insert_ne by done.
  - intros _. exists df, out. by rewrite lookup_insert_eq.
Qed.

(** X3. The error of a run on a table that lacks a required column names the
    first column the script reads that is missing: the locality rate, then
    the city rate, then the price. *)
Theorem key_error_names_first_missing_column (df : dataframe) :
  (getitem df loc_cagr_col = None →
   forecaster df = inl (KeyError loc_cagr_col)) ∧
  (∀ loc, getitem df loc_cagr_col = Some (FloatCol loc) →
     getitem df city_cagr_col = None →
     forecaster df = inl (KeyError city_cagr_col)) ∧
  (∀ loc city, getitem df loc_cagr_col = Some (FloatCol loc) →
     getitem df city_cagr_col = Some (FloatCol city) →
     getitem df price_col = None →
     forecaster df = inl (KeyError price_col)).
Proof.
  split; [|split].
  - intros Hl. unfold forecaster, chosen_cagr, float_col. by rewrite Hl.
  - intros loc Hl Hc. unfold forecaster, chosen_cagr, float_col.
    by rewrite Hl, Hc.
  - intros loc city Hl%float_col_inr Hc%float_col_inr Hp.
    unfold forecaster.
    rewrite (chosen_cagr_inr _ _ _ Hl Hc). simpl.
    rewrite (cagr_source_inr _ loc city)
      by (rewrite float_col_setitem_ne by names_ne; done). simpl.
    rewrite (forecast_column_inl _ 1 (KeyError price_col)); [done|].
    rewrite !float_col_setitem_ne by names_ne.
    unfold float_col. by rewrite Hp.
Qed.

(** X4. The output has the number of rows of the input, whatever columns the
    input has: every column of the output, the five derived ones included,
    has as many rows as the columns of the input; an empty table gives an
    empty table. *)
Theorem row_count_is_kept (df out : dataframe) (n : nat) :
  forecaster df = inr out → nrows df n → nrows out n.
Proof.
  intros (loc & city & price & Hl & Hc & Hp & ->)%forecaster_inv Hn.
  by apply nrows_assign_all.
Qed.

(** X5. Every column whose name is not one of the five derived names is in
    the output as it is in the input, also when the input already has
    derived columns. *)
Theorem other_columns_are_kept (df out : dataframe) (n : string) :
  forecaster df = inr out → n ∉ derived_cols → getitem out n = getitem df n.
Proof.
  intros (loc & city & price & Hl & Hc & Hp & ->)%forecaster_inv Hn.
  by apply getitem_assign_all_other.
Qed.

(** X6. The column names of the output are those of the input, in their
    order, followed by the derived names that the input does not have, in
    the order in which the script assigns them. *)
Theorem output_column_names (df out : dataframe) :
  forecaster df = inr out →
  columns out = columns df ++ filter (λ n, n ∉ columns df) derived_cols.
Proof.
  intros (loc & city & price & Hl & Hc & Hp & ->)%forecaster_inv.
  set (c := chosen_of loc city).
  apply (columns_foldl_setitem
    [("chosen_cagr", FloatCol c);
     ("cagr_source", ObjCol (source_of loc city));
     ("Price_per_SQFT_plus_1yr", FloatCol (forecast_of price c 1));
     ("Price_per_SQFT_plus_2yr", FloatCol (forecast_of price c 2));
     ("Price_per_SQFT_plus_3yr", FloatCol (forecast_of price c 3))] df).
  simpl. repeat (apply NoDup_cons; split;
    [rewrite ?not_elem_of_cons; repeat split; try discriminate;
     apply not_elem_of_nil|]).
  apply NoDup_nil_2.
Qed.

(** X7. The five derived columns depend on the three required columns only:
    a run on any other table with the same three columns succeeds as well
    and computes the same derived columns. *)
Theorem derived_columns_depend_on_required_only (df df' out : dataframe) :
  (∀ n, n ∈ [price_col; city_cagr_col; loc_cagr_col] →
        getitem df' n = getitem df n) →
  forecaster df = inr out →
  ∃ out', forecaster df' = inr out' ∧
    ∀ n, n ∈ derived_cols → getitem out' n = getitem out n.
Proof.
  intros Heq (loc & city & price & Hl & Hc & Hp & ->)%forecaster_inv.
  exists (assign_all df' loc city price). split.
  - apply forecaster_inr; rewrite Heq by in_list; done.
  - intros n. unfold derived_cols. rewrite !elem_of_cons.
    intros [->|[->|[->|[->|[->|Hn]]]]]; [| | | | |by apply elem_of_nil in Hn].
    + by rewrite !getitem_assign_all_chosen.
    + by rewrite !getitem_assign_all_source.
    + by rewrite !(getitem_assign_all_forecast _ _ _ _ 1).
    + by rewrite !(getitem_assign_all_forecast _ _ _ _ 2).
    + by rewrite !(getitem_assign_all_forecast _ _ _ _ 3).
Qed.

(** X8. The two columns of the rate agree in every row: the source is one of
    "locality", "city" and "none", and it is "none" exactly when the chosen
    rate is missing. *)
Theorem source_none_iff_rate_missing (df out : dataframe) (i : nat) (g : float)
    (s : string) :
  forecaster df = inr out →
  float_at out "chosen_cagr" i = Some g →
  str_at out "cagr_source" i = Some s →
  s ∈ ["locality"; "city"; "none"] ∧ (s = "none" ↔ F64.notna g = false).
Proof.
  intros (loc & city & price & Hl & Hc & Hp & ->)%forecaster_inv.
  unfold float_at, str_at.
  rewrite getitem_assign_all_chosen, getitem_assign_all_source.
  intros Hg Hs.
  destruct (lookup_chosen_source _ _ _ _ _ Hg Hs) as (l & c & _ & _ & -> & ->).
  destruct (F64.notna l) eqn:El; [|destruct (F64.notna c) eqn:Ec].
  - split; [in_list|]. split; [discriminate|congruence].
  - split; [in_list|]. split; [discriminate|congruence].
  - split; [in_list|]. done.
Qed.

(** ** Further properties of the forecasts *)

(** X9. Growth never lowers the price: for a non-negative price and a
    non-negative chosen rate, every forecast that is present is at least the
    price rounded to two decimals, which is not negative; for the 3-year
    forecast, which is computed with the platform's pow, on a platform whose
    pow is faithful. *)
Theorem forecast_at_least_rounded_price
    (df out : dataframe) (i : nat) (p g f : float) (k : positive) :
  forecaster df = inr out →
  float_at df price_col i = Some p →
  float_at out "chosen_cagr" i = Some g →
  (k ≤ 3)%positive →
  (k = 3%positive → pow_faithful 3) →
  (0 <=? p)%float = true →
  (0 <=? g)%float = true →
  float_at out (forecast_col k) i = Some f →
  F64.notna f = true →
  (0 <=? F64.np_round 2 p)%float = true ∧
  (F64.np_round 2 p <=? f)%float = true.
Proof.
  intros Hrun Hp Hg Hk Hfaithful Hp0 Hg0 Hf Hpresent.
  rewrite (forecast_row df out i p g k Hrun Hp Hg Hk) in Hf.
  injection Hf as <-.
  apply forecast_ge_price; [done..|].
  unfold F64.notna in Hpresent. by apply negb_true_iff in Hpresent.
Qed.

(** X10. A price of zero gives forecasts of zero: every forecast of such a
    row that is present is zero, whatever the rate. *)
Theorem zero_price_gives_zero_forecast
    (df out : dataframe) (i : nat) (p g f : float) (k : positive) :
  forecaster df = inr out →
  float_at df price_col i = Some p →
  float_at out "chosen_cagr" i = Some g →
  (k ≤ 3)%positive →
  (p =? 0)%float = true →
  float_at out (forecast_col k) i = Some f →
  F64.notna f = true →
  (f =? 0)%float = true.
Proof.
  intros Hrun Hp Hg Hk Hp0 Hf Hpresent.
  rewrite (forecast_row df out i p g k Hrun Hp Hg Hk) in Hf.
  injection Hf as <-.
  apply forecast_zero_price; [done|].
  unfold F64.notna in Hpresent. by apply negb_true_iff in Hpresent.
Qed.

(** X11. A falling price: for a non-negative price and a chosen rate between
    minus one and zero, the forecasts of the first two horizons do not
    increase and stay between zero and the rounded price, as long as the
    2-year forecast is present: 0 <= forecast 2 <= forecast 1 <=
    round(price). *)
Theorem forecasts_nonincreasing_for_negative_rate
    (df out : dataframe) (i : nat) (p g f1 f2 : float) :
  forecaster df = inr out →
  float_at df price_col i = Some p →
  float_at out "chosen_cagr" i = Some g →
  (0 <=? p)%float = true →
  (-1 <=? g)%float = true →
  (g <=? 0)%float = true →
  float_at out (forecast_col 1) i = Some f1 →
  float_at out (forecast_col 2) i = Some f2 →
  F64.notna f2 = true →
  (0 <=? f2)%float = true ∧ (f2 <=? f1)%float = true ∧
  (f1 <=? F64.np_round 2 p)%float = true.
Proof.
  intros Hrun Hp Hg Hp0 Hlo Hhi H1 H2 Hpresent.
  rewrite (forecast_row df out i p g 1 Hrun Hp Hg) in H1 by done.
  rewrite (forecast_row df out i p g 2 Hrun Hp Hg) in H2 by done.
  injection H1 as <-. injection H2 as <-.
  apply forecast_antimono; [done..|].
  unfold F64.notna in Hpresent. by apply negb_true_iff in Hpresent.
Qed.

(** X12. The first two horizons in float64 operations alone: the 1-year
    forecast is the rounded product of the price and one plus the rate, and
    the 2-year forecast is the rounded product of the price and the square
    of one plus the rate, the square being one float64 multiplication. *)
Theorem first_two_forecasts_by_multiplication
    (df out : dataframe) (i : nat) (p g : float) :
  forecaster df = inr out →
  float_at df price_col i = Some p →
  float_at out "chosen_cagr" i = Some g →
  float_at out (forecast_col 1) i = Some (F64.np_round 2 (p * (1 + g)))%float ∧
  float_at out (forecast_col 2) i =
    Some (F64.np_round 2 (p * ((1 + g) * (1 + g))))%float.
Proof.
  intros Hrun Hp Hg.
  rewrite (forecast_row df out i p g 1 Hrun Hp Hg) by done.
  rewrite (forecast_row df out i p g 2 Hrun Hp Hg) by done.
  unfold F64.forecast. by rewrite power_1, power_2.
Qed.


End script.

(** ** The claims that fail

    Each of them fails whatever the platform's [pow] is: the failing rows
    are decided by the assignments and by float64 products. *)

(** C4, as stated, fails on every platform: a table that already has a
    column named [chosen_cagr] gets that column overwritten and only four
    columns appended. *)
Lemma existing_derived_column_is_overwritten :
  ¬ ∃ libm : F64.Libm,
      ∀ df, has_required_columns df →
        ∃ out, forecaster df = inr out ∧ appends_five_columns df out.
Proof.
  intros [libm H].
  destruct (H clash_df) as (out & Hrun & (c & s & y1 & y2 & y3 & Hout) & _).
  { by exists [0.10]%float, [0.05]%float, [100]%float. }
  rewrite (forecaster_inr clash_df [0.10]%float [0.05]%float [100]%float
             eq_refl eq_refl eq_refl) in Hrun.
  injection Hrun as <-.
  apply (f_equal length) in Hout. discriminate Hout.
Qed.

(** C8, as stated, fails on every platform: with price 0 and rate 1e200
    both operands are present, the growth factor of the second year, a
    float64 product, overflows to infinity and zero times infinity is NaN, so
    the 2-year forecast is missing. *)
Lemma present_operands_missing_forecast :
  ¬ ∃ libm : F64.Libm,
      ∀ df out, forecaster df = inr out → present_iff_operands_present df out.
Proof.
  intros [libm H].
  pose proof (forecaster_inr overflow_df [1e200]%float [0.05]%float [0]%float
                eq_refl eq_refl eq_refl) as Hrun.
  destruct (H _ _ Hrun 0 0%float 1e200%float nan 2%positive) as [_ Hpresent].
  - reflexivity.
  - unfold float_at. by rewrite getitem_assign_all_chosen.
  - discriminate.
  - unfold float_at.
    by rewrite (getitem_assign_all_forecast _ _ _ _ 2).
  - assert (F64.notna nan = true) as Hnan; [|discriminate Hnan].
    apply Hpresent. split; reflexivity.
Qed.

(** C10, as stated, fails on every platform: with price 0 and rate 1e200
    the 1-year forecast is 0 and the 2-year forecast is NaN (zero times a
    growth factor that overflowed in a float64 product), and no comparison
    with NaN holds. *)
Lemma overflow_breaks_monotonicity :
  ¬ ∃ libm : F64.Libm,
      ∀ df out, forecaster df = inr out → forecasts_nondecreasing df out.
Proof.
  intros [libm H].
  pose proof (forecaster_inr overflow_df [1e200]%float [0.05]%float [0]%float
                eq_refl eq_refl eq_refl) as Hrun.
  destruct (H _ _ Hrun 0 0%float 1e200%float 0%float nan
              (F64.forecast 0 1e200 3)) as [Hle _].
  - reflexivity.
  - unfold float_at. by rewrite getitem_assign_all_chosen.
  - reflexivity.
  - reflexivity.
  - unfold float_at. by rewrite (getitem_assign_all_forecast _ _ _ _ 1).
  - unfold float_at. by rewrite (getitem_assign_all_forecast _ _ _ _ 2).
  - unfold float_at. by rewrite (getitem_assign_all_forecast _ _ _ _ 3).
  - discriminate Hle.
Qed.

(** * A platform with a correctly rounded [pow]

    The theorems above hold for every platform.  They are evaluated here on
    the sample tables for one platform: the one whose [pow] is correctly
    rounded. *)

Lemma pow_cr_one (k : positive) : F64.pow_cr 1 k = 1%float.
Proof.
  assert (SFleb (F64.SFpown SFone k) SFone = true ∧
          SFleb SFone (F64.SFpown SFone k) = true) as [H1 H2].
  { unfold SFone, F64.SFpown. simpl andb.
    rewrite <- (binary_round_id false 4503599627370496 (-52) eq_refl).
    assert (Z.pos (4503599627370496 ^ k) * 2 ^ (-52 * Z.pos k - -52 * Z.pos k) =
            4503599627370496 * 2 ^ (-52 - -52 * Z.pos k))%Z as E.
    { rewrite Z.sub_diag, Z.mul_1_r, Pos2Z.inj_pow.
      change 4503599627370496%Z with (2 ^ 52)%Z.
      rewrite <- Z.pow_mul_r, <- Z.pow_add_r by lia. f_equal. lia. }
    split; apply binary_round_mono; apply (dyadic_le_at (-52 * Z.pos k));
      try lia; rewrite E; lia. }
  apply leb_antisym; try done.
  - rewrite leb_spec, Prim2SF_pow_cr. exact H2.
  - rewrite leb_spec, Prim2SF_pow_cr. exact H1.
Qed.

Lemma pow_cr_inf (k : positive) : F64.pow_cr infinity k = infinity.
Proof. reflexivity. Qed.

#[global] Instance libm_cr : F64.Libm := {|
  F64.pow := F64.pow_cr;
  F64.pow_nan := pow_cr_is_nan;
  F64.pow_one := pow_cr_one;
  F64.pow_inf := pow_cr_inf;
|}.

(** The correctly rounded [pow] is faithful at every exponent. *)
Lemma libm_cr_faithful (k : positive) : pow_faithful k.
Proof.
  intros x m e Ex. simpl.
  assert (Prim2SF (F64.pow_cr x k) =
          binary_round prec emax false (m ^ k) (e * Z.pos k)) as Ec.
  { by rewrite Prim2SF_pow_cr, Ex. }
  split.
  - intros b mb eb Eb. pose proof (Prim2SF_valid b) as Vb.
    rewrite Eb in Vb. simpl in Vb.
    rewrite !leb_spec, Eb, Ec, <- (binary_round_id false mb eb Vb).
    rewrite <- Pos2Z.inj_pow. split; apply binary_round_mono.
  - rewrite <- Pos2Z.inj_pow. intros Hov.
    apply (binary_round_mono 1 (m ^ k) 1024 (e * Z.pos k)) in Hov.
    rewrite <- Ec in Hov. change (binary_round prec emax false 1 1024)
      with (S754_infinity false) in Hov.
    apply Prim2SF_inj. apply SFleb_inf_l; [|done].
    rewrite Ec. apply binary_round_nonneg.
Qed.

(** ** The claims on the sample tables *)

Lemma chosen_rate_by_priority_witness :
  (float_at sample_out "chosen_cagr" 0 = Some 0.10%float ∧
   str_at sample_out "cagr_source" 0 = Some "locality") ∧
  (float_at sample_out "chosen_cagr" 1 = Some 0.04%float ∧
   str_at sample_out "cagr_source" 1 = Some "city") ∧
  (float_at sample_out "chosen_cagr" 2 = Some nan ∧
   str_at sample_out "cagr_source" 2 = Some "none").
Proof.
  assert (forecaster sample_df = inr sample_out) as H by (vm_compute; reflexivity).
  split; [|split].
  - apply (chosen_rate_by_priority sample_df sample_out 0 0.10%float 0.05%float H);
      vm_compute; reflexivity.
  - apply (chosen_rate_by_priority sample_df sample_out 1 nan 0.04%float H);
      vm_compute; reflexivity.
  - apply (chosen_rate_by_priority sample_df sample_out 2 nan nan H);
      vm_compute; reflexivity.
Defined.

Lemma forecast_is_rounded_compound_growth_witness :
  float_at sample_out (forecast_col 2) 1 = Some 216.32%float ∧
  forecaster numeric_example_df = inr numeric_example_out.
Proof.
  assert (forecaster sample_df = inr sample_out) as H by (vm_compute; reflexivity).
  split.
  - pose proof (proj1 forecast_is_rounded_compound_growth
                  sample_df sample_out 1 200%float 0.04%float 2%positive H) as W.
    vm_compute in W. vm_compute. apply W; [reflexivity..|discriminate].
  - apply (proj2 forecast_is_rounded_compound_growth), libm_cr_faithful.
Defined.

Lemma missing_operand_gives_missing_forecast_witness :
  ∃ out, forecaster sample_df = inr out ∧
    float_at out (forecast_col 1) 2 = Some nan ∧
    str_at out "cagr_source" 2 = Some "none".
Proof.
  destruct (missing_operand_gives_missing_forecast sample_df
              [0.10; nan; nan]%float [0.05; 0.04; nan]%float
              [100; 200; 300]%float eq_refl eq_refl eq_refl)
    as (out & Hrun & _ & H).
  exists out. split; [exact Hrun|].
  destruct (H 2 300%float nan nan eq_refl eq_refl eq_refl eq_refl eq_refl)
    as [Hs Hf].
  split; [|exact Hs]. apply Hf. discriminate.
Defined.

Lemma forecast_determined_by_price_and_rate_witness :
  float_at sample_out (forecast_col 3) 0 =
  float_at numeric_example_out (forecast_col 3) 0.
Proof.
  apply (forecast_determined_by_price_and_rate
           sample_df sample_out numeric_example_df numeric_example_out
           0 0 100%float 0.10%float 3%positive);
    try (vm_compute; reflexivity).
  discriminate.
Defined.

Lemma forecast_present_iff_witness :
  ∃ f, float_at overflow_out (forecast_col 1) 0 = Some f ∧ F64.notna f = true.
Proof.
  destruct (forecast_present_iff overflow_df overflow_out 0 0%float 1e200%float
              1%positive) as (f & Hf & Hiff);
    try (vm_compute; reflexivity); [discriminate|].
  exists f. split; [exact Hf|].
  apply Hiff. repeat split; vm_compute; reflexivity.
Defined.

Lemma zero_rate_keeps_rounded_price_witness :
  float_at flat_out (forecast_col 3) 0 = Some 123.46%float.
Proof.
  pose proof (zero_rate_keeps_rounded_price flat_df flat_out 0
                123.456%float 0%float 3%positive) as W.
  vm_compute in W. vm_compute. apply W; [reflexivity..|discriminate].
Defined.

Lemma fresh_table_gets_five_columns_witness :
  ∃ out, forecaster sample_df = inr out ∧ appends_five_columns sample_df out.
Proof.
  apply fresh_table_gets_five_columns.
  - by exists [0.10; nan; nan]%float, [0.05; 0.04; nan]%float,
      [100; 200; 300]%float.
  - intros n Hn. apply getitem_None.
    unfold derived_cols in Hn. rewrite !elem_of_cons in Hn.
    destruct Hn as [->|[->|[->|[->|[->|Hn]]]]]; try reflexivity.
    by apply elem_of_nil in Hn.
Defined.

Lemma missing_column_aborts_before_write_witness :
  ∃ e, main no_price_fs = (Some e, no_price_fs).
Proof.
  apply (missing_column_aborts_before_write no_price_fs no_price_df price_col).
  - reflexivity.
  - in_list.
  - reflexivity.
Defined.

Lemma forecaster_idempotent_witness :
  main (main no_price_fs).2 = main no_price_fs ∧
  forecaster sample_out = inr sample_out ∧
  ∃ out', forecaster (restrict sample_out (columns sample_df)) = inr out' ∧
    getitem out' "Price_per_SQFT_plus_3yr" =
    getitem sample_out "Price_per_SQFT_plus_3yr".
Proof.
  assert (forecaster sample_df = inr sample_out) as H by (vm_compute; reflexivity).
  destruct forecaster_idempotent as (Hmain & Hagain & Hrestrict).
  split; [apply Hmain|]. split; [exact (Hagain _ _ H)|].
  destruct (Hrestrict _ _ H) as (out' & Hrun' & Hsame).
  exists out'. split; [exact Hrun'|]. apply Hsame. unfold derived_cols. in_list.
Defined.

Lemma forecasts_nondecreasing_when_present_witness :
  (110 <=? 121)%float = true ∧ (121 <=? 133.1)%float = true.
Proof.
  destruct (forecasts_nondecreasing_when_present sample_df sample_out 0
              100%float 0.10%float 110%float 121%float 133.1%float)
    as [_ W]; try (vm_compute; reflexivity).
  apply W; [apply libm_cr_faithful|reflexivity].
Defined.


(** ** The further properties on the sample tables *)

Lemma key_error_names_first_missing_column_witness :
  forecaster no_price_df = inl (KeyError price_col).
Proof.
  apply (proj2 (proj2 (key_error_names_first_missing_column no_price_df))
           [0.10]%float [0.05]%float); reflexivity.
Defined.

Lemma row_count_is_kept_witness : nrows clash_out 1.
Proof.
  apply (row_count_is_kept clash_df clash_out 1).
  - vm_compute. reflexivity.
  - repeat constructor.
Defined.

Lemma other_columns_are_kept_witness :
  getitem clash_out price_col = getitem clash_df price_col.
Proof.
  apply other_columns_are_kept.
  - vm_compute. reflexivity.
  - apply required_not_derived. in_list.
Defined.

Lemma output_column_names_witness :
  columns clash_out =
  [price_col; city_cagr_col; loc_cagr_col; "chosen_cagr"; "cagr_source";
   "Price_per_SQFT_plus_1yr"; "Price_per_SQFT_plus_2yr";
   "Price_per_SQFT_plus_3yr"].
Proof.
  rewrite (output_column_names clash_df clash_out); [|vm_compute]; reflexivity.
Defined.

Lemma derived_columns_depend_on_required_only_witness :
  ∃ out', forecaster clash_df = inr out' ∧
    ∀ n, n ∈ derived_cols → getitem out' n = getitem numeric_example_out n.
Proof.
  apply (derived_columns_depend_on_required_only numeric_example_df clash_df).
  - intros n. rewrite !elem_of_cons.
    intros [->|[->|[->|Hn]]]; [| | |by apply elem_of_nil in Hn]; reflexivity.
  - vm_compute. reflexivity.
Defined.

Lemma source_none_iff_rate_missing_witness :
  "none" ∈ ["locality"; "city"; "none"] ∧
  ("none" = "none" ↔ F64.notna nan = false).
Proof.
  apply (source_none_iff_rate_missing sample_df sample_out 2 nan "none");
    vm_compute; reflexivity.
Defined.

Lemma forecast_at_least_rounded_price_witness :
  (0 <=? F64.np_round 2 200)%float = true ∧
  (F64.np_round 2 200 <=? 224.97)%float = true.
Proof.
  apply (forecast_at_least_rounded_price sample_df sample_out 1
           200%float 0.04%float 224.97%float 3%positive);
    try (vm_compute; reflexivity).
  - discriminate.
  - intros _. apply libm_cr_faithful.
Defined.

Lemma zero_price_gives_zero_forecast_witness : (0 =? 0)%float = true.
Proof.
  apply (zero_price_gives_zero_forecast overflow_df overflow_out 0
           0%float 1e200%float 0%float 1%positive);
    try (vm_compute; reflexivity).
  discriminate.
Defined.

Lemma forecasts_nonincreasing_for_negative_rate_witness :
  (0 <=? 90.25)%float = true ∧ (90.25 <=? 95)%float = true ∧
  (95 <=? F64.np_round 2 100)%float = true.
Proof.
  apply (forecasts_nonincreasing_for_negative_rate decline_df decline_out 0
           100%float (-0.05)%float 95%float 90.25%float);
    vm_compute; reflexivity.
Defined.

Lemma first_two_forecasts_by_multiplication_witness :
  float_at sample_out (forecast_col 1) 1 =
    Some (F64.np_round 2 (200 * (1 + 0.04)))%float ∧
  float_at sample_out (forecast_col 2) 1 =
    Some (F64.np_round 2 (200 * ((1 + 0.04) * (1 + 0.04))))%float.
Proof.
  apply (first_two_forecasts_by_multiplication sample_df sample_out 1
           200%float 0.04%float); vm_compute; reflexivity.
Defined.
